(** * Image ranking: the forest engine, the similarity scorer, the ranking
    orchestrator and the embedding coordinator

    A shallow embedding of
      - the forest worker (giniImpurity, findBestSplit, createDecisionTree,
        createRandomForest and the worker object with its trainedForest),
      - page-client.tsx (cosineSimilarity, useEmbeddings, oneOf,
        ThumbnailImage, forestWorkerResult, predictResult,
        updateImagePreference, imagesSorted, the directory reader),
      - the thumbnail worker (the canvas size of createThumbnail),
    and the properties of the specification proved about them.

    JavaScript numbers are IEEE binary64 values.  Every function below is
    written once, over an interface [Number] of the operations the code
    uses, and run at two instances: [float] (Rocq's primitive binary64
    floats, the values the code computes with) and [Q] (exact rationals).
    Arithmetic facts are proved at [Q], facts that need no arithmetic for
    every instance, and the order of binary64 numbers is taken from the
    specification of the primitive floats; concrete runs use either. *)

From Stdlib Require Import List Arith Bool Lia ZArith QArith Lqa.
From Stdlib Require Import Permutation Sorted.
From Stdlib Require PrimFloat FloatOps FloatAxioms SpecFloat.
From Stdlib Require String.
Import ListNotations.

Set Implicit Arguments.
Local Open Scope nat_scope.

(** ** JavaScript numbers *)

Module JS.

(** The arithmetic and the comparisons of a JS number. *)
Class Number (N : Type) : Type := {
  of_nat : nat -> N;
  add : N -> N -> N;
  sub : N -> N -> N;
  mul : N -> N -> N;
  div : N -> N -> N;
  ltb : N -> N -> bool;
  leb : N -> N -> bool;
  eqb : N -> N -> bool
}.

(** [Math.sqrt]. *)
Class Sqrt (N : Type) : Type := sqrt : N -> N.

Definition Qltb (x y : Q) : bool := negb (Qle_bool y x).

#[export] Instance Q_Number : Number Q := {
  of_nat n := inject_Z (Z.of_nat n);
  add := Qplus;
  sub := Qminus;
  mul := Qmult;
  div := Qdiv;
  ltb := Qltb;
  leb := Qle_bool;
  eqb := Qeq_bool
}.

(** A count as a binary64 value: 0, 0+1, 0+1+1, ... (exact below 2^53). *)
Fixpoint float_of_nat (n : nat) : PrimFloat.float :=
  match n with
  | O => PrimFloat.zero
  | S k => PrimFloat.add (float_of_nat k) PrimFloat.one
  end.

#[export] Instance float_Number : Number PrimFloat.float := {
  of_nat := float_of_nat;
  add := PrimFloat.add;
  sub := PrimFloat.sub;
  mul := PrimFloat.mul;
  div := PrimFloat.div;
  ltb := PrimFloat.ltb;
  leb := PrimFloat.leb;
  eqb := PrimFloat.eqb
}.

#[export] Instance float_Sqrt : Sqrt PrimFloat.float := PrimFloat.sqrt.

(** A value that is a number or [undefined] (also what is left of a [NaN]
    made from [undefined]): comparisons with it are false. *)
Definition js_le {N} `{Number N} (a b : option N) : bool :=
  match a, b with
  | Some x, Some y => leb x y
  | _, _ => false
  end.

Definition js_gt {N} `{Number N} (a b : option N) : bool :=
  match a, b with
  | Some x, Some y => ltb y x
  | _, _ => false
  end.

(** ** Objects with class labels as keys

    [counts[label]] and [distribution[label]] are properties named by a
    non-negative integer; JavaScript enumerates such properties in
    ascending numeric order, whatever the insertion order was.  An object
    is the list of its properties in enumeration order.

    The ascending order is that of array indices, the integers below
    2^32 - 1; a greater label names an ordinary property, which comes
    after the array indices in insertion order.  The page's labels are 0
    and 1; the statements below that depend on the order of the keys take
    labels that are array indices ([arrayIndex] in the vocabulary). *)

Definition Obj (V : Type) : Type := list (nat * V).

Fixpoint obj_get {V} (k : nat) (o : Obj V) : option V :=
  match o with
  | [] => None
  | (k', v) :: o' => if k =? k' then Some v else obj_get k o'
  end.

Fixpoint obj_set {V} (k : nat) (v : V) (o : Obj V) : Obj V :=
  match o with
  | [] => [(k, v)]
  | (k', v') :: o' =>
      if k <? k' then (k, v) :: o
      else if k =? k' then (k, v) :: o'
      else (k', v') :: obj_set k v o'
  end.

Definition obj_keys {V} (o : Obj V) : list nat := map fst o.
Definition obj_values {V} (o : Obj V) : list V := map snd o.

(** [counts[label] = (counts[label] || 0) + 1] *)
Definition incr (counts : Obj nat) (label : nat) : Obj nat :=
  obj_set label (match obj_get label counts with Some c => c | None => 0 end + 1) counts.

(** [labels.forEach((label) => { counts[label] = (counts[label] || 0) + 1 })]
    from [counts = {}]. *)
Definition countLabels (labels : list nat) : Obj nat :=
  fold_left incr labels [].

End JS.
Export JS.

(** ** The forest engine *)

Module Forest.

(** *** Randomness and exceptions

    [Math.random] is a source of draws, threaded through the code as
    state; a computation that throws (a [TypeError] on a property of
    [undefined]) has no result. *)
Definition M (A : Type) : Type := list nat -> option (A * list nat).

Definition ret {A} (a : A) : M A := fun s => Some (a, s).

Definition bind {A B} (c : M A) (k : A -> M B) : M B :=
  fun s => match c s with
           | Some (a, s') => k a s'
           | None => None
           end.

Definition throw {A} : M A := fun _ => None.

Definition draw : M nat :=
  fun s => match s with
           | [] => Some (0, [])
           | u :: s' => Some (u, s')
           end.

Notation "x <- c ;; k" := (bind c (fun x => k))
  (at level 61, c at next level, right associativity).

(** [Math.floor(Math.random() * n)]: one of [0 .. n-1]. *)
Definition randomIndex (n : nat) : M nat :=
  u <- draw ;; ret (u mod n).

Definition insertAt {A} (k : nat) (x : A) (l : list A) : list A :=
  firstn k l ++ x :: skipn k l.

(** [array.sort(() => 0.5 - Math.random())]: a permutation of the array
    that depends on the draws; each element lands at a drawn position. *)
Fixpoint shuffle (l : list nat) : M (list nat) :=
  match l with
  | [] => ret []
  | x :: l' =>
      r <- shuffle l' ;;
      u <- draw ;;
      ret (insertAt (u mod S (length r)) x r)
  end.

Section Engine.

Context {N : Type} `{Number N}.

(** [giniImpurity(labels)] *)
Definition giniImpurity (labels : list nat) : N :=
  let counts := countLabels labels in
  let total := length labels in
  sub (of_nat 1)
    (fold_left
       (fun sum count =>
          add sum (let r := div (of_nat count) (of_nat total) in mul r r))
       (obj_values counts) (of_nat 0)).

(** A [DataPoint]: [{ features, label }]. *)
Record DataPoint : Type := {
  features : list N;
  label : nat
}.

(** What [findBestSplit] returns: [{ featureIndex, threshold, left, right }].
    A threshold made from an [undefined] value is [NaN], here [None]. *)
Record Split : Type := {
  featureIndex : nat;
  threshold : option N;
  left : list DataPoint;
  right : list DataPoint
}.

(** [d.features[featureIndex]], [undefined] past the end of the array. *)
Definition featureAt (featureIndex : nat) (d : DataPoint) : option N :=
  nth_error (features d) featureIndex.

(** The comparator [(a, b) => a - b].  On numbers it is consistent, and
    [sort] returns them in ascending order; with a [NaN] among them it is
    not, and the order is the engine's: the statements about the order
    of the values are statements of exact arithmetic. *)
Definition compareNumbers (a b : N) : N := sub a b.

Fixpoint insertSorted (x : N) (l : list N) : list N :=
  match l with
  | [] => [x]
  | y :: l' =>
      if ltb (compareNumbers y x) (of_nat 0) then y :: insertSorted x l'
      else x :: l
  end.

Definition sortNumbers (l : list N) : list N := fold_right insertSorted [] l.

Definition definedValues (values : list (option N)) : list N :=
  flat_map (fun v => match v with Some x => [x] | None => [] end) values.

Definition undefinedValues (values : list (option N)) : list (option N) :=
  filter (fun v => match v with Some _ => false | None => true end) values.

(** [values.sort((a, b) => a - b)]: the numbers in ascending order, every
    [undefined] after them. *)
Definition sortValues (values : list (option N)) : list (option N) :=
  map Some (sortNumbers (definedValues values)) ++ undefinedValues values.

(** The equality of a [Set] ([SameValueZero]): [===], and [NaN] is the
    same value as [NaN]. *)
Definition sameValue (a b : option N) : bool :=
  match a, b with
  | Some x, Some y => eqb x y || (negb (eqb x x) && negb (eqb y y))
  | None, None => true
  | _, _ => false
  end.

(** [[...new Set(values)]]: the first occurrence of each value, in order. *)
Definition unique (values : list (option N)) : list (option N) :=
  fold_left
    (fun seen v => if existsb (sameValue v) seen then seen else seen ++ [v])
    values [].

(** The pairs [(uniqueValues[i], uniqueValues[i + 1])] of the inner loop. *)
Definition adjacent (uniqueValues : list (option N)) : list (option N * option N) :=
  combine uniqueValues (tl uniqueValues).

(** [(uniqueValues[i] + uniqueValues[i + 1]) / 2] *)
Definition midpoint (pair : option N * option N) : option N :=
  match pair with
  | (Some a, Some b) => Some (div (add a b) (of_nat 2))
  | _ => None
  end.

(** The weighted impurity of a partition of [data] into [l] and [r]. *)
Definition weightedGini (data l r : list DataPoint) : N :=
  add
    (mul (div (of_nat (length l)) (of_nat (length data))) (giniImpurity (map label l)))
    (mul (div (of_nat (length r)) (of_nat (length data))) (giniImpurity (map label r))).

(** The pair of variables [bestGini], [bestSplit]; they start as
    [Infinity] and [null], which is [None] below. *)
Record Best : Type := {
  bestGini : N;
  bestSplit : Split
}.

(** The split the inner loop builds for one pair of adjacent values. *)
Definition splitAt (data : list DataPoint) (featureIndex : nat)
    (pair : option N * option N) : Best :=
  let threshold := midpoint pair in
  let left := filter (fun d => js_le (featureAt featureIndex d) threshold) data in
  let right := filter (fun d => js_gt (featureAt featureIndex d) threshold) data in
  {| bestGini := weightedGini data left right;
     bestSplit := {| featureIndex := featureIndex; threshold := threshold;
                     left := left; right := right |} |}.

(** [if (gini < bestGini) { bestGini = gini; bestSplit = ... }] *)
Definition keepBest (best : option Best) (candidate : Best) : option Best :=
  match best with
  | None => Some candidate
  | Some b => if ltb (bestGini candidate) (bestGini b) then Some candidate else best
  end.

Definition uniqueValuesOf (data : list DataPoint) (featureIndex : nat) : list (option N) :=
  unique (sortValues (map (featureAt featureIndex) data)).

(** [findBestSplit({ data, featureIndices })] *)
Definition findBestSplit (data : list DataPoint) (featureIndices : list nat) : option Split :=
  option_map bestSplit
    (fold_left
       (fun best featureIndex =>
          fold_left
            (fun best pair => keepBest best (splitAt data featureIndex pair))
            (adjacent (uniqueValuesOf data featureIndex)) best)
       featureIndices None).

(** A node of a tree: a leaf carries [distribution], an inner node
    [featureIndex], [threshold], [left] and [right]. *)
Inductive TreeNode : Type :=
| Leaf (distribution : Obj N)
| Internal (featureIndex : nat) (threshold : option N) (left right : TreeNode).

(** *** Tree induction *)

(** The leaf's [distribution]: the count of every label, each divided by
    [data.length]. *)
Definition distributionOf (data : list DataPoint) : Obj N :=
  map (fun kc => (fst kc, div (of_nat (snd kc)) (of_nat (length data))))
      (countLabels (map label data)).

(** [new Set(data.map((d) => d.label)).size] *)
Definition labelSetSize (data : list DataPoint) : nat :=
  length (nodup Nat.eq_dec (map label data)).

Section Tree.

Variables (minSamplesSplit numFeatures : nat).

(** [buildTree(data, depth)], by recursion on [remaining = maxDepth - depth]:
    [depth === maxDepth] is [remaining = 0], and [depth + 1] is one less. *)
Fixpoint buildTree (remaining : nat) (data : list DataPoint) : M TreeNode :=
  match remaining with
  | O => ret (Leaf (distributionOf data))
  | S remaining' =>
      if (length data <? minSamplesSplit) || (labelSetSize data =? 1)
      then ret (Leaf (distributionOf data))
      else
        match data with
        | [] => throw
        | d0 :: _ =>
            let featureIndices := seq 0 (length (features d0)) in
            shuffled <- shuffle featureIndices ;;
            let selectedFeatures := firstn numFeatures shuffled in
            match findBestSplit data selectedFeatures with
            | None => ret (Leaf (distributionOf data))
            | Some split =>
                l <- buildTree remaining' (left split) ;;
                r <- buildTree remaining' (right split) ;;
                ret (Internal (featureIndex split) (threshold split) l r)
            end
        end
  end.

(** [createDecisionTree({ data, maxDepth, minSamplesSplit, numFeatures })]:
    the tree is its [root]; the three methods are the functions below. *)
Definition createDecisionTree (data : list DataPoint) (maxDepth : nat) : M TreeNode :=
  buildTree maxDepth data.

End Tree.

(** The walk from the root to a leaf that the three methods share. *)
Fixpoint descend (node : TreeNode) (fs : list N) : Obj N :=
  match node with
  | Leaf distribution => distribution
  | Internal featureIndex threshold l r =>
      if js_le (nth_error fs featureIndex) threshold
      then descend l fs
      else descend r fs
  end.

Definition predictProbaAll (root : TreeNode) (fs : list N) : Obj N :=
  descend root fs.

(** [x || 0] for a number [x]: [0] and [NaN] are falsy. *)
Definition orZero (x : option N) : N :=
  match x with
  | Some p => if eqb p (of_nat 0) then of_nat 0
              else if eqb p p then p else of_nat 0
  | None => of_nat 0
  end.

Definition predictProba (root : TreeNode) (fs : list N) (className : nat) : N :=
  orZero (obj_get className (descend root fs)).

(** [keys.reduce((a, b) => f(a, b))] with no initial value: a [TypeError]
    on an empty array. *)
Definition reduce1 {A} (f : A -> A -> A) (l : list A) : option A :=
  match l with
  | [] => None
  | a :: l' => Some (fold_left f l' a)
  end.

Definition predict (root : TreeNode) (fs : list N) : option nat :=
  let distribution := descend root fs in
  reduce1
    (fun a b => if js_gt (obj_get a distribution) (obj_get b distribution) then a else b)
    (obj_keys distribution).

(** *** Bagging *)

Record RandomForestOptions : Type := {
  numTrees : nat;
  maxDepth : nat;
  minSamplesSplit : nat;
  numFeatures : nat
}.

(** [Array.from({ length: k }, () => data[Math.floor(Math.random() * data.length)])] *)
Fixpoint bootstrap (data : list DataPoint) (k : nat) : M (list DataPoint) :=
  match k with
  | O => ret []
  | S k' =>
      i <- randomIndex (length data) ;;
      match nth_error data i with
      | Some d => rest <- bootstrap data k' ;; ret (d :: rest)
      | None => throw
      end
  end.

(** The loop [for (let i = 0; i < numTrees; i++)] of [train]. *)
Fixpoint growTrees (o : RandomForestOptions) (data : list DataPoint) (k : nat)
    : M (list TreeNode) :=
  match k with
  | O => ret []
  | S k' =>
      baggedData <- bootstrap data (length data) ;;
      tree <- createDecisionTree (minSamplesSplit o) (numFeatures o) baggedData (maxDepth o) ;;
      trees <- growTrees o data k' ;;
      ret (tree :: trees)
  end.

(** [createRandomForest(options).train(data)]: the forest is its [trees]. *)
Definition train (o : RandomForestOptions) (data : list DataPoint) : M (list TreeNode) :=
  growTrees o data (numTrees o).

(** The forest's [predict(features)]: the class most trees vote for. *)
Definition forestPredict (trees : list TreeNode) (fs : list N) : option nat :=
  let predictions :=
    fold_right
      (fun tree acc =>
         match predict tree fs, acc with
         | Some p, Some ps => Some (p :: ps)
         | _, _ => None
         end)
      (Some []) trees in
  match predictions with
  | Some ps =>
      let counts := countLabels ps in
      reduce1
        (fun a b =>
           if (match obj_get b counts with Some c => c | None => 0 end
               <? match obj_get a counts with Some c => c | None => 0 end)
           then a else b)
        (obj_keys counts)
  | None => None
  end.

(** The forest's [predictProba(features, className)]. *)
Definition forestPredictProba (trees : list TreeNode) (fs : list N) (className : nat) : N :=
  let probas := map (fun tree => predictProba tree fs className) trees in
  div (fold_left add probas (of_nat 0)) (of_nat (length trees)).

(** The forest's [predictProbaAll(features)]. *)
Definition forestPredictProbaAll (trees : list TreeNode) (fs : list N) : Obj N :=
  let probas := map (fun tree => predictProbaAll tree fs) trees in
  fold_left
    (fun avgProba p =>
       fold_left
         (fun avgProba key =>
            obj_set key
              (add (orZero (obj_get key avgProba))
                   (div (match obj_get key p with Some x => x | None => of_nat 0 end)
                        (of_nat (length trees))))
              avgProba)
         (obj_keys p) avgProba)
    probas [].

(** *** The worker object *)

(** The worker's only state, [let trainedForest]. *)
Record Worker : Type := {
  trainedForest : option (list TreeNode)
}.

Definition workerOptions (trainingSet : list (list N)) : RandomForestOptions :=
  {| numTrees := 100;
     maxDepth := 20;
     minSamplesSplit := 2;
     numFeatures := match trainingSet with
                    | [] => 0
                    | features0 :: _ => length features0
                    end |}.

(** [trainingSet.map((features, i) => ({ features, label: predictions[i] }))];
    the two arrays have the same length ([Expose]).  (A missing label
    would be [undefined], a class that the labels here have no name for:
    the statements about [train] take as many labels as feature vectors.) *)
Fixpoint labelled (trainingSet : list (list N)) (predictions : list nat) : list DataPoint :=
  match trainingSet with
  | [] => []
  | fs :: trainingSet' =>
      {| features := fs; label := hd 0 predictions |}
        :: labelled trainingSet' (tl predictions)
  end.

(** [object.train({ predictions, trainingSet })] at time [now]: the new
    worker and [{ version: Date.now() }]. *)
Definition workerTrain (now : nat) (trainingSet : list (list N)) (predictions : list nat)
    (w : Worker) : M (Worker * nat) :=
  forest <- train (workerOptions trainingSet) (labelled trainingSet predictions) ;;
  ret ({| trainedForest := Some forest |}, now).

(** [object.predictProba(features, c)]; a [TypeError] before any training. *)
Definition workerPredictProba (w : Worker) (fs : list N) (c : nat) : option N :=
  match trainedForest w with
  | Some forest => Some (forestPredictProba forest fs c)
  | None => None
  end.

End Engine.

Arguments DataPoint N : clear implicits.
Arguments Split N : clear implicits.
Arguments Best N : clear implicits.
Arguments TreeNode N : clear implicits.
Arguments Worker N : clear implicits.

End Forest.

(** ** The similarity scorer and the final order (page-client.tsx) *)

Module Ranking.

(** A [File] is an object compared by identity: a name for it. *)
Definition File : Type := nat.

(** A JS [Map] keyed by files, in insertion order. *)
Definition FileMap (V : Type) : Type := list (File * V).

Fixpoint map_get {V} (file : File) (m : FileMap V) : option V :=
  match m with
  | [] => None
  | (file', v) :: m' => if file =? file' then Some v else map_get file m'
  end.

Definition map_keys {V} (m : FileMap V) : list File := map fst m.

(** A function that throws has no result. *)
Definition Exc (A : Type) : Type := option A.

(** [array.reduce(f, acc)] for a callback that may throw. *)
Fixpoint reduceExc {A E} (f : A -> E -> Exc A) (l : list E) (acc : A) : Exc A :=
  match l with
  | [] => Some acc
  | x :: l' =>
      match f acc x with
      | Some acc' => reduceExc f l' acc'
      | None => None
      end
  end.

(** [array.map(f)] for a callback that may throw. *)
Fixpoint mapExc {A B} (f : A -> Exc B) (l : list A) : Exc (list B) :=
  match l with
  | [] => Some []
  | x :: l' =>
      match f x with
      | Some y => option_map (cons y) (mapExc f l')
      | None => None
      end
  end.

Inductive SortingMethod : Type := cosine | forest.

Section Scorer.

Context {N : Type} `{Number N} `{Sqrt N}.

(** The value of an entry of [imagesWithEmbeddings]; the code tests
    [floatEmbedding == null] wherever it reads it. *)
Record Embedding : Type := {
  floatEmbedding : option (list N)
}.

(** [cosineSimilarity(vecA, vecB)]; it throws on vectors of two lengths. *)
Definition cosineSimilarity (vecA vecB : list N) : Exc N :=
  if negb (length vecA =? length vecB) then None
  else
    let '(dotProduct, normA, normB) :=
      fold_left
        (fun acc ab =>
           let '(dotProduct, normA, normB) := acc in
           (add dotProduct (mul (fst ab) (snd ab)),
            add normA (mul (fst ab) (fst ab)),
            add normB (mul (snd ab) (snd ab))))
        (combine vecA vecB) (of_nat 0, of_nat 0, of_nat 0) in
    Some (div dotProduct (mul (sqrt normA) (sqrt normB))).

(** One of the two [reduce] calls: the sum of the similarities to the
    labelled embeddings, skipping those with no [floatEmbedding]. *)
Definition sumSimilarities (imageFloatEmbedding : list N) (labelled : list Embedding) : Exc N :=
  reduceExc
    (fun acc e =>
       match floatEmbedding e with
       | None => Some acc
       | Some labelledEmbedding =>
           option_map (add acc) (cosineSimilarity imageFloatEmbedding labelledEmbedding)
       end)
    labelled (of_nat 0).

(** [compact([...imagePreference.keys()].filter((file) =>
    imagePreference.get(file) === liked).map((file) =>
    imagesWithEmbeddings.get(file)))] *)
Definition labelledEmbeddings (liked : bool) (imagePreference : FileMap bool)
    (imagesWithEmbeddings : FileMap Embedding) : list Embedding :=
  flat_map
    (fun e => match e with Some x => [x] | None => [] end)
    (map (fun file => map_get file imagesWithEmbeddings)
       (filter
          (fun file => match map_get file imagePreference with
                       | Some b => Bool.eqb b liked
                       | None => false
                       end)
          (map_keys imagePreference))).

(** [imagesWithEmbeddings.get(file)?.floatEmbedding] *)
Definition floatEmbeddingOf (imagesWithEmbeddings : FileMap Embedding) (file : File)
    : option (list N) :=
  match map_get file imagesWithEmbeddings with
  | Some e => floatEmbedding e
  | None => None
  end.

(** The [score] of one image: [undefined] ([None]) or a number. *)
Definition score (imagePreference : FileMap bool) (imagesWithEmbeddings : FileMap Embedding)
    (file : File) : Exc (option N) :=
  match floatEmbeddingOf imagesWithEmbeddings file with
  | None => Some None
  | Some imageFloatEmbedding =>
      match sumSimilarities imageFloatEmbedding
              (labelledEmbeddings true imagePreference imagesWithEmbeddings) with
      | None => None
      | Some likedSum =>
          match sumSimilarities imageFloatEmbedding
                  (labelledEmbeddings false imagePreference imagesWithEmbeddings) with
          | None => None
          | Some dislikedSum => Some (Some (sub likedSum dislikedSum))
          end
      end
  end.

(** An element of [imagesWithRankings]. *)
Record Ranked : Type := {
  file : File;
  rankedScore : option N;
  scoreRf : option N;
  scoreFinal : option N
}.

Definition imagesWithRankings (images : list File) (imagePreference : FileMap bool)
    (imagesWithEmbeddings : FileMap Embedding)
    (imageForestPredictions : option (FileMap N)) (sortingMethod : SortingMethod)
    : Exc (list Ranked) :=
  mapExc
    (fun file =>
       match score imagePreference imagesWithEmbeddings file with
       | None => None
       | Some s =>
           let scoreRf := match imageForestPredictions with
                          | Some predictions => map_get file predictions
                          | None => None
                          end in
           Some {| file := file; rankedScore := s; scoreRf := scoreRf;
                   scoreFinal := match sortingMethod with
                                 | forest => scoreRf
                                 | cosine => s
                                 end |}
       end)
    images.

(** *** lodash's [sortBy]

    [sortBy(collection, f1, f2, f3)] pairs every element with its criteria
    [[f1(x), f2(x), f3(x)]] and its index, sorts the pairs with
    [compareMultiple], and returns the elements.  Here [f1] and [f2] give
    booleans and [f3] a number or [undefined]. *)

(** [compareAscending(value, other)] on two booleans: [false < true]. *)
Definition compareAscendingBool (value other : bool) : Z :=
  if Bool.eqb value other then 0%Z
  else if value && negb other then 1%Z
  else (-1)%Z.

(** [value === other] on numbers and [undefined]. *)
Definition strictEquals (value other : option N) : bool :=
  match value, other with
  | Some x, Some y => eqb x y
  | None, None => true
  | _, _ => false
  end.

(** [compareAscending(value, other)] on numbers and [undefined]:
    [undefined] is greater than every number, [NaN] greater than both. *)
Definition compareAscendingNumber (value other : option N) : Z :=
  let valIsDefined := match value with Some _ => true | None => false end in
  let othIsDefined := match other with Some _ => true | None => false end in
  let valIsReflexive := match value with Some x => eqb x x | None => true end in
  let othIsReflexive := match other with Some y => eqb y y | None => true end in
  if strictEquals value other then 0%Z
  else if js_gt value other || (negb valIsDefined && othIsReflexive) || negb valIsReflexive
  then 1%Z
  else if js_gt other value || (negb othIsDefined && valIsReflexive) || negb othIsReflexive
  then (-1)%Z
  else 0%Z.

(** The object [{ criteria, index, value }] that [baseOrderBy] builds. *)
Record Keyed (A : Type) : Type := {
  criteria : bool * bool * option N;
  index : nat;
  value : A
}.

(** [compareMultiple(object, other, [])]: the first criterion that
    differs decides, and the indices break a tie. *)
Definition compareMultiple {A} (object other : Keyed A) : Z :=
  let '(a1, a2, a3) := criteria object in
  let '(b1, b2, b3) := criteria other in
  let r1 := compareAscendingBool a1 b1 in
  if negb (r1 =? 0)%Z then r1
  else
    let r2 := compareAscendingBool a2 b2 in
    if negb (r2 =? 0)%Z then r2
    else
      let r3 := compareAscendingNumber a3 b3 in
      if negb (r3 =? 0)%Z then r3
      else (Z.of_nat (index object) - Z.of_nat (index other))%Z.

(** [array.sort(comparer)]: the elements in ascending order of a
    comparer that never answers 0 on two elements of the array.  (Two
    [NaN] scores make [compareMultiple] answer 1 both ways; the order is
    then the engine's, and the statements about scores leave [NaN] out.) *)
Fixpoint insertBy {A} (comparer : A -> A -> Z) (x : A) (l : list A) : list A :=
  match l with
  | [] => [x]
  | y :: l' =>
      if (comparer x y <? 0)%Z then x :: l
      else y :: insertBy comparer x l'
  end.

Definition sortWith {A} (comparer : A -> A -> Z) (l : list A) : list A :=
  fold_right (insertBy comparer) [] l.

(** The pairs of [baseOrderBy], indexed from [start]. *)
Fixpoint keyed {A} (criteriaOf : A -> bool * bool * option N) (start : nat)
    (collection : list A) : list (Keyed A) :=
  match collection with
  | [] => []
  | x :: l => {| criteria := criteriaOf x; index := start; value := x |}
                :: keyed criteriaOf (S start) l
  end.

Definition sortBy {A} (criteriaOf : A -> bool * bool * option N) (collection : list A)
    : list A :=
  map (@value A) (sortWith compareMultiple (keyed criteriaOf 0 collection)).

(** The three iteratees of the call in [imagesSorted]. *)
Definition rankingCriteria (imagePreference : FileMap bool) (i : Ranked)
    : bool * bool * option N :=
  (match map_get (file i) imagePreference with Some true => true | _ => false end,
   negb (match map_get (file i) imagePreference with Some false => true | _ => false end),
   scoreFinal i).

(** [sortBy(imagesWithRankings.reverse(), ...).reverse()] *)
Definition orderRankings (imagePreference : FileMap bool) (rankings : list Ranked)
    : list Ranked :=
  rev (sortBy (rankingCriteria imagePreference) (rev rankings)).

(** The memo [imagesSorted]. *)
Definition imagesSorted (images : list File) (imagePreference : FileMap bool)
    (imagesWithEmbeddings : FileMap Embedding)
    (imageForestPredictions : option (FileMap N)) (sortingMethod : SortingMethod)
    : Exc (list Ranked) :=
  option_map (orderRankings imagePreference)
    (imagesWithRankings images imagePreference imagesWithEmbeddings
       imageForestPredictions sortingMethod).

End Scorer.

Arguments Embedding N : clear implicits.
Arguments Ranked N : clear implicits.
Arguments Keyed N A : clear implicits.

End Ranking.

(** ** The forest request of the page ([forestWorkerResult]) *)

Module Orchestrator.

Import Forest Ranking.

Section Fetcher.

Context {N : Type} `{Number N}.

(** The fetcher of [forestWorkerResult], run against the worker [w] at
    time [now]: the worker afterwards and the fetched value, [undefined]
    ([None]) or an object holding the [version] that [train] returned. *)
Definition forestWorkerFetch (now : nat) (images : list File)
    (imagePreference : FileMap bool) (imagesWithEmbeddings : FileMap (Embedding N))
    (sortingMethod : SortingMethod) (w : Worker N) : M (Worker N * option nat) :=
  if length images =? 0 then ret (w, None)
  else
    match sortingMethod with
    | cosine => ret (w, None)
    | forest =>
        if length imagePreference =? 0 then ret (w, None)
        else
          let labeledImages :=
            map (fun entry =>
                   (fst entry, snd entry, floatEmbeddingOf imagesWithEmbeddings (fst entry)))
                imagePreference in
          if existsb (fun i => match snd i with None => true | Some _ => false end) labeledImages
          then ret (w, None)
          else
            trained <-
              workerTrain now
                (flat_map (fun i => match snd i with Some e => [e] | None => [] end) labeledImages)
                (map (fun i : File * bool * option (list N) => if snd (fst i) then 1 else 0)
                     labeledImages)
                w ;;
            ret (fst trained, Some (snd trained))
    end.

End Fetcher.

End Orchestrator.

(** ** The embedding coordinator ([useEmbeddings])

    The effect starts one asynchronous run per change of [images] or
    [imageEmbedders].  JavaScript runs the pieces of the runs between two
    [await]s one at a time, in any order the provider's answers arrive
    in: an event below is one such piece, and a history is a list of
    events. *)

Module Coordinator.

Import Ranking.

(** [map.set(file, v)] *)
Fixpoint map_set {V} (file : File) (v : V) (m : FileMap V) : FileMap V :=
  match m with
  | [] => [(file, v)]
  | (file', v') :: m' =>
      if file =? file' then (file, v) :: m'
      else (file', v') :: map_set file v m'
  end.

(** [new Map(entries)] *)
Definition mapOfEntries {V} (entries : list (File * V)) : FileMap V :=
  fold_left (fun m e => map_set (fst e) (snd e) m) entries [].

Section Effect.

(** What [createEmbedding] resolves to. *)
Variable Emb : Type.

(** One run of the effect's async function. *)
Record Run : Type := {
  runImages : list File;
  hasEmbedder : bool;        (* [oneOf(imageEmbedders ?? [])] is not [undefined] *)
  aborted : bool;            (* [abortController.signal.aborted] *)
  next : nat;                (* [pMap]: the index of the next image to map *)
  inFlight : list nat;       (* the indices awaiting [createEmbedding] *)
  results : list (nat * option (File * Emb));  (* [pMap]'s [result[index]] *)
  rejected : bool;           (* [pMap] has rejected *)
  settled : bool             (* the async function has returned or thrown *)
}.

(** The state of the hook: the two [useState] cells and the runs started
    so far, oldest first. *)
Record State : Type := {
  imagesWithEmbeddings : FileMap Emb;
  finished : nat;
  runs : list Run
}.

Definition initial : State :=
  {| imagesWithEmbeddings := []; finished := 0; runs := [] |}.

Inductive Event : Type :=
| Restart (images : list File) (embedders : bool)
    (* the effect runs again, after the render that changed [images] or
       [imageEmbedders]: cleanup of the last run, then a new run *)
| StartItem (k : nat)
    (* [pMap] of run [k] calls the mapper on its next image *)
| Returns (k i : nat) (embedding : Emb)
    (* [createEmbedding] resolves for image [i] of run [k] *)
| Throws (k i : nat)
    (* [createEmbedding] rejects for image [i] of run [k] *)
| Publish (k : nat).
    (* [pMap] of run [k] has resolved: the code after [await pMap] *)

Definition concurrency : nat := 10.

Fixpoint replace {A} (k : nat) (x : A) (l : list A) : list A :=
  match l, k with
  | [], _ => []
  | _ :: l', O => x :: l'
  | y :: l', S k' => y :: replace k' x l'
  end.

Definition abort (r : Run) : Run :=
  {| runImages := runImages r; hasEmbedder := hasEmbedder r; aborted := true;
     next := next r; inFlight := inFlight r; results := results r;
     rejected := rejected r; settled := settled r |}.

(** The cleanup [() => abortController.abort()] of the latest run. *)
Fixpoint abortLast (rs : list Run) : list Run :=
  match rs with
  | [] => []
  | [r] => [abort r]
  | r :: rs' => r :: abortLast rs'
  end.

Definition newRun (images : list File) (embedders : bool) : Run :=
  {| runImages := images; hasEmbedder := embedders; aborted := false;
     next := 0; inFlight := []; results := []; rejected := false; settled := false |}.

Definition remove_index (i : nat) (l : list nat) : list nat :=
  filter (fun j => negb (j =? i)) l.

(** [compact(results)], in the order of the images. *)
Definition compactResults (r : Run) : list (File * Emb) :=
  flat_map
    (fun i => match obj_get i (results r) with
              | Some (Some entry) => [entry]
              | _ => []
              end)
    (seq 0 (length (runImages r))).

(** One event; [None] when the event cannot happen in the state. *)
Definition step (s : State) (ev : Event) : option State :=
  match ev with
  | Restart images embedders =>
      Some {| imagesWithEmbeddings := imagesWithEmbeddings s;
              finished := 0;
              runs := abortLast (runs s) ++ [newRun images embedders] |}
  | StartItem k =>
      match nth_error (runs s) k with
      | Some r =>
          match nth_error (runImages r) (next r) with
          | Some _ =>
              if rejected r || (concurrency <=? length (inFlight r)) then None
              else
                let i := next r in
                let r' :=
                  if aborted r || negb (hasEmbedder r)
                  then {| runImages := runImages r; hasEmbedder := hasEmbedder r;
                          aborted := aborted r; next := S i; inFlight := inFlight r;
                          results := (i, None) :: results r;
                          rejected := rejected r; settled := settled r |}
                  else {| runImages := runImages r; hasEmbedder := hasEmbedder r;
                          aborted := aborted r; next := S i; inFlight := i :: inFlight r;
                          results := results r;
                          rejected := rejected r; settled := settled r |} in
                Some {| imagesWithEmbeddings := imagesWithEmbeddings s;
                        finished := finished s;
                        runs := replace k r' (runs s) |}
          | None => None
          end
      | None => None
      end
  | Returns k i embedding =>
      match nth_error (runs s) k with
      | Some r =>
          match nth_error (runImages r) i with
          | Some file =>
              if negb (existsb (Nat.eqb i) (inFlight r)) then None
              else
                let r' :=
                  {| runImages := runImages r; hasEmbedder := hasEmbedder r;
                     aborted := aborted r; next := next r;
                     inFlight := remove_index i (inFlight r);
                     results := (i, if aborted r then None else Some (file, embedding))
                                  :: results r;
                     rejected := rejected r; settled := settled r |} in
                Some {| imagesWithEmbeddings := imagesWithEmbeddings s;
                        finished := if aborted r then finished s else S (finished s);
                        runs := replace k r' (runs s) |}
          | None => None
          end
      | None => None
      end
  | Throws k i =>
      match nth_error (runs s) k with
      | Some r =>
          if negb (existsb (Nat.eqb i) (inFlight r)) then None
          else
            let r' :=
              {| runImages := runImages r; hasEmbedder := hasEmbedder r;
                 aborted := aborted r; next := next r;
                 inFlight := remove_index i (inFlight r);
                 results := results r;
                 rejected := true; settled := true |} in
            Some {| imagesWithEmbeddings := imagesWithEmbeddings s;
                    finished := finished s;
                    runs := replace k r' (runs s) |}
      | None => None
      end
  | Publish k =>
      match nth_error (runs s) k with
      | Some r =>
          if settled r || rejected r
             || negb (next r =? length (runImages r))
             || negb (length (inFlight r) =? 0)
          then None
          else
            let r' :=
              {| runImages := runImages r; hasEmbedder := hasEmbedder r;
                 aborted := aborted r; next := next r; inFlight := inFlight r;
                 results := results r; rejected := rejected r; settled := true |} in
            Some {| imagesWithEmbeddings :=
                      if aborted r then imagesWithEmbeddings s
                      else mapOfEntries (compactResults r);
                    finished := finished s;
                    runs := replace k r' (runs s) |}
      | None => None
      end
  end.

(** A history from a state. *)
Fixpoint history (s : State) (evs : list Event) : option State :=
  match evs with
  | [] => Some s
  | ev :: evs' =>
      match step s ev with
      | Some s' => history s' evs'
      | None => None
      end
  end.

End Effect.

Arguments Restart {Emb} images embedders.
Arguments StartItem {Emb} k.
Arguments Returns {Emb} k i embedding.
Arguments Throws {Emb} k i.
Arguments Publish {Emb} k.
Arguments initial {Emb}.
Arguments newRun {Emb} images embedders.

End Coordinator.

(** ** The page: preferences, predictions, thumbnails (page-client.tsx) *)

Module Page.

Import Forest Ranking Coordinator.

(** [oneOf(arr)]: [arr[Math.floor(Math.random() * arr.length)]] *)
Definition oneOf {A} (arr : list A) : M (option A) :=
  i <- randomIndex (length arr) ;; ret (nth_error arr i).

(** [map.delete(file)] *)
Definition map_delete {V} (file : File) (m : FileMap V) : FileMap V :=
  filter (fun entry => negb (fst entry =? file)) m.

(** The recipe that [updateImagePreference] hands to [produce]: the same
    thumb again takes the label away, anything else sets it. *)
Definition updateImagePreference (file : File) (liked : bool) (prev : FileMap bool)
    : FileMap bool :=
  match map_get file prev with
  | Some existing =>
      if Bool.eqb existing liked then map_delete file prev
      else map_set file liked prev
  | None => map_set file liked prev
  end.

(** The two ways the page changes [imagePreference]: a thumb button of an
    image, and the button "Clear selection". *)
Inductive Click : Type :=
| Thumb (file : File) (liked : bool)
| ClearSelection.

Definition click (prev : FileMap bool) (c : Click) : FileMap bool :=
  match c with
  | Thumb file liked => updateImagePreference file liked prev
  | ClearSelection => []
  end.

(** [setSortingMethod((prev) => (prev === 'cosine' ? 'forest' : 'cosine'))] *)
Definition toggleSortingMethod (prev : SortingMethod) : SortingMethod :=
  match prev with
  | cosine => forest
  | forest => cosine
  end.

Section Predictions.

Context {N : Type} `{Number N}.

(** [compact(results)] on an array of objects and [undefined]s. *)
Definition compact {A} (results : list (option A)) : list A :=
  flat_map (fun r => match r with Some x => [x] | None => [] end) results.

(** The fetcher of [predictResult]: [forestWorker] is the data of
    [forestWorkerResult] ([undefined] or the object with the [version]),
    [w] the worker that [predictProba] reaches.  [Promise.all] rejects
    when a call does. *)
Definition predictFetch (forestWorker : option nat) (w : Worker N)
    (imagesWithEmbeddings : FileMap (Embedding N)) : Exc (option (FileMap N)) :=
  match forestWorker with
  | None => Some None
  | Some _ =>
      option_map
        (fun results => Some (mapOfEntries (compact results)))
        (mapExc
           (fun entry : File * Embedding N =>
              match floatEmbedding (snd entry) with
              | None => Some None
              | Some e =>
                  option_map (fun prediction => Some (fst entry, prediction))
                             (workerPredictProba w e 1)
              end)
           imagesWithEmbeddings)
  end.

(** [progress] of [useEmbeddings]: computed at every render from the
    [images] argument of that render and the counter [finished].  The
    effect that resets the counter for a new [images] runs after the
    render that brought it. *)
Definition progress (images : list File) (finished : nat) : option N :=
  if length images =? 0 then None
  else Some (div (of_nat finished) (of_nat (length images))).

End Predictions.

(** *** The thumbnail cache of [ThumbnailImage] *)

(** [cacheRef.current] and the calls of [createThumbnail] so far, oldest
    first; a promise is named by the number of the call that made it. *)
Record Thumbnails : Type := {
  cache : FileMap nat;
  created : list File
}.

(** The memo [imageUrlPromise] for one file: the cache afterwards and the
    promise, [undefined] while there is no resizer. *)
Definition imageUrlPromise (hasResizer : bool) (file : File) (t : Thumbnails)
    : Thumbnails * option nat :=
  if negb hasResizer then (t, None)
  else
    let t' :=
      match map_get file (cache t) with
      | Some _ => t
      | None => {| cache := map_set file (length (created t)) (cache t);
                   created := created t ++ [file] |}
      end in
    (t', map_get file (cache t')).

(** The promises of a sequence of renders, from a state of the cache. *)
Fixpoint renders (hasResizer : bool) (files : list File) (t : Thumbnails)
    : Thumbnails * list (option nat) :=
  match files with
  | [] => (t, [])
  | file :: files' =>
      let '(t1, p) := imageUrlPromise hasResizer file t in
      let '(t2, ps) := renders hasResizer files' t1 in
      (t2, p :: ps)
  end.

End Page.

(** *** Reading a directory (the click handler of "Read directory") *)

Module Directory.

Import String.
Import Ranking.

(** An entry of a directory handle: a file with its [type], or a
    directory with its entries in the order [values()] yields them. *)
#[local] Unset Elimination Schemes.
Inductive Entry : Type :=
| FileEntry (file : File) (type : string)
| DirectoryEntry (entries : list Entry).
#[local] Set Elimination Schemes.

Definition SUPPORTED_FILE_TYPES : list string :=
  ["image/png"; "image/jpeg"; "image/webp"]%string.

(** [array.includes(x)] on strings. *)
Definition includes (array : list string) (x : string) : bool :=
  existsb (String.eqb x) array.

(** The body of the loop of [processDirectory] for one entry; [files] is
    the array it pushes to. *)
Fixpoint processEntry (entry : Entry) (files : list File) : list File :=
  match entry with
  | FileEntry file type =>
      if includes SUPPORTED_FILE_TYPES type then files ++ [file] else files
  | DirectoryEntry entries =>
      fold_left (fun files entry => processEntry entry files) entries files
  end.

(** [processDirectory(dirHandle)] *)
Definition processDirectory (dirHandle : list Entry) (files : list File) : list File :=
  fold_left (fun files entry => processEntry entry files) dirHandle files.

(** The handler: [files = []], [await processDirectory(dirHandle)],
    [setImages(files)]. *)
Definition readDirectory (dirHandle : list Entry) : list File :=
  processDirectory dirHandle [].

End Directory.

(** ** The thumbnail worker (resizer.js) *)

Module Resizer.

Section Thumbnail.

Context {N : Type} `{Number N}.

(** The size [(newWidth, newHeight)] of the canvas of [createThumbnail]. *)
Definition thumbnailSize (width height maxSideLength : N) : N * N :=
  let aspectRatio := div width height in
  if ltb height width
  then (maxSideLength, div maxSideLength aspectRatio)
  else (mul maxSideLength aspectRatio, maxSideLength).

End Thumbnail.

End Resizer.

(** * The vocabulary of the specification

    The words the properties are stated in, and the auxiliary notions of
    their proofs. *)

Module Spec.

Import Forest Ranking Coordinator.

(** ** Exact numbers *)

Definition sumQ (l : list Q) : Q := fold_right Qplus 0%Q l.

Definition sumN (l : list nat) : nat := fold_right Nat.add 0 l.

(** [count(c) / n] *)
Definition ratio (c n : nat) : Q := (inject_Z (Z.of_nat c) / inject_Z (Z.of_nat n))%Q.

(** ** Gini impurity *)

(** The formula of the specification: 1 minus the sum, over the classes
    [c] of the labels, of [(count(c)/n)^2]. *)
Definition giniFormula (labels : list nat) : Q :=
  (1 - sumQ (map (fun c => ratio (count_occ Nat.eq_dec labels c) (length labels) ^ 2)
               (nodup Nat.eq_dec labels)))%Q.

(** [counts[k] || 0] *)
Definition getOr0 (k : nat) (o : Obj nat) : nat :=
  match obj_get k o with Some c => c | None => 0 end.

(** ** Best-split search *)

(** Every point of [data] has a value at every candidate feature. *)
Definition hasFeatures (featureIndices : list nat) (data : list (DataPoint Q)) : Prop :=
  Forall (fun d => Forall (fun j => j < length (features d)) featureIndices) data.

(** [v] is the value of some point of [data] at feature [j]. *)
Definition observed (data : list (DataPoint Q)) (j : nat) (v : Q) : Prop :=
  exists d, In d data /\ featureAt j d = Some v.

(** [a < b] are two observed values of feature [j] with none between:
    neighbours among the sorted distinct values. *)
Definition adjacentValues (data : list (DataPoint Q)) (j : nat) (a b : Q) : Prop :=
  observed data j a /\ observed data j b /\ (a < b)%Q
  /\ forall v, observed data j v -> ~ (a < v /\ v < b)%Q.

(** The points with a value [<= t], and those with a value [> t]. *)
Definition leftAt (data : list (DataPoint Q)) (j : nat) (t : Q) : list (DataPoint Q) :=
  filter (fun d => js_le (featureAt j d) (Some t)) data.

Definition rightAt (data : list (DataPoint Q)) (j : nat) (t : Q) : list (DataPoint Q) :=
  filter (fun d => js_gt (featureAt j d) (Some t)) data.

(** [(|l|/|data|) Gini(l) + (|r|/|data|) Gini(r)], with the Gini formula. *)
Definition weightedImpurity (data l r : list (DataPoint Q)) : Q :=
  (ratio (length l) (length data) * giniFormula (map (@label Q) l)
   + ratio (length r) (length data) * giniFormula (map (@label Q) r))%Q.

(** Every candidate of the two loops, in the order the loops visit them. *)
Definition candidates {N} `{Number N} (data : list (DataPoint N)) (featureIndices : list nat)
    : list (Best N) :=
  flat_map (fun j => map (splitAt data j) (adjacent (uniqueValuesOf data j))) featureIndices.

(** [unique] on numbers only, from the values seen so far. *)
Definition uniqQ (l acc : list Q) : list Q :=
  fold_left (fun seen v => if existsb (Qeq_bool v) seen then seen else seen ++ [v]) l acc.

Definition valuesOf (data : list (DataPoint Q)) (j : nat) : list Q :=
  map (fun d => nth j (features d) 0%Q) data.

Definition distinctValues (data : list (DataPoint Q)) (j : nat) : list Q :=
  uniqQ (sortNumbers (valuesOf data j)) [].

(** ** Trees *)


(** All the points have [D] features. *)
Definition uniform (D : nat) (data : list (DataPoint Q)) : Prop :=
  Forall (fun d => length (features d) = D) data.

(** The forest the worker builds from an empty training set: a hundred
    leaves with an empty distribution. *)
Definition emptyForest : list (TreeNode Q) := repeat (Leaf []) 100.

(** ** Similarity *)

Section Similarity.

Context {N : Type} `{Number N} `{Sqrt N}.

(** [dot(a, b)], [||a||] and [cosineSim(a, b) = dot(a, b) / (||a|| * ||b||)]. *)
Definition dot (a b : list N) : N :=
  fold_left (fun acc xy => add acc (mul (fst xy) (snd xy))) (combine a b) (of_nat 0).

Definition norm (a : list N) : N := sqrt (dot a a).

Definition cosineSim (a b : list N) : N := div (dot a b) (mul (norm a) (norm b)).

(** The sum of a list of numbers, from 0. *)
Definition sumOf (l : list N) : N := fold_left add l (of_nat 0).

(** The embeddings of the images labelled [liked] that have an embedding. *)
Definition labelledSetWithEmbedding (liked : bool) (imagePreference : FileMap bool)
    (imagesWithEmbeddings : FileMap (Embedding N)) : list (list N) :=
  flat_map
    (fun entry =>
       if Bool.eqb (snd entry) liked
       then match floatEmbeddingOf imagesWithEmbeddings (fst entry) with
            | Some e => [e]
            | None => []
            end
       else [])
    imagePreference.

(** The score of the specification: [undefined] without an embedding,
    otherwise the similarities to the liked set minus those to the
    disliked set. *)
Definition similarity (imagePreference : FileMap bool)
    (imagesWithEmbeddings : FileMap (Embedding N)) (file : File) : option N :=
  match floatEmbeddingOf imagesWithEmbeddings file with
  | None => None
  | Some e =>
      Some (sub (sumOf (map (cosineSim e)
                          (labelledSetWithEmbedding true imagePreference imagesWithEmbeddings)))
                (sumOf (map (cosineSim e)
                          (labelledSetWithEmbedding false imagePreference imagesWithEmbeddings))))
  end.

(** Every embedding of the map has [D] coordinates. *)
Definition dimension (D : nat) (imagesWithEmbeddings : FileMap (Embedding N)) : Prop :=
  Forall (fun entry => forall e, floatEmbedding (snd entry) = Some e -> length e = D)
         imagesWithEmbeddings.

End Similarity.

(** ** The final order *)

(** [x] is smaller than [y] for a comparer, and the comparer tells the
    two apart. *)
Definition smaller {A} (cmp : A -> A -> Z) (x y : A) : Prop := (cmp x y < 0)%Z.

Definition comparable {A} (cmp : A -> A -> Z) (x y : A) : Prop :=
  smaller cmp x y \/ smaller cmp y x.

(** The first two criteria as one number: disliked 0, unlabelled 1, liked 3. *)
Definition rankOf (c : bool * bool * option Q) : Z :=
  (2 * Z.b2z (fst (fst c)) + Z.b2z (snd (fst c)))%Z.

(** The order of [compareAscending] on a score: numbers by [<], then
    [undefined]. *)
Definition scoreLt (s s' : option Q) : Prop :=
  match s, s' with
  | Some x, Some y => (x < y)%Q
  | Some _, None => True
  | None, _ => False
  end.

Definition scoreEq (s s' : option Q) : Prop :=
  match s, s' with
  | Some x, Some y => (x == y)%Q
  | None, None => True
  | _, _ => False
  end.

(** [a] sorts before [b]. *)
Definition keyLt {A} (a b : Keyed Q A) : Prop :=
  (rankOf (criteria a) < rankOf (criteria b))%Z
  \/ (rankOf (criteria a) = rankOf (criteria b)
      /\ (scoreLt (snd (criteria a)) (snd (criteria b))
          \/ (scoreEq (snd (criteria a)) (snd (criteria b)) /\ index a < index b))).

(** The pairs that [sortBy] sorts in [imagesSorted], and the sorted pairs. *)
Definition keysOf {N} (imagePreference : FileMap bool) (rankings : list (Ranked N))
    : list (Keyed N (Ranked N)) :=
  keyed (rankingCriteria imagePreference) 0 (rev rankings).

Definition sortedKeysOf {N} `{Number N} (imagePreference : FileMap bool)
    (rankings : list (Ranked N)) : list (Keyed N (Ranked N)) :=
  sortWith compareMultiple (keysOf imagePreference rankings).

(** The label of an image: liked, disliked or not labelled. *)
Inductive LabelStatus : Type := Disliked | Unlabelled | Liked.

Definition labelStatus {N} (imagePreference : FileMap bool) (i : Ranked N) : LabelStatus :=
  match map_get (file i) imagePreference with
  | Some true => Liked
  | Some false => Disliked
  | None => Unlabelled
  end.

(** Liked above unlabelled above disliked. *)
Definition statusRank (s : LabelStatus) : nat :=
  match s with
  | Disliked => 0
  | Unlabelled => 1
  | Liked => 2
  end.

(** [x] may stand before [y] in the final order: the label of [x] is not
    below that of [y], and with the same label and two scores the score
    of [x] is not below that of [y]. *)
Definition rankedBefore (imagePreference : FileMap bool) (x y : Ranked Q) : Prop :=
  statusRank (labelStatus imagePreference y) <= statusRank (labelStatus imagePreference x)
  /\ (labelStatus imagePreference x = labelStatus imagePreference y ->
      forall sx sy, scoreFinal x = Some sx -> scoreFinal y = Some sy -> (sy <= sx)%Q).

(** With the same label, no image with a score stands before one without. *)
Definition unscoredFirst {N} (imagePreference : FileMap bool) (x y : Ranked N) : Prop :=
  labelStatus imagePreference x = labelStatus imagePreference y ->
  scoreFinal y = None -> scoreFinal x = None.

(** The images of label [s] that have no score. *)
Definition unscoredWith {N} (imagePreference : FileMap bool) (s : LabelStatus)
    (i : Ranked N) : bool :=
  match scoreFinal i with
  | Some _ => false
  | None => statusRank (labelStatus imagePreference i) =? statusRank s
  end.

(** [value === value] on a score: a number or [undefined], not [NaN]. *)
Definition isReflexive {N} `{Number N} (s : option N) : bool :=
  match s with
  | Some x => eqb x x
  | None => true
  end.

(** No score is [NaN]. *)
Definition withoutNaN {N} `{Number N} (rankings : list (Ranked N)) : Prop :=
  Forall (fun i => isReflexive (scoreFinal i) = true) rankings.

(** The first two criteria and whether there is a score, as one number:
    what the ascending sort of [sortBy] orders coarsely by. *)
Definition groupOf {N} (c : bool * bool * option N) : Z :=
  (2 * (2 * Z.b2z (fst (fst c)) + Z.b2z (snd (fst c)))
   + match snd c with Some _ => 0 | None => 1 end)%Z.

(** What a score is: [undefined], [NaN] or a number. *)
Inductive ScoreKind : Type := UndefinedScore | NaNScore | NumberScore.

Definition scoreKind {N} `{Number N} (s : option N) : ScoreKind :=
  match s with
  | None => UndefinedScore
  | Some x => if eqb x x then NumberScore else NaNScore
  end.

(** ** The coordinator *)

Definition isRestart {Emb} (ev : Event Emb) : bool :=
  match ev with
  | Restart _ _ => true
  | _ => false
  end.

(** The run an event belongs to. *)
Definition runOf {Emb} (ev : Event Emb) : option nat :=
  match ev with
  | Restart _ _ => None
  | StartItem k | Returns k _ _ | Throws k _ | Publish k => Some k
  end.

Definition noRestart {Emb} (evs : list (Event Emb)) : bool :=
  forallb (fun ev => negb (isRestart ev)) evs.

(** Every run but the newest has been aborted. *)
Definition olderAborted {Emb} (s : State Emb) : Prop :=
  forall k r, nth_error (runs s) k = Some r -> S k < length (runs s) -> aborted r = true.

(** The results of a run are embeddings of its own images. *)
Definition resultsOwned {Emb} (s : State Emb) : Prop :=
  forall k r i x, nth_error (runs s) k = Some r -> In (i, Some x) (results r) ->
    In (fst x) (runImages r).

Definition Inv {Emb} (s : State Emb) : Prop := olderAborted s /\ resultsOwned s.

(** ** Sample inputs *)

Definition dp (fs : list Q) (l : nat) : DataPoint Q := {| features := fs; label := l |}.

(** Four points with two features, and the split the search returns. *)
Definition fourPoints : list (DataPoint Q) :=
  [dp [1; 2]%Q 0; dp [3; 1]%Q 1; dp [5; 2]%Q 1; dp [2; 2]%Q 0].

Definition fourPointsSplit : Split Q :=
  {| featureIndex := 0; threshold := Some (5 # 2)%Q;
     left := [dp [1; 2]%Q 0; dp [2; 2]%Q 0];
     right := [dp [3; 1]%Q 1; dp [5; 2]%Q 1] |}.

(** Two points that agree on both features. *)
Definition twoEqualPoints : list (DataPoint Q) := [dp [1; 2]%Q 0; dp [1; 2]%Q 1].

(** Two points whose only feature holds the two doubles after 1. *)
Definition afterOne : PrimFloat.float := PrimFloat.next_up PrimFloat.one.

Definition adjacentDoubles : list (DataPoint PrimFloat.float) :=
  [{| features := [afterOne]; label := 0 |};
   {| features := [PrimFloat.next_up afterOne]; label := 1 |}].

Definition ranked (f : File) (s : option Q) : Ranked Q :=
  {| file := f; rankedScore := s; scoreRf := None; scoreFinal := s |}.

Definition Efloat (x y : PrimFloat.float) : Embedding PrimFloat.float :=
  {| floatEmbedding := Some [x; y] |}.

(** Images 0 and 1 are liked, 2 is disliked, 3 has no label and 4 no
    embedding. *)
Definition fiveImages : FileMap (Embedding PrimFloat.float) :=
  [(0, Efloat PrimFloat.one PrimFloat.zero);
   (1, Efloat PrimFloat.one PrimFloat.one);
   (2, Efloat PrimFloat.zero PrimFloat.one);
   (3, Efloat PrimFloat.one PrimFloat.two)].

Definition fivePreferences : FileMap bool := [(0, true); (2, false); (1, true)].

Definition oneEmbedding : FileMap (Embedding Q) := [(0, {| floatEmbedding := Some [1%Q] |})].


(** ** Numbers, rounding and the order of keys *)

(** [x] is a number: not [undefined] and not [NaN] ([x === x]). *)
Definition isNumber {N} `{Number N} (x : option N) : bool :=
  match x with
  | Some v => eqb v v
  | None => false
  end.

(** The two tests [x <= t] and [x > t] of a split, on numbers: one of
    them holds, and only one. *)
Class Ordered (N : Type) `{Number N} : Prop :=
  le_or_gt : forall x t : N, eqb x x = true -> eqb t t = true -> leb x t = negb (ltb t x).

Arguments Ordered N {_}.

(** Every point has a number at feature [j]. *)
Definition numericAt {N} `{Number N} (j : nat) (data : list (DataPoint N)) : Prop :=
  Forall (fun d => isNumber (featureAt j d) = true) data.


(** The split that the search returns for the two doubles after 1. *)
Definition adjacentDoublesSplit : Split PrimFloat.float :=
  {| featureIndex := 0; threshold := Some (PrimFloat.next_up afterOne);
     left := adjacentDoubles; right := [] |}.


(** The label is an array index: as a property name it is enumerated in
    ascending numeric order. *)
Definition arrayIndex (k : nat) : Prop := (Z.of_nat k < 2 ^ 32 - 1)%Z.

Definition indexLabels {N} (data : list (DataPoint N)) : Prop :=
  Forall (fun d => arrayIndex (label d)) data.

(** Image 0 is liked, image 1 has an embedding of norm 0, image 2 has no
    embedding, and image 3 an embedding like any other. *)
Definition zeroNormImages : FileMap (Embedding PrimFloat.float) :=
  [(0, Efloat PrimFloat.one PrimFloat.zero);
   (1, Efloat PrimFloat.zero PrimFloat.zero);
   (3, Efloat PrimFloat.one PrimFloat.one)].

(** ** The engine, the page and the workers *)

Import Orchestrator Page Directory Resizer.

(** ** The shape of a tree *)

(** The number of inner nodes on the longest path from the root. *)
Fixpoint depth {N} (t : TreeNode N) : nat :=
  match t with
  | Leaf _ => 0
  | Internal _ _ l r => S (Nat.max (depth l) (depth r))
  end.

(** Every class of every leaf is one of [labels]. *)
Fixpoint leafKeysIn {N} (labels : list nat) (t : TreeNode N) : Prop :=
  match t with
  | Leaf distribution => incl (obj_keys distribution) labels
  | Internal _ _ l r => leafKeysIn labels l /\ leafKeysIn labels r
  end.

(** ** Trees grown from data, in exact arithmetic *)

(** A tree that the recursion can grow from [data]: a leaf with the
    distribution of the labels of [data], or a test of a feature that
    all the points have, over trees grown from the two parts. *)
Inductive grownFrom : list (DataPoint Q) -> TreeNode Q -> Prop :=
| grownLeaf (data : list (DataPoint Q)) :
    data <> [] -> grownFrom data (Leaf (distributionOf data))
| grownInternal (data : list (DataPoint Q)) (j : nat) (t : Q) (l r : TreeNode Q) :
    Forall (fun d => j < length (features d)) data ->
    grownFrom (leftAt data j t) l ->
    grownFrom (rightAt data j t) r ->
    grownFrom data (Internal j (Some t) l r).

(** The share of class [k] among the labels of [part]. *)
Definition share (part : list (DataPoint Q)) (k : nat) : Q :=
  ratio (count_occ Nat.eq_dec (map (@label Q) part) k) (length part).

(** [o[k] || 0] read as an exact number. *)
Definition getQ (k : nat) (o : Obj Q) : Q :=
  match obj_get k o with Some p => p | None => 0%Q end.

(** One turn of the inner loop of the forest's [predictProbaAll], for the
    answer [p] of one of [T] trees:
    [avgProba[key] = (avgProba[key] || 0) + p[key] / trees.length]. *)
Definition innerStep (p : Obj Q) (T : nat) (avgProba : Obj Q) (key : nat) : Obj Q :=
  obj_set key
    (add (orZero (obj_get key avgProba))
         (div (match obj_get key p with Some x => x | None => of_nat 0 end) (of_nat T)))
    avgProba.

(** ** Groups of the final order *)

(** The images of label [s] whose score is [q]. *)
Definition scoredWith (imagePreference : FileMap bool) (s : LabelStatus) (q : Q)
    (i : Ranked Q) : bool :=
  match scoreFinal i with
  | Some x => Qeq_bool x q && (statusRank (labelStatus imagePreference i) =? statusRank s)
  | None => false
  end.

(** The label of a file. *)
Definition statusOf (imagePreference : FileMap bool) (file : File) : LabelStatus :=
  match map_get file imagePreference with
  | Some true => Liked
  | Some false => Disliked
  | None => Unlabelled
  end.

(** The files of label [s], in the order of [images]. *)
Definition withStatus (imagePreference : FileMap bool) (s : LabelStatus)
    (images : list File) : list File :=
  filter (fun file => statusRank (statusOf imagePreference file) =? statusRank s) images.

(** The file has an embedding. *)
Definition hasEmbedding {N} (imagesWithEmbeddings : FileMap (Embedding N)) (file : File)
    : bool :=
  match floatEmbeddingOf imagesWithEmbeddings file with
  | Some _ => true
  | None => false
  end.

(** ** Preferences *)

(** What a thumb does to the label of its image: the same thumb again
    takes the label away, the other thumb replaces it. *)
Definition toggle (label : option bool) (liked : bool) : option bool :=
  match label with
  | Some existing => if Bool.eqb existing liked then None else Some liked
  | None => Some liked
  end.

(** What a click does to the label of [file]. *)
Definition labelAfter (file : File) (label : option bool) (c : Click) : option bool :=
  match c with
  | Thumb file' liked => if file =? file' then toggle label liked else label
  | ClearSelection => None
  end.

(** ** Training data and predictions of the page *)

(** The data point that the page makes of a labelled image. *)
Definition pointOf {N} (imagesWithEmbeddings : FileMap (Embedding N))
    (entry : File * bool) (d : DataPoint N) : Prop :=
  floatEmbeddingOf imagesWithEmbeddings (fst entry) = Some (features d)
  /\ label d = (if snd entry then 1 else 0).

(** The forest's probability of class 1 for the embedding of a file. *)
Definition forestScore {N} `{Number N} (trees : list (TreeNode N))
    (imagesWithEmbeddings : FileMap (Embedding N)) (file : File) : option N :=
  option_map (fun e => forestPredictProba trees e 1)
             (floatEmbeddingOf imagesWithEmbeddings file).

(** ** Directories and thumbnails *)

(** The files under an entry with their types, in the order of a
    depth-first traversal. *)
Fixpoint filesUnder (entry : Entry) : list (File * String.string) :=
  match entry with
  | FileEntry file type => [(file, type)]
  | DirectoryEntry entries => flat_map filesUnder entries
  end.

(** The type of the file is one of the supported ones. *)
Definition supported (ft : File * String.string) : bool :=
  includes SUPPORTED_FILE_TYPES (snd ft).

(** The state of the thumbnail cache is sound: it keeps, for each file
    that [createThumbnail] was called for, the promise of this call. *)
Definition cacheSound (t : Thumbnails) : Prop :=
  NoDup (created t)
  /\ (forall file, In file (map_keys (cache t)) <-> In file (created t))
  /\ forall file p, map_get file (cache t) = Some p -> nth_error (created t) p = Some file.

Module Samples.

Import String.

(** A directory with a picture, a text file and a directory with two pictures. *)
Definition sampleDirectory : list Entry :=
  [FileEntry 1 "image/png"; FileEntry 2 "text/plain";
   DirectoryEntry [FileEntry 3 "image/webp"; DirectoryEntry []; FileEntry 4 "image/jpeg"]]%string.

End Samples.

(** ** The counters of the coordinator *)

(** The newest of the runs. *)
Definition newestOf {Emb} (rs : list (Run Emb)) : option (Run Emb) :=
  nth_error rs (pred (length rs)).

Definition newestRun {Emb} (s : State Emb) : option (Run Emb) := newestOf (runs s).

(** The counters of the newest run agree with the progress counter
    [finished]: the images are mapped in order, each at most once, and
    an image of a run that has an embedder and was not rejected is
    either awaited or has its result. *)
Definition runCounted {Emb} (finished : nat) (r : Run Emb) : Prop :=
  aborted r = false
  /\ next r <= length (runImages r)
  /\ finished + length (inFlight r) <= next r
  /\ NoDup (inFlight r)
  /\ (forall i, In i (inFlight r) -> i < next r)
  /\ (hasEmbedder r = false ->
        inFlight r = [] /\ finished = 0
        /\ forall i x, In (i, x) (results r) -> x = None)
  /\ (hasEmbedder r = true -> rejected r = false ->
        finished + length (inFlight r) = next r
        /\ forall i, i < next r ->
             In i (inFlight r)
             \/ exists file e, nth_error (runImages r) i = Some file
                               /\ obj_get i (results r) = Some (Some (file, e))).

Definition counted {Emb} (s : State Emb) : Prop :=
  forall r, newestRun s = Some r -> runCounted (finished s) r.

(** Two images embedded by one run. *)
Definition twoEmbedded : list (Event nat) :=
  [Restart [1; 2] true; StartItem 0; StartItem 0; Returns 0 1 22; Returns 0 0 11].

(** A run started before the embedders are there. *)
Definition noEmbedder : list (Event nat) :=
  [Restart [1; 2] false; StartItem 0; StartItem 0].

End Spec.

(** * Proofs *)

(** ** Comparisons of exact numbers *)

Module NumberFacts.

Lemma Qltb_lt (x y : Q) : Qltb x y = true <-> (x < y)%Q.
Proof.
  unfold Qltb. rewrite negb_true_iff. split.
  - intros E. apply Qnot_le_lt. intros Hle. apply Qle_bool_iff in Hle. congruence.
  - intros Hlt. destruct (Qle_bool y x) eqn:E; auto.
    apply Qle_bool_iff in E. lra.
Qed.

Lemma Qltb_ge (x y : Q) : Qltb x y = false <-> (y <= x)%Q.
Proof.
  unfold Qltb. rewrite negb_false_iff. apply Qle_bool_iff.
Qed.

End NumberFacts.

(** ** The forest engine *)

Module ForestFacts.

Import NumberFacts Spec Forest.

(** *** Objects and label counts *)

Lemma obj_get_set_eq {V} (k : nat) (v : V) (o : Obj V) :
  obj_get k (obj_set k v o) = Some v.
Proof.
  induction o as [|[k' v'] o IH]; simpl.
  - now rewrite Nat.eqb_refl.
  - destruct (k <? k') eqn:Hlt; simpl.
    + now rewrite Nat.eqb_refl.
    + destruct (k =? k') eqn:Heq; simpl.
      * now rewrite Nat.eqb_refl.
      * now rewrite Heq.
Qed.

Lemma obj_get_set_neq {V} (k k0 : nat) (v : V) (o : Obj V) :
  k0 <> k -> obj_get k0 (obj_set k v o) = obj_get k0 o.
Proof.
  intros Hne. induction o as [|[k' v'] o IH]; simpl.
  - apply Nat.eqb_neq in Hne. now rewrite Hne.
  - destruct (k <? k') eqn:Hlt; simpl.
    + apply Nat.eqb_neq in Hne. now rewrite Hne.
    + destruct (k =? k') eqn:Heq; simpl.
      * apply Nat.eqb_eq in Heq. subst k'.
        apply Nat.eqb_neq in Hne. now rewrite Hne.
      * now rewrite IH.
Qed.

Lemma obj_get_in_keys {V} (k : nat) (o : Obj V) :
  In k (obj_keys o) <-> obj_get k o <> None.
Proof.
  induction o as [|[k' v'] o IH]; simpl.
  - split; [tauto | congruence].
  - destruct (k =? k') eqn:Heq.
    + apply Nat.eqb_eq in Heq. split; [discriminate | auto].
    + apply Nat.eqb_neq in Heq. rewrite <- IH. split; [intros [?|?]; congruence || assumption | auto].
Qed.

Lemma obj_set_keys_in {V} (k k0 : nat) (v : V) (o : Obj V) :
  In k0 (obj_keys (obj_set k v o)) <-> k0 = k \/ In k0 (obj_keys o).
Proof.
  rewrite !obj_get_in_keys. destruct (Nat.eq_dec k0 k) as [->|Hne].
  - rewrite obj_get_set_eq. split; [auto | discriminate].
  - rewrite obj_get_set_neq by assumption. tauto.
Qed.

Lemma obj_set_sorted {V} (k : nat) (v : V) (o : Obj V) :
  Sorted lt (obj_keys o) -> Sorted lt (obj_keys (obj_set k v o)).
Proof.
  unfold obj_keys. induction o as [|[k' v'] o IH]; simpl; intros Hs.
  - repeat constructor.
  - inversion Hs as [|? ? Hs' Hhd]; subst.
    destruct (k <? k') eqn:Hlt; simpl.
    + apply Nat.ltb_lt in Hlt. constructor; [assumption | now constructor].
    + destruct (k =? k') eqn:Heq; simpl.
      * apply Nat.eqb_eq in Heq. subst. now constructor.
      * apply Nat.ltb_ge in Hlt. apply Nat.eqb_neq in Heq.
        constructor; [auto|].
        destruct o as [|[k2 v2] o]; simpl in *.
        -- constructor. lia.
        -- destruct (k <? k2) eqn:H2; simpl; [constructor; lia|].
           destruct (k =? k2); simpl; constructor; inversion Hhd; subst; lia.
Qed.

Lemma sorted_lt_NoDup (l : list nat) : Sorted lt l -> NoDup l.
Proof.
  intros Hs. apply Sorted_StronglySorted in Hs; [|intros x y z; lia].
  induction Hs as [|a l Hs IH Hall]; constructor; auto.
  intros Hin. rewrite Forall_forall in Hall. specialize (Hall _ Hin). lia.
Qed.

Lemma getOr0_incr (k label : nat) (o : Obj nat) :
  getOr0 k (incr o label) = getOr0 k o + (if Nat.eq_dec k label then 1 else 0).
Proof.
  unfold incr, getOr0. destruct (Nat.eq_dec k label) as [->|Hne].
  - now rewrite obj_get_set_eq.
  - rewrite obj_get_set_neq by assumption. lia.
Qed.

Lemma getOr0_fold (k : nat) (labels : list nat) (o : Obj nat) :
  getOr0 k (fold_left incr labels o) = getOr0 k o + count_occ Nat.eq_dec labels k.
Proof.
  revert o. induction labels as [|l labels IH]; intros o; simpl.
  - lia.
  - rewrite IH, getOr0_incr. destruct (Nat.eq_dec k l), (Nat.eq_dec l k); subst; try congruence; lia.
Qed.

Lemma fold_incr_sorted (labels : list nat) (o : Obj nat) :
  Sorted lt (obj_keys o) -> Sorted lt (obj_keys (fold_left incr labels o)).
Proof.
  revert o. induction labels as [|l labels IH]; intros o Hs; simpl; auto.
  apply IH. now apply obj_set_sorted.
Qed.

Lemma fold_incr_keys (k : nat) (labels : list nat) (o : Obj nat) :
  In k (obj_keys (fold_left incr labels o)) <-> In k labels \/ In k (obj_keys o).
Proof.
  revert o. induction labels as [|l labels IH]; intros o; simpl.
  - tauto.
  - rewrite IH. unfold incr. rewrite obj_set_keys_in. intuition auto.
Qed.

Lemma countLabels_keys_NoDup (labels : list nat) : NoDup (obj_keys (countLabels labels)).
Proof. apply sorted_lt_NoDup, fold_incr_sorted. constructor. Qed.

Lemma countLabels_keys_in (k : nat) (labels : list nat) :
  In k (obj_keys (countLabels labels)) <-> In k labels.
Proof. unfold countLabels. rewrite fold_incr_keys. simpl. tauto. Qed.

Lemma countLabels_get (k : nat) (labels : list nat) :
  getOr0 k (countLabels labels) = count_occ Nat.eq_dec labels k.
Proof. unfold countLabels. now rewrite getOr0_fold. Qed.

Lemma values_by_keys {V} (d : V) (o : Obj V) :
  NoDup (obj_keys o) ->
  obj_values o = map (fun k => match obj_get k o with Some v => v | None => d end) (obj_keys o).
Proof.
  unfold obj_values, obj_keys. induction o as [|[k v] o IH]; simpl; intros Hnd; auto.
  inversion Hnd as [|? ? Hnot Hnd']; subst.
  rewrite Nat.eqb_refl. f_equal. rewrite IH by assumption.
  apply map_ext_in. intros k0 Hin.
  destruct (k0 =? k) eqn:Heq; auto.
  apply Nat.eqb_eq in Heq. subst. contradiction.
Qed.

Lemma countLabels_values (labels : list nat) :
  obj_values (countLabels labels)
  = map (fun k => count_occ Nat.eq_dec labels k) (obj_keys (countLabels labels)).
Proof.
  rewrite (values_by_keys 0) by apply countLabels_keys_NoDup.
  apply map_ext. intros k. apply countLabels_get.
Qed.

Lemma countLabels_keys_perm (labels : list nat) :
  Permutation (obj_keys (countLabels labels)) (nodup Nat.eq_dec labels).
Proof.
  apply NoDup_Permutation.
  - apply countLabels_keys_NoDup.
  - apply NoDup_nodup.
  - intros k. rewrite countLabels_keys_in, nodup_In. tauto.
Qed.

(** *** Gini impurity *)

Lemma fold_left_sumQ {A} (f : A -> Q) (l : list A) (a : Q) :
  (fold_left (fun s x => s + f x) l a == a + sumQ (map f l))%Q.
Proof.
  revert a. induction l as [|x l IH]; intros a; simpl.
  - lra.
  - rewrite IH. lra.
Qed.

Lemma sumQ_perm (l l' : list Q) : Permutation l l' -> (sumQ l == sumQ l')%Q.
Proof.
  induction 1; simpl; lra.
Qed.

Lemma sumQ_app (l l' : list Q) : (sumQ (l ++ l') == sumQ l + sumQ l')%Q.
Proof. induction l; simpl; lra. Qed.

Lemma sq_mul (r : Q) : (r ^ 2 == r * r)%Q.
Proof. reflexivity. Qed.

Lemma giniImpurity_sum (labels : list nat) :
  (giniImpurity (N:=Q) labels
   == 1 - sumQ (map (fun c => ratio c (length labels) ^ 2) (obj_values (countLabels labels))))%Q.
Proof.
  unfold giniImpurity. cbn [sub add mul div of_nat Q_Number].
  rewrite (fold_left_sumQ (fun count => ratio count (length labels) * ratio count (length labels))%Q).
  assert (E : forall l, (sumQ (map (fun count => ratio count (length labels) * ratio count (length labels)) l)
       == sumQ (map (fun c => ratio c (length labels) ^ 2) l))%Q).
  { induction l as [|c l IH]; [reflexivity|].
    cbn [map sumQ fold_right]. fold (sumQ (map (fun count => ratio count (length labels) * ratio count (length labels))%Q l)).
    fold (sumQ (map (fun c => ratio c (length labels) ^ 2)%Q l)).
    rewrite IH. apply Qplus_comp; [|reflexivity]. symmetry. apply sq_mul. }
  rewrite E. change (inject_Z (Z.of_nat 1)) with 1%Q.
  change (inject_Z (Z.of_nat 0)) with 0%Q. lra.
Qed.

Lemma giniImpurity_giniFormula (labels : list nat) :
  (giniImpurity (N:=Q) labels == giniFormula labels)%Q.
Proof.
  rewrite giniImpurity_sum. unfold giniFormula.
  rewrite countLabels_values, map_map.
  rewrite (sumQ_perm (Permutation_map _ (countLabels_keys_perm labels))).
  reflexivity.
Qed.

Lemma ratio_self (n : nat) : n <> 0 -> (ratio n n == 1)%Q.
Proof.
  intros Hn. unfold ratio. field.
  intros E. apply Hn. unfold Qeq in E. simpl in E. lia.
Qed.

Lemma ratio_half (k : nat) : k <> 0 -> (ratio k (k + k) == 1 # 2)%Q.
Proof.
  intros Hk. unfold ratio. rewrite Nat2Z.inj_add, inject_Z_plus. field.
  intros E. apply Hk. unfold Qeq in E. simpl in E. lia.
Qed.

Lemma count_occ_all (c : nat) (labels : list nat) :
  Forall (eq c) labels -> count_occ Nat.eq_dec labels c = length labels.
Proof.
  induction 1 as [|x l Hx _ IH]; simpl; auto.
  destruct (Nat.eq_dec x c); [lia | congruence].
Qed.

Lemma count_occ_two (a b : nat) (labels : list nat) :
  a <> b -> Forall (fun l => l = a \/ l = b) labels ->
  count_occ Nat.eq_dec labels a + count_occ Nat.eq_dec labels b = length labels.
Proof.
  intros Hab. induction 1 as [|x l Hx _ IH]; simpl; auto.
  destruct (Nat.eq_dec x a), (Nat.eq_dec x b); subst; try congruence; try lia;
    destruct Hx; congruence.
Qed.

(** C8. The Gini impurity of a non-empty list of labels of size n is
    1 minus the sum, over the classes c, of (count(c)/n)^2; it is 0 when
    all the labels are of one class, and 1/2 when two classes share the
    labels evenly. *)
Theorem giniImpurity_formula (labels : list nat) (Hne : labels <> []) :
  (giniImpurity (N:=Q) labels == giniFormula labels)%Q
  /\ (forall c, Forall (eq c) labels -> (giniImpurity (N:=Q) labels == 0)%Q)
  /\ (forall a b, a <> b -> Forall (fun l => l = a \/ l = b) labels ->
        count_occ Nat.eq_dec labels a = count_occ Nat.eq_dec labels b ->
        (giniImpurity (N:=Q) labels == 1 # 2)%Q).
Proof.
  assert (Hlen : length labels <> 0) by (destruct labels; [congruence | simpl; lia]).
  split; [apply giniImpurity_giniFormula|]. split.
  - intros c Hall. rewrite giniImpurity_giniFormula. unfold giniFormula.
    assert (Hp : Permutation (nodup Nat.eq_dec labels) [c]).
    { apply NoDup_Permutation; [apply NoDup_nodup | repeat constructor; simpl; tauto |].
      intros x. rewrite nodup_In. simpl. rewrite Forall_forall in Hall. split.
      - intros Hin. left. now apply Hall.
      - intros [<-|[]]. destruct labels as [|y l]; [congruence|].
        rewrite (Hall y) by (now left). now left. }
    rewrite (sumQ_perm (Permutation_map _ Hp)). simpl.
    rewrite (count_occ_all Hall), ratio_self by assumption. lra.
  - intros a b Hab Hall Hcnt. rewrite giniImpurity_giniFormula. unfold giniFormula.
    pose proof (count_occ_two Hab Hall) as Hsum.
    assert (Hk : count_occ Nat.eq_dec labels a <> 0) by lia.
    assert (Hp : Permutation (nodup Nat.eq_dec labels) [a; b]).
    { apply NoDup_Permutation; [apply NoDup_nodup | |].
      - repeat constructor; simpl; intuition congruence.
      - intros x. rewrite nodup_In. simpl. rewrite Forall_forall in Hall. split.
        + intros Hin. destruct (Hall _ Hin); auto.
        + intros [<-|[<-|[]]]; apply (count_occ_In Nat.eq_dec); lia. }
    rewrite (sumQ_perm (Permutation_map _ Hp)). simpl.
    rewrite <- Hsum, <- Hcnt, ratio_half by assumption. lra.
Qed.

Lemma giniImpurity_formula_witness :
  [0; 0; 1; 1] <> []
  /\ (giniImpurity (N:=Q) [0; 0; 1; 1]%nat == 1 # 2)%Q.
Proof.
  split; [discriminate|].
  destruct (@giniImpurity_formula [0; 0; 1; 1]) as (_ & _ & Hhalf); [discriminate|].
  apply (Hhalf 0 1); [discriminate | | reflexivity].
  repeat (apply Forall_cons; [auto|]). apply Forall_nil.
Defined.

(** *** The two loops of [findBestSplit] *)

Lemma fold_left_flat_map {A B C} (f : A -> C -> A) (g : B -> list C) (l : list B) (a : A) :
  fold_left f (flat_map g l) a = fold_left (fun a x => fold_left f (g x) a) l a.
Proof.
  revert a. induction l as [|x l IH]; intros a; simpl; auto.
  now rewrite fold_left_app, IH.
Qed.

Lemma fold_left_map {A B C} (f : A -> C -> A) (g : B -> C) (l : list B) (a : A) :
  fold_left f (map g l) a = fold_left (fun a x => f a (g x)) l a.
Proof. revert a. induction l as [|x l IH]; intros a; simpl; auto. Qed.

Lemma findBestSplit_candidates {N} `{Number N} (data : list (DataPoint N)) (featureIndices : list nat) :
  findBestSplit data featureIndices
  = option_map (@bestSplit N) (fold_left (@keepBest N _) (candidates data featureIndices) None).
Proof.
  unfold findBestSplit, candidates. f_equal.
  rewrite fold_left_flat_map. 
  generalize (@None (Best N)). induction featureIndices as [|j l IH]; intros b; simpl; auto.
  rewrite IH. f_equal. now rewrite fold_left_map.
Qed.

Lemma fold_keepBest (l : list (Best Q)) (init : option (Best Q)) :
  match fold_left (@keepBest Q _) l init with
  | None => init = None /\ l = []
  | Some b =>
      (In b l \/ init = Some b)
      /\ (forall c, In c l -> (bestGini b <= bestGini c)%Q)
      /\ (forall b0, init = Some b0 -> (bestGini b <= bestGini b0)%Q)
  end.
Proof.
  revert init. induction l as [|c l IH]; intros init; simpl.
  - destruct init as [b|]; [|auto].
    split; [auto|]. split; [tauto|]. intros b0 E. inversion E. lra.
  - specialize (IH (keepBest init c)).
    destruct (fold_left _ l (keepBest init c)) as [b|].
    + destruct IH as (Hin & Hmin & Hinit).
      unfold keepBest in Hin, Hinit. destruct init as [b0|].
      * cbn [ltb Q_Number] in *. destruct (Qltb (bestGini c) (bestGini b0)) eqn:E.
        -- apply Qltb_lt in E. specialize (Hinit _ eq_refl).
           split; [destruct Hin as [?|Hin]; [auto | inversion Hin; auto]|].
           split; [intros c' [<-|?]; auto|].
           intros b1 E1. inversion E1; subst. lra.
        -- apply Qltb_ge in E. specialize (Hinit _ eq_refl).
           split; [destruct Hin as [?|Hin]; [auto | inversion Hin; auto]|].
           split; [intros c' [<-|?]; [lra | auto]|].
           intros b1 E1. inversion E1; subst. lra.
      * specialize (Hinit _ eq_refl).
        split; [destruct Hin as [?|Hin]; [auto | inversion Hin; auto]|].
        split; [intros c' [<-|?]; auto|]. discriminate.
    + destruct IH as (Hk & _). unfold keepBest in Hk.
      destruct init as [b0|]; [|discriminate].
      destruct (ltb (bestGini c) (bestGini b0)); discriminate.
Qed.

Lemma findBestSplit_best (data : list (DataPoint Q)) (featureIndices : list nat) :
  match findBestSplit data featureIndices with
  | None => candidates data featureIndices = []
  | Some s =>
      exists b, bestSplit b = s /\ In b (candidates data featureIndices)
        /\ forall c, In c (candidates data featureIndices) -> (bestGini b <= bestGini c)%Q
  end.
Proof.
  rewrite findBestSplit_candidates.
  pose proof (fold_keepBest (candidates data featureIndices) None) as Hf.
  destruct (fold_left _ _ None) as [b|]; simpl.
  - destruct Hf as ([Hin|?] & Hmin & _); [|discriminate]. eauto.
  - tauto.
Qed.

(** *** Sorting and deduplicating the values *)

Lemma insertSorted_perm {N} `{Number N} (x : N) (l : list N) :
  Permutation (insertSorted x l) (x :: l).
Proof.
  induction l as [|y l IH]; simpl; auto.
  destruct (ltb (compareNumbers y x) (of_nat 0)); auto.
  rewrite IH. apply perm_swap.
Qed.

Lemma sortNumbers_perm {N} `{Number N} (l : list N) : Permutation (sortNumbers l) l.
Proof.
  induction l as [|x l IH]; simpl; auto.
  rewrite insertSorted_perm. now constructor.
Qed.

Lemma compareNumbers_neg (y x : Q) :
  ltb (compareNumbers y x) (of_nat 0) = true <-> (y < x)%Q.
Proof.
  unfold compareNumbers. cbn [ltb sub of_nat Q_Number]. rewrite Qltb_lt.
  change (inject_Z (Z.of_nat 0)) with 0%Q. split; intros; lra.
Qed.

Lemma insertSorted_sorted (x : Q) (l : list Q) :
  Sorted Qle l -> Sorted Qle (insertSorted x l).
Proof.
  induction l as [|y l IH]; intros Hs; cbn [insertSorted].
  - repeat constructor.
  - inversion Hs as [|? ? Hs' Hhd]; subst.
    destruct (ltb (compareNumbers y x) (of_nat 0)) eqn:E.
    + apply compareNumbers_neg in E. constructor; [auto|].
      destruct l as [|z l]; cbn [insertSorted].
      * constructor. lra.
      * destruct (ltb (compareNumbers z x) (of_nat 0)); constructor;
          [inversion Hhd; auto | lra].
    + assert (x <= y)%Q.
      { destruct (Qlt_le_dec y x) as [Hlt|]; auto.
        apply compareNumbers_neg in Hlt. congruence. }
      constructor; [assumption | now constructor].
Qed.

Lemma sortNumbers_sorted (l : list Q) : StronglySorted Qle (sortNumbers l).
Proof.
  apply Sorted_StronglySorted; [intros x y z; apply Qle_trans|].
  induction l as [|x l IH]; simpl; [constructor|]. now apply insertSorted_sorted.
Qed.

Lemma unique_Some_acc (l acc : list Q) :
  fold_left
    (fun seen v => if existsb (sameValue v) seen then seen else seen ++ [v])
    (map Some l) (map Some acc)
  = map Some (uniqQ l acc).
Proof.
  unfold uniqQ. revert acc. induction l as [|v l IH]; intros acc; simpl; auto.
  assert (E : existsb (sameValue (Some v)) (map Some acc) = existsb (Qeq_bool v) acc).
  { induction acc as [|a acc IHa]; [reflexivity|].
    cbn [map existsb sameValue eqb Q_Number].
    rewrite (proj2 (Qeq_bool_iff v v) (Qeq_refl v)). cbn [negb andb].
    now rewrite orb_false_r, IHa. }
  rewrite E. destruct (existsb (Qeq_bool v) acc); [apply IH|].
  rewrite <- IH. now rewrite map_app.
Qed.

Lemma unique_Some (l : list Q) : unique (map Some l) = map Some (uniqQ l []).
Proof. apply (unique_Some_acc l []). Qed.

Lemma uniqQ_in (l acc : list Q) (u : Q) : In u (uniqQ l acc) -> In u acc \/ In u l.
Proof.
  unfold uniqQ. revert acc. induction l as [|v l IH]; intros acc; simpl; auto.
  intros Hin. apply IH in Hin. destruct (existsb (Qeq_bool v) acc).
  - tauto.
  - rewrite in_app_iff in Hin. simpl in Hin. tauto.
Qed.

Lemma uniqQ_acc (l acc : list Q) (u : Q) : In u acc -> In u (uniqQ l acc).
Proof.
  unfold uniqQ. revert acc. induction l as [|v l IH]; intros acc Hin; simpl; auto.
  apply IH. destruct (existsb (Qeq_bool v) acc); auto. apply in_app_iff. auto.
Qed.

Lemma uniqQ_covers (l acc : list Q) (v : Q) :
  In v l -> exists u, In u (uniqQ l acc) /\ (u == v)%Q.
Proof.
  revert acc. induction l as [|w l IH]; intros acc; simpl; [tauto|].
  intros [->|Hin].
  - unfold uniqQ. simpl. destruct (existsb (Qeq_bool v) acc) eqn:E.
    + apply existsb_exists in E. destruct E as (a & Ha & Heq).
      apply Qeq_bool_iff in Heq. exists a. split; [now apply uniqQ_acc|]. now symmetry.
    + exists v. split; [|reflexivity]. apply uniqQ_acc. apply in_app_iff. simpl. auto.
  - apply (IH _ Hin).
Qed.

Lemma StronglySorted_snoc (acc : list Q) (v : Q) :
  StronglySorted Qlt acc -> (forall a, In a acc -> (a < v)%Q) ->
  StronglySorted Qlt (acc ++ [v]).
Proof.
  induction 1 as [|a acc Hs IH Hall]; intros Hlt; simpl.
  - repeat constructor.
  - constructor.
    + apply IH. intros; apply Hlt; now right.
    + apply Forall_app. split; [assumption|]. constructor; [|constructor]. apply Hlt. now left.
Qed.

Lemma uniqQ_sorted (l acc : list Q) :
  StronglySorted Qlt acc -> StronglySorted Qle l ->
  (forall a v, In a acc -> In v l -> (a <= v)%Q) ->
  StronglySorted Qlt (uniqQ l acc).
Proof.
  unfold uniqQ. revert acc. induction l as [|v l IH]; intros acc Hacc Hl Hle; simpl; auto.
  inversion Hl as [|? ? Hl' Hall]; subst. rewrite Forall_forall in Hall.
  destruct (existsb (Qeq_bool v) acc) eqn:E.
  - apply IH; auto. intros a w Ha Hw. apply Hle; simpl; auto.
  - apply IH; auto.
    + apply StronglySorted_snoc; auto. intros a Ha.
      assert (a <= v)%Q by (apply Hle; simpl; auto).
      assert (~ (v == a)%Q).
      { intros Heq. apply Qeq_bool_iff in Heq.
        assert (existsb (Qeq_bool v) acc = true) by (apply existsb_exists; eauto).
        congruence. }
      lra.
    + intros a w Ha Hw. apply in_app_iff in Ha. destruct Ha as [Ha|[<-|[]]].
      * apply Hle; simpl; auto.
      * now apply Hall.
Qed.

(** Neighbours in a strictly increasing list. *)
Lemma adjacent_sound (us : list Q) (a b : Q) :
  StronglySorted Qlt us -> In (a, b) (combine us (tl us)) ->
  In a us /\ In b us /\ (a < b)%Q /\ forall u, In u us -> ~ (a < u /\ u < b)%Q.
Proof.
  induction 1 as [|x us Hs IH Hall]; simpl; [tauto|].
  rewrite Forall_forall in Hall.
  destruct us as [|y us]; simpl; [tauto|].
  intros [E|Hin].
  - inversion E; subst. split; [auto|]. split; [auto|].
    split; [apply Hall; simpl; auto|].
    intros u [<-|[<-|Hu]]; [lra | lra |].
    inversion Hs as [|? ? _ Hall']; subst. rewrite Forall_forall in Hall'.
    specialize (Hall' _ Hu). lra.
  - destruct (IH Hin) as (Ha & Hb & Hlt & Hno).
    split; [auto|]. split; [auto|]. split; [auto|].
    intros u [<-|Hu]; [|auto].
    specialize (Hall _ Ha). lra.
Qed.

Lemma adjacent_complete (us : list Q) (a b : Q) :
  StronglySorted Qlt us -> In a us -> In b us -> (a < b)%Q ->
  (forall u, In u us -> ~ (a < u /\ u < b)%Q) ->
  In (a, b) (combine us (tl us)).
Proof.
  induction 1 as [|x us Hs IH Hall]; simpl; [tauto|].
  rewrite Forall_forall in Hall. intros Ha Hb Hlt Hno.
  destruct us as [|y us].
  - simpl in *. destruct Ha as [<-|[]], Hb as [<-|[]]. lra.
  - cbn [tl combine]. destruct Ha as [<-|Ha].
    + destruct Hb as [<-|Hb]; [lra|].
      destruct Hb as [<-|Hb]; [now left|].
      exfalso. apply (Hno y); [simpl; auto|].
      inversion Hs as [|? ? _ Hall']; subst. rewrite Forall_forall in Hall'.
      split; [apply Hall; simpl; auto | now apply Hall'].
    + right. destruct Hb as [<-|Hb].
      * specialize (Hall _ Ha). lra.
      * apply IH; auto; intros u Hu; apply Hno; now right.
Qed.

Lemma adjacent_Some (us : list Q) :
  adjacent (map Some us)
  = map (fun ab => (Some (fst ab), Some (snd ab))) (combine us (tl us)).
Proof.
  unfold adjacent. destruct us as [|x us]; simpl; auto.
  revert x. induction us as [|y us IH]; intros x; simpl; auto.
  f_equal. apply IH.
Qed.

(** *** Thresholds and partitions *)

Lemma weightedGini_weightedImpurity (data l r : list (DataPoint Q)) :
  (weightedGini data l r == weightedImpurity data l r)%Q.
Proof.
  unfold weightedGini, weightedImpurity. cbn [add mul div of_nat Q_Number].
  rewrite !giniImpurity_giniFormula. reflexivity.
Qed.

Lemma featureAt_nth (j : nat) (d : DataPoint Q) :
  j < length (features d) -> featureAt j d = Some (nth j (features d) 0%Q).
Proof. intros Hj. unfold featureAt. now apply nth_error_nth'. Qed.

Lemma map_featureAt (data : list (DataPoint Q)) (j : nat) :
  Forall (fun d => j < length (features d)) data ->
  map (featureAt j) data = map Some (valuesOf data j).
Proof.
  unfold valuesOf. induction 1 as [|d data Hd _ IH]; simpl; auto.
  now rewrite featureAt_nth, IH.
Qed.

Lemma sortValues_Some (vals : list Q) :
  sortValues (map Some vals) = map Some (sortNumbers vals).
Proof.
  unfold sortValues.
  assert (Hd : definedValues (map Some vals) = vals).
  { unfold definedValues. induction vals as [|v l IH]; simpl; auto. now rewrite IH. }
  assert (Hu : undefinedValues (map Some vals) = []).
  { clear Hd. unfold undefinedValues. induction vals as [|v l IH]; simpl; auto. }
  now rewrite Hd, Hu, app_nil_r.
Qed.

Lemma uniqueValuesOf_Some (data : list (DataPoint Q)) (j : nat) :
  Forall (fun d => j < length (features d)) data ->
  uniqueValuesOf data j = map Some (distinctValues data j).
Proof.
  intros Hr. unfold uniqueValuesOf, distinctValues.
  now rewrite map_featureAt, sortValues_Some, unique_Some.
Qed.

Lemma observed_values (data : list (DataPoint Q)) (j : nat) (v : Q) :
  Forall (fun d => j < length (features d)) data ->
  (In v (valuesOf data j) <-> observed data j v).
Proof.
  intros Hr. rewrite Forall_forall in Hr. unfold valuesOf, observed. rewrite in_map_iff.
  split; intros (d & H1 & H2).
  - exists d. split; [assumption|]. rewrite featureAt_nth by auto. now f_equal.
  - exists d. split; [|assumption]. rewrite featureAt_nth in H2 by auto. congruence.
Qed.

Lemma distinctValues_sorted (data : list (DataPoint Q)) (j : nat) :
  StronglySorted Qlt (distinctValues data j).
Proof.
  apply uniqQ_sorted; [constructor | apply sortNumbers_sorted | intros ? ? []].
Qed.

Lemma distinctValues_observed (data : list (DataPoint Q)) (j : nat) (u : Q) :
  Forall (fun d => j < length (features d)) data ->
  In u (distinctValues data j) -> observed data j u.
Proof.
  intros Hr Hin. apply observed_values; [assumption|].
  apply uniqQ_in in Hin. destruct Hin as [[]|Hin].
  now apply (Permutation_in _ (sortNumbers_perm _)) in Hin.
Qed.

Lemma distinctValues_covers (data : list (DataPoint Q)) (j : nat) (v : Q) :
  Forall (fun d => j < length (features d)) data ->
  observed data j v -> exists u, In u (distinctValues data j) /\ (u == v)%Q.
Proof.
  intros Hr Ho. apply observed_values in Ho; [|assumption].
  apply uniqQ_covers. apply (Permutation_in _ (Permutation_sym (sortNumbers_perm _))). assumption.
Qed.

(** The neighbours of the inner loop are the adjacent observed values. *)
Lemma neighbours_adjacent (data : list (DataPoint Q)) (j : nat) (a b : Q) :
  Forall (fun d => j < length (features d)) data ->
  In (a, b) (combine (distinctValues data j) (tl (distinctValues data j))) ->
  adjacentValues data j a b.
Proof.
  intros Hr Hin.
  destruct (@adjacent_sound _ _ _ (distinctValues_sorted data j) Hin) as (Ha & Hb & Hlt & Hno).
  repeat split; eauto using distinctValues_observed.
  intros v Hv [H1 H2].
  destruct (distinctValues_covers Hr Hv) as (u & Hu & Heq).
  apply (Hno u Hu). rewrite Heq. auto.
Qed.

Lemma adjacent_neighbours (data : list (DataPoint Q)) (j : nat) (a b : Q) :
  Forall (fun d => j < length (features d)) data ->
  adjacentValues data j a b ->
  exists a' b', (a' == a)%Q /\ (b' == b)%Q
    /\ In (a', b') (combine (distinctValues data j) (tl (distinctValues data j))).
Proof.
  intros Hr (Ha & Hb & Hlt & Hno).
  destruct (distinctValues_covers Hr Ha) as (a' & Ha' & Ea).
  destruct (distinctValues_covers Hr Hb) as (b' & Hb' & Eb).
  exists a', b'. split; [assumption|]. split; [assumption|].
  apply adjacent_complete; auto using distinctValues_sorted.
  - rewrite Ea, Eb. assumption.
  - intros u Hu [H1 H2]. apply (Hno u); [eauto using distinctValues_observed|].
    rewrite <- Ea, <- Eb. auto.
Qed.

Lemma hasFeatures_at (featureIndices : list nat) (data : list (DataPoint Q)) (j : nat) :
  hasFeatures featureIndices data -> In j featureIndices ->
  Forall (fun d => j < length (features d)) data.
Proof.
  unfold hasFeatures. rewrite !Forall_forall. intros Hf Hj d Hd.
  specialize (Hf d Hd). rewrite Forall_forall in Hf. auto.
Qed.

(** The candidates of [findBestSplit]. *)
Lemma in_candidates (featureIndices : list nat) (data : list (DataPoint Q)) (c : Best Q) :
  hasFeatures featureIndices data ->
  (In c (candidates data featureIndices) <->
   exists j a b, In j featureIndices
     /\ In (a, b) (combine (distinctValues data j) (tl (distinctValues data j)))
     /\ c = splitAt data j (Some a, Some b)).
Proof.
  intros Hf. unfold candidates. rewrite in_flat_map. split.
  - intros (j & Hj & Hin). rewrite uniqueValuesOf_Some, adjacent_Some, map_map in Hin
      by eauto using hasFeatures_at.
    apply in_map_iff in Hin. destruct Hin as ([a b] & E & Hab).
    exists j, a, b. simpl in E. auto.
  - intros (j & a & b & Hj & Hab & ->). exists j. split; [assumption|].
    rewrite uniqueValuesOf_Some, adjacent_Some, map_map by eauto using hasFeatures_at.
    apply in_map_iff. exists (a, b). auto.
Qed.

Lemma midpoint_between (a b : Q) : (a < b -> a < (a + b) / 2 /\ (a + b) / 2 < b)%Q.
Proof.
  intros Hlt. split; [apply Qlt_shift_div_l | apply Qlt_shift_div_r]; lra.
Qed.

Lemma js_le_Some (v t : Q) : js_le (Some v) (Some t) = true <-> (v <= t)%Q.
Proof. simpl. apply Qle_bool_iff. Qed.

Lemma js_gt_Some (v t : Q) : js_gt (Some v) (Some t) = true <-> (t < v)%Q.
Proof. simpl. apply Qltb_lt. Qed.

Lemma in_leftAt (data : list (DataPoint Q)) (j : nat) (t : Q) (d : DataPoint Q) :
  In d (leftAt data j t) <-> In d data /\ exists v, featureAt j d = Some v /\ (v <= t)%Q.
Proof.
  unfold leftAt. rewrite filter_In. split; intros (Hd & H); (split; [assumption|]).
  - destruct (featureAt j d) as [v|]; [|discriminate]. exists v. split; [reflexivity|].
    now apply js_le_Some.
  - destruct H as (v & -> & Hle). now apply js_le_Some.
Qed.

Lemma in_rightAt (data : list (DataPoint Q)) (j : nat) (t : Q) (d : DataPoint Q) :
  In d (rightAt data j t) <-> In d data /\ exists v, featureAt j d = Some v /\ (t < v)%Q.
Proof.
  unfold rightAt. rewrite filter_In. split; intros (Hd & H); (split; [assumption|]).
  - destruct (featureAt j d) as [v|]; [|discriminate]. exists v. split; [reflexivity|].
    now apply js_gt_Some.
  - destruct H as (v & -> & Hle). now apply js_gt_Some.
Qed.

Lemma filter_partition {A} (p q : A -> bool) (l : list A) :
  (forall x, In x l -> q x = negb (p x)) ->
  Permutation (filter p l ++ filter q l) l.
Proof.
  induction l as [|x l IH]; intros Hq; simpl; auto.
  rewrite (Hq x) by (now left). destruct (p x); simpl.
  - constructor. apply IH. intros; apply Hq; now right.
  - rewrite <- Permutation_middle. constructor. apply IH. intros; apply Hq; now right.
Qed.

Lemma left_right_partition (data : list (DataPoint Q)) (j : nat) (t : Q) :
  Forall (fun d => j < length (features d)) data ->
  Permutation (leftAt data j t ++ rightAt data j t) data.
Proof.
  intros Hr. apply filter_partition. rewrite Forall_forall in Hr.
  intros d Hd. rewrite featureAt_nth by auto. reflexivity.
Qed.

Lemma leftAt_ext (data : list (DataPoint Q)) (j : nat) (t t' : Q) :
  (t == t')%Q -> leftAt data j t = leftAt data j t'.
Proof.
  intros E. apply filter_ext. intros d. destruct (featureAt j d) as [v|]; simpl; auto.
  apply eq_true_iff_eq. rewrite !Qle_bool_iff, E. tauto.
Qed.

Lemma rightAt_ext (data : list (DataPoint Q)) (j : nat) (t t' : Q) :
  (t == t')%Q -> rightAt data j t = rightAt data j t'.
Proof.
  intros E. apply filter_ext. intros d. destruct (featureAt j d) as [v|]; simpl; auto.
  apply eq_true_iff_eq. rewrite !Qltb_lt, E. tauto.
Qed.

(** *** Best-split search *)

(** What a returned split is made of. *)
Lemma findBestSplit_shape (data : list (DataPoint Q)) (featureIndices : list nat) (s : Split Q) :
  hasFeatures featureIndices data ->
  findBestSplit data featureIndices = Some s ->
  exists j a b,
    In j featureIndices /\ adjacentValues data j a b
    /\ s = {| featureIndex := j; threshold := Some ((a + b) / 2)%Q;
              left := leftAt data j ((a + b) / 2); right := rightAt data j ((a + b) / 2) |}
    /\ forall c, In c (candidates data featureIndices) ->
         (weightedGini data (left s) (right s) <= bestGini c)%Q.
Proof.
  intros Hf Hs. pose proof (findBestSplit_best data featureIndices) as Hb.
  rewrite Hs in Hb. destruct Hb as (b & <- & Hin & Hmin).
  apply in_candidates in Hin; [|assumption].
  destruct Hin as (j & a & c & Hj & Hac & ->).
  exists j, a, c. split; [assumption|]. split.
  - apply neighbours_adjacent; eauto using hasFeatures_at.
  - split; [reflexivity|]. intros c0 Hc0. apply (Hmin c0 Hc0).
Qed.

Lemma length_pos_in {A} (x : A) (l : list A) : In x l -> 0 < length l.
Proof. destruct l; simpl; [tauto | lia]. Qed.

(** In exact arithmetic: when best-split search returns a split for a
    dataset whose points all have the candidate features, the left part
    is exactly the points whose value at the returned feature is at most
    the returned threshold, the right part exactly those above it, the
    two together are the dataset, neither is empty and each is shorter
    than the dataset. *)
Lemma findBestSplit_partition_exact (data : list (DataPoint Q)) (featureIndices : list nat)
    (s : Split Q) :
  hasFeatures featureIndices data ->
  findBestSplit data featureIndices = Some s ->
  exists t,
    threshold s = Some t
    /\ In (featureIndex s) featureIndices
    /\ (forall d, In d (left s) <->
          In d data /\ exists v, featureAt (featureIndex s) d = Some v /\ (v <= t)%Q)
    /\ (forall d, In d (right s) <->
          In d data /\ exists v, featureAt (featureIndex s) d = Some v /\ (t < v)%Q)
    /\ Permutation (left s ++ right s) data
    /\ left s <> [] /\ right s <> []
    /\ length (left s) < length data /\ length (right s) < length data.
Proof.
  intros Hf Hs.
  destruct (@findBestSplit_shape _ _ _ Hf Hs) as (j & a & b & Hj & Hadj & -> & _).
  cbn [featureIndex threshold left right].
  pose proof (@hasFeatures_at _ _ _ Hf Hj) as Hr.
  destruct Hadj as ((da & Hda & Ea) & (db & Hdb & Eb) & Hlt & _).
  destruct (@midpoint_between _ _ Hlt) as [H1 H2].
  assert (Hl : In da (leftAt data j ((a + b) / 2))).
  { apply in_leftAt. split; [assumption|]. exists a. split; [assumption | lra]. }
  assert (Hrt : In db (rightAt data j ((a + b) / 2))).
  { apply in_rightAt. split; [assumption|]. exists b. split; [assumption | lra]. }
  pose proof (@left_right_partition _ _ ((a + b) / 2)%Q Hr) as Hp.
  pose proof (@Permutation_length _ _ _ Hp) as Hlen. rewrite length_app in Hlen.
  apply length_pos_in in Hl as Hl0. apply length_pos_in in Hrt as Hr0.
  exists ((a + b) / 2)%Q. split; [reflexivity|]. split; [assumption|].
  split; [intros d; apply in_leftAt|]. split; [intros d; apply in_rightAt|].
  split; [assumption|].
  split; [intros E; rewrite E in Hl; contradiction|].
  split; [intros E; rewrite E in Hrt; contradiction|].
  lia.
Qed.

(** C6. Best-split search returns a candidate feature, the midpoint of
    two adjacent observed values of it as threshold, and the points at
    most the threshold (left) and above it (right); its weighted Gini
    impurity (|left|/|data|) Gini(left) + (|right|/|data|) Gini(right) is
    minimal among all candidate features and all midpoints of adjacent
    observed values.  It returns no split exactly when no candidate
    feature has two adjacent values, so none when every candidate feature
    has fewer than 2 distinct values. *)
Theorem findBestSplit_minimizes (data : list (DataPoint Q)) (featureIndices : list nat) :
  hasFeatures featureIndices data ->
  match findBestSplit data featureIndices with
  | Some s =>
      exists a b,
        In (featureIndex s) featureIndices
        /\ adjacentValues data (featureIndex s) a b
        /\ threshold s = Some ((a + b) / 2)%Q
        /\ left s = leftAt data (featureIndex s) ((a + b) / 2)
        /\ right s = rightAt data (featureIndex s) ((a + b) / 2)
        /\ forall j a' b', In j featureIndices -> adjacentValues data j a' b' ->
             (weightedImpurity data (left s) (right s)
              <= weightedImpurity data (leftAt data j ((a' + b') / 2))
                                       (rightAt data j ((a' + b') / 2)))%Q
  | None =>
      forall j a b, In j featureIndices -> ~ adjacentValues data j a b
  end
  /\ ((forall j v w, In j featureIndices -> observed data j v -> observed data j w -> (v == w)%Q) ->
      findBestSplit data featureIndices = None).
Proof.
  intros Hf.
  assert (Hnone : findBestSplit data featureIndices = None ->
                  forall j a b, In j featureIndices -> ~ adjacentValues data j a b).
  { intros E j a b Hj Hadj. pose proof (findBestSplit_best data featureIndices) as Hb.
    rewrite E in Hb.
    destruct (@adjacent_neighbours _ _ _ _ (@hasFeatures_at _ _ _ Hf Hj) Hadj) as (a' & b' & _ & _ & Hin).
    assert (Hc : In (splitAt data j (Some a', Some b')) (candidates data featureIndices)).
    { apply in_candidates; [assumption|]. exists j, a', b'. auto. }
    rewrite Hb in Hc. contradiction. }
  split.
  - destruct (findBestSplit data featureIndices) as [s|] eqn:Hs; [|now apply Hnone].
    destruct (@findBestSplit_shape _ _ _ Hf Hs) as (j & a & b & Hj & Hadj & E & Hmin).
    exists a, b. subst s. cbn [featureIndex threshold left right] in *.
    repeat (split; [first [assumption | reflexivity]|]).
    intros j' a' b' Hj' Hadj'.
    destruct (@adjacent_neighbours _ _ _ _ (@hasFeatures_at _ _ _ Hf Hj') Hadj') as (a2 & b2 & Ea & Eb & Hin).
    assert (Hc : In (splitAt data j' (Some a2, Some b2)) (candidates data featureIndices)).
    { apply in_candidates; [assumption|]. exists j', a2, b2. auto. }
    specialize (Hmin _ Hc).
    rewrite <- !weightedGini_weightedImpurity.
    assert (Et : ((a' + b') / 2 == (a2 + b2) / 2)%Q) by (rewrite Ea, Eb; reflexivity).
    rewrite (@leftAt_ext data j' _ _ Et), (@rightAt_ext data j' _ _ Et). exact Hmin.
  - intros Hsame. destruct (findBestSplit data featureIndices) as [s|] eqn:Hs; [|reflexivity].
    destruct (@findBestSplit_shape _ _ _ Hf Hs) as (j & a & b & Hj & (Ha & Hb & Hlt & _) & _).
    specialize (Hsame j a b Hj Ha Hb). lra.
Qed.

Lemma findBestSplit_minimizes_witness :
  hasFeatures [0; 1] twoEqualPoints
  /\ findBestSplit twoEqualPoints [0; 1] = None.
Proof.
  assert (Hf : hasFeatures [0; 1] twoEqualPoints) by (repeat constructor).
  split; [exact Hf|].
  apply (@findBestSplit_minimizes twoEqualPoints [0; 1] Hf).
  intros j v w Hj (d1 & Hd1 & E1) (d2 & Hd2 & E2).
  destruct Hj as [<-|[<-|[]]];
    destruct Hd1 as [<-|[<-|[]]]; destruct Hd2 as [<-|[<-|[]]];
    vm_compute in E1, E2; congruence.
Defined.

(** *** Tree induction and bagging *)

Lemma sorted_head_absent {V} (k k' : nat) (v' : V) (o : Obj V) :
  Sorted lt (obj_keys ((k', v') :: o)) -> k < k' -> obj_get k ((k', v') :: o) = None.
Proof.
  intros Hs Hlt. apply Sorted_StronglySorted in Hs; [|intros x y z; lia].
  destruct (obj_get k ((k', v') :: o)) eqn:E; [|reflexivity].
  assert (Hin : In k (obj_keys ((k', v') :: o))) by (apply obj_get_in_keys; congruence).
  simpl in Hin. inversion Hs as [|? ? _ Hall]; subst. rewrite Forall_forall in Hall.
  destruct Hin as [->|Hin]; [lia|]. specialize (Hall _ Hin). lia.
Qed.

Lemma sumN_obj_set (k v : nat) (o : Obj nat) :
  Sorted lt (obj_keys o) ->
  sumN (obj_values (obj_set k v o)) + getOr0 k o = sumN (obj_values o) + v.
Proof.
  induction o as [|[k' v'] o IH]; intros Hs.
  - unfold getOr0. simpl. lia.
  - cbn [obj_set]. destruct (k <? k') eqn:Hlt.
    + apply Nat.ltb_lt in Hlt. unfold getOr0. rewrite (@sorted_head_absent _ _ _ _ _ Hs Hlt).
      simpl. lia.
    + destruct (k =? k') eqn:Heq.
      * unfold getOr0. simpl. rewrite Heq. simpl. lia.
      * assert (Hs' : Sorted lt (obj_keys o)) by (inversion Hs; assumption).
        specialize (IH Hs'). unfold getOr0 in *. simpl. rewrite Heq.
        unfold obj_values in *. simpl in *. lia.
Qed.

Lemma sumN_fold_incr (labels : list nat) (o : Obj nat) :
  Sorted lt (obj_keys o) ->
  sumN (obj_values (fold_left incr labels o)) = sumN (obj_values o) + length labels.
Proof.
  revert o. induction labels as [|l labels IH]; intros o Hs; simpl; [lia|].
  rewrite IH by (apply obj_set_sorted; assumption).
  pose proof (@sumN_obj_set l (getOr0 l o + 1) o Hs) as E.
  unfold incr. fold (getOr0 l o). lia.
Qed.

Lemma sumN_countLabels (labels : list nat) :
  sumN (obj_values (countLabels labels)) = length labels.
Proof. unfold countLabels. rewrite sumN_fold_incr by constructor. reflexivity. Qed.

Lemma sumQ_ratio (cs : list nat) (n : nat) :
  (sumQ (map (fun c => ratio c n) cs) == ratio (sumN cs) n)%Q.
Proof.
  induction cs as [|c cs IH]; simpl.
  - unfold ratio. simpl. unfold Qdiv. ring.
  - rewrite IH. unfold ratio. rewrite Nat2Z.inj_add, inject_Z_plus. unfold Qdiv. ring.
Qed.

(** The values of a leaf's distribution add up to 1. *)
Lemma distributionOf_sum (data : list (DataPoint Q)) :
  data <> [] -> (sumQ (obj_values (distributionOf data)) == 1)%Q.
Proof.
  intros Hne. unfold distributionOf, obj_values. rewrite map_map. cbn [snd fst div of_nat Q_Number].
  change (fun x : nat * nat => (inject_Z (Z.of_nat (snd x)) / inject_Z (Z.of_nat (length data)))%Q)
    with (fun x : nat * nat => ratio (snd x) (length data)).
  rewrite <- (map_map snd (fun c => ratio c (length data))).
  rewrite sumQ_ratio. fold (obj_values (countLabels (map (@label Q) data))).
  rewrite sumN_countLabels, length_map. apply ratio_self.
  destruct data; [congruence | simpl; lia].
Qed.


Lemma insertAt_perm {A} (k : nat) (x : A) (l : list A) :
  Permutation (insertAt k x l) (x :: l).
Proof.
  unfold insertAt. rewrite <- Permutation_middle. now rewrite firstn_skipn.
Qed.

Lemma in_firstn {A} (n : nat) (x : A) (l : list A) : In x (firstn n l) -> In x l.
Proof.
  revert l. induction n as [|n IH]; intros [|y l]; simpl; try tauto.
  intros [?|?]; auto.
Qed.

Lemma shuffle_total (l : list nat) (s : list nat) :
  exists r s', shuffle l s = Some (r, s') /\ Permutation r l.
Proof.
  revert s. induction l as [|x l IH]; intros s; simpl.
  - exists [], s. split; [reflexivity | constructor].
  - unfold bind. destruct (IH s) as (r & s1 & -> & Hp).
    unfold draw. destruct s1 as [|u s2]; unfold ret;
      eexists; eexists; (split; [reflexivity|]);
      rewrite insertAt_perm; now constructor.
Qed.

Lemma uniform_hasFeatures (D : nat) (data : list (DataPoint Q)) (js : list nat) :
  uniform D data -> (forall j, In j js -> j < D) -> hasFeatures js data.
Proof.
  unfold uniform, hasFeatures. rewrite !Forall_forall. intros Hu Hj d Hd.
  apply Forall_forall. intros j Hin. rewrite (Hu d Hd). auto.
Qed.

Lemma uniform_incl (D : nat) (data data' : list (DataPoint Q)) :
  uniform D data -> (forall d, In d data' -> In d data) -> uniform D data'.
Proof.
  unfold uniform. rewrite !Forall_forall. auto.
Qed.

(** The two parts of a returned split: not empty, and made of points of [data]. *)
Lemma findBestSplit_children (data : list (DataPoint Q)) (featureIndices : list nat) (s : Split Q) :
  hasFeatures featureIndices data ->
  findBestSplit data featureIndices = Some s ->
  left s <> [] /\ right s <> []
  /\ (forall d, In d (left s) -> In d data) /\ (forall d, In d (right s) -> In d data).
Proof.
  intros Hf Hs.
  destruct (@findBestSplit_shape _ _ _ Hf Hs) as (j & a & b & Hj & Hadj & -> & _).
  cbn [left right].
  destruct Hadj as ((da & Hda & Ea) & (db & Hdb & Eb) & Hlt & _).
  destruct (@midpoint_between _ _ Hlt) as [H1 H2].
  assert (Hl : In da (leftAt data j ((a + b) / 2))).
  { apply in_leftAt. split; [assumption|]. exists a. split; [assumption | lra]. }
  assert (Hrt : In db (rightAt data j ((a + b) / 2))).
  { apply in_rightAt. split; [assumption|]. exists b. split; [assumption | lra]. }
  split; [intros E; rewrite E in Hl; contradiction|].
  split; [intros E; rewrite E in Hrt; contradiction|].
  split; intros d Hd; [apply in_leftAt in Hd | apply in_rightAt in Hd]; tauto.
Qed.


Lemma bootstrap_total (data : list (DataPoint Q)) (k : nat) (s : list nat) :
  data <> [] ->
  exists sample s', bootstrap data k s = Some (sample, s')
    /\ length sample = k /\ forall d, In d sample -> In d data.
Proof.
  intros Hne. revert s. induction k as [|k IH]; intros s; simpl.
  - unfold ret. exists [], s. simpl. tauto.
  - unfold bind, randomIndex, bind, draw, ret.
    assert (Hlen : length data <> 0) by (destruct data; [congruence | simpl; lia]).
    assert (Hnth : forall u, exists d, nth_error data (u mod length data) = Some d /\ In d data).
    { intros u. destruct (nth_error data (u mod length data)) as [d|] eqn:E.
      - exists d. split; [reflexivity|]. eapply nth_error_In; eauto.
      - apply nth_error_None in E. pose proof (Nat.mod_upper_bound u (length data) Hlen). lia. }
    destruct s as [|u s1].
    + destruct (Hnth 0) as (d & -> & Hd). destruct (IH []) as (sample & s' & -> & Hl & Hin).
      exists (d :: sample), s'. simpl. split; [reflexivity|]. split; [lia|].
      intros d' [<-|?]; auto.
    + destruct (Hnth u) as (d & -> & Hd). destruct (IH s1) as (sample & s' & -> & Hl & Hin).
      exists (d :: sample), s'. simpl. split; [reflexivity|]. split; [lia|].
      intros d' [<-|?]; auto.
Qed.



(** *** Binary64 runs *)

(** The two special values of the Gini impurity are exact in binary64. *)
Example giniImpurity_binary64 :
  giniImpurity (N:=PrimFloat.float) [0; 1; 1; 0] = PrimFloat.div PrimFloat.one PrimFloat.two
  /\ giniImpurity (N:=PrimFloat.float) [1; 1; 1] = PrimFloat.zero.
Proof. split; vm_compute; reflexivity. Qed.

(** The facts above on the two parts of a split are facts of exact
    arithmetic: see [RoundingFacts] for what is left of them in binary64. *)

End ForestFacts.

(** ** The similarity scorer *)

Module ScorerFacts.

Import Spec Ranking.

Section ScorerProofs.

Context {N : Type} `{Number N} `{Sqrt N}.

Lemma loop_split (a b : list N) (d na nb : N) :
  fold_left
    (fun acc ab =>
       let '(dotProduct, normA, normB) := acc in
       (add dotProduct (mul (fst ab) (snd ab)),
        add normA (mul (fst ab) (fst ab)),
        add normB (mul (snd ab) (snd ab))))
    (combine a b) (d, na, nb)
  = (fold_left (fun acc xy => add acc (mul (fst xy) (snd xy))) (combine a b) d,
     fold_left (fun acc xy => add acc (mul (fst xy) (fst xy))) (combine a b) na,
     fold_left (fun acc xy => add acc (mul (snd xy) (snd xy))) (combine a b) nb).
Proof.
  revert b d na nb. induction a as [|x a IH]; intros [|y b] d na nb; simpl; auto.
Qed.

Lemma fold_fst_self (a b : list N) (acc : N) :
  length a = length b ->
  fold_left (fun acc xy => add acc (mul (fst xy) (fst xy))) (combine a b) acc
  = fold_left (fun acc xy => add acc (mul (fst xy) (snd xy))) (combine a a) acc.
Proof.
  revert b acc. induction a as [|x a IH]; intros [|y b] acc; simpl; try discriminate; auto.
Qed.

Lemma fold_snd_self (a b : list N) (acc : N) :
  length a = length b ->
  fold_left (fun acc xy => add acc (mul (snd xy) (snd xy))) (combine a b) acc
  = fold_left (fun acc xy => add acc (mul (fst xy) (snd xy))) (combine b b) acc.
Proof.
  revert b acc. induction a as [|x a IH]; intros [|y b] acc; simpl; try discriminate; auto.
Qed.

Lemma cosineSimilarity_cosineSim (a b : list N) :
  length a = length b -> cosineSimilarity a b = Some (cosineSim a b).
Proof.
  intros Hlen. unfold cosineSimilarity. rewrite Hlen, Nat.eqb_refl. cbn [negb].
  rewrite loop_split, fold_fst_self, fold_snd_self by assumption. reflexivity.
Qed.

Lemma cosineSimilarity_throws (a b : list N) :
  length a <> length b -> cosineSimilarity a b = None.
Proof.
  intros Hlen. unfold cosineSimilarity. apply Nat.eqb_neq in Hlen. now rewrite Hlen.
Qed.

Lemma map_get_in {V} (file : File) (v : V) (m : FileMap V) :
  NoDup (map_keys m) -> In (file, v) m -> map_get file m = Some v.
Proof.
  unfold map_keys. induction m as [|[f' v'] m IH]; simpl; [tauto|].
  intros Hnd [E|Hin].
  - inversion E; subst. now rewrite Nat.eqb_refl.
  - inversion Hnd as [|? ? Hnot Hnd']; subst.
    destruct (file =? f') eqn:Heq; [|auto].
    apply Nat.eqb_eq in Heq. subst. exfalso. apply Hnot.
    apply in_map_iff. exists (f', v). auto.
Qed.

Lemma map_get_some_in {V} (file : File) (v : V) (m : FileMap V) :
  map_get file m = Some v -> In (file, v) m.
Proof.
  induction m as [|[f' v'] m IH]; simpl; [discriminate|].
  destruct (file =? f') eqn:Heq; [|auto].
  apply Nat.eqb_eq in Heq. intros E. inversion E; subst. auto.
Qed.

Lemma dimension_get (D : nat) (emb : FileMap (Embedding N)) (file : File) (e : list N) :
  dimension D emb -> floatEmbeddingOf emb file = Some e -> length e = D.
Proof.
  unfold dimension, floatEmbeddingOf. rewrite Forall_forall. intros Hd E.
  destruct (map_get file emb) as [x|] eqn:G; [|discriminate].
  apply map_get_some_in in G. exact (Hd _ G _ E).
Qed.

Lemma filter_keys (liked : bool) (pref l : FileMap bool) :
  (forall entry, In entry l -> map_get (fst entry) pref = Some (snd entry)) ->
  filter (fun file => match map_get file pref with
                      | Some b => Bool.eqb b liked
                      | None => false
                      end) (map fst l)
  = map fst (filter (fun entry => Bool.eqb (snd entry) liked) l).
Proof.
  induction l as [|[f b] l IH]; intros Hget; simpl; auto.
  pose proof (Hget (f, b) (or_introl eq_refl)) as G. cbn [fst snd] in G. rewrite G.
  rewrite IH by (intros; apply Hget; now right).
  destruct (Bool.eqb b liked); reflexivity.
Qed.

(** The labelled embeddings the code collects are those of the labelled
    set of the specification. *)
Lemma labelledEmbeddings_set (liked : bool) (pref : FileMap bool)
    (emb : FileMap (Embedding N)) :
  NoDup (map_keys pref) ->
  flat_map (fun x => match floatEmbedding x with Some e => [e] | None => [] end)
    (labelledEmbeddings liked pref emb)
  = labelledSetWithEmbedding liked pref emb.
Proof.
  intros Hnd. unfold labelledEmbeddings, labelledSetWithEmbedding, map_keys.
  rewrite filter_keys by (intros [f b] Hin; now apply map_get_in).
  clear Hnd. induction pref as [|[f b] m IH]; simpl; auto.
  rewrite <- IH. cbn [snd fst]. destruct (Bool.eqb b liked); simpl; [|reflexivity].
  rewrite flat_map_app. f_equal.
  unfold floatEmbeddingOf. destruct (map_get f emb) as [x|]; simpl; [|reflexivity].
  now rewrite app_nil_r.
Qed.

Lemma sumSimilarities_sum (D : nat) (e : list N) (labelled : list (Embedding N)) (acc : N) :
  length e = D ->
  Forall (fun x => forall v, floatEmbedding x = Some v -> length v = D) labelled ->
  reduceExc
    (fun acc x =>
       match floatEmbedding x with
       | None => Some acc
       | Some v => option_map (add acc) (cosineSimilarity e v)
       end)
    labelled acc
  = Some (fold_left add
            (map (cosineSim e)
               (flat_map (fun x => match floatEmbedding x with Some v => [v] | None => [] end)
                  labelled))
            acc).
Proof.
  intros He. revert acc. induction labelled as [|x l IH]; intros acc Hall; simpl; auto.
  inversion Hall as [|? ? Hx Hl]; subst.
  destruct (floatEmbedding x) as [v|] eqn:E; simpl.
  - rewrite cosineSimilarity_cosineSim by (rewrite (Hx v eq_refl); reflexivity).
    simpl. now apply IH.
  - now apply IH.
Qed.

Lemma labelledEmbeddings_dimension (D : nat) (liked : bool) (pref : FileMap bool)
    (emb : FileMap (Embedding N)) :
  dimension D emb ->
  Forall (fun x => forall v, floatEmbedding x = Some v -> length v = D)
         (labelledEmbeddings liked pref emb).
Proof.
  intros Hd. unfold labelledEmbeddings. apply Forall_forall. intros x Hin.
  apply in_flat_map in Hin. destruct Hin as ([y|] & Hy & Hx); [|contradiction].
  destruct Hx as [<-|[]]. apply in_map_iff in Hy. destruct Hy as (f & G & _).
  apply map_get_some_in in G. unfold dimension in Hd. rewrite Forall_forall in Hd.
  exact (Hd _ G).
Qed.

(** C5. For a preference map with distinct keys and embeddings of one
    dimension: the score of an image is undefined exactly when the image
    has no embedding; otherwise it is the sum of the cosine similarities
    to the liked images that have an embedding minus the sum of those to
    the disliked images that have one, an empty liked or disliked set
    counting for 0. *)
Theorem score_is_similarity (D : nat) (imagePreference : FileMap bool)
    (imagesWithEmbeddings : FileMap (Embedding N)) (file : File) :
  NoDup (map_keys imagePreference) ->
  dimension D imagesWithEmbeddings ->
  score imagePreference imagesWithEmbeddings file
  = Some (similarity imagePreference imagesWithEmbeddings file)
  /\ (score imagePreference imagesWithEmbeddings file = Some None
      <-> floatEmbeddingOf imagesWithEmbeddings file = None)
  /\ (forall e,
        floatEmbeddingOf imagesWithEmbeddings file = Some e ->
        (labelledSetWithEmbedding true imagePreference imagesWithEmbeddings = [] ->
         score imagePreference imagesWithEmbeddings file
         = Some (Some (sub (of_nat 0)
                         (sumOf (map (cosineSim e)
                                   (labelledSetWithEmbedding false imagePreference
                                      imagesWithEmbeddings))))))
        /\ (labelledSetWithEmbedding false imagePreference imagesWithEmbeddings = [] ->
            score imagePreference imagesWithEmbeddings file
            = Some (Some (sub (sumOf (map (cosineSim e)
                                        (labelledSetWithEmbedding true imagePreference
                                           imagesWithEmbeddings)))
                              (of_nat 0))))).
Proof.
  intros Hnd Hd.
  assert (E : score imagePreference imagesWithEmbeddings file
              = Some (similarity imagePreference imagesWithEmbeddings file)).
  { unfold score, similarity.
    destruct (floatEmbeddingOf imagesWithEmbeddings file) as [e|] eqn:Ef; [|reflexivity].
    pose proof (dimension_get _ Hd Ef) as He.
    unfold sumSimilarities.
    rewrite !(@sumSimilarities_sum D) by auto using labelledEmbeddings_dimension.
    rewrite !labelledEmbeddings_set by assumption. reflexivity. }
  split; [exact E|]. split.
  - rewrite E. unfold similarity.
    destruct (floatEmbeddingOf imagesWithEmbeddings file); split; congruence.
  - intros e Ef. rewrite E. unfold similarity. rewrite Ef.
    split; intros ->; reflexivity.
Qed.

End ScorerProofs.

Lemma score_is_similarity_witness :
  NoDup (map_keys fivePreferences) /\ dimension 2 fiveImages
  /\ score fivePreferences fiveImages 3 = Some (similarity fivePreferences fiveImages 3)
  /\ score fivePreferences fiveImages 4 = Some None.
Proof.
  assert (Hnd : NoDup (map_keys fivePreferences)).
  { repeat constructor; simpl; intuition discriminate. }
  assert (Hd : dimension 2 fiveImages).
  { repeat constructor; simpl; intros e E; inversion E; reflexivity. }
  split; [exact Hnd|]. split; [exact Hd|].
  split; [apply (@score_is_similarity _ _ _ 2 fivePreferences fiveImages 3 Hnd Hd)|].
  apply (@score_is_similarity _ _ _ 2 fivePreferences fiveImages 4 Hnd Hd). reflexivity.
Defined.

(** The cosine score of the unlabelled image 3 lies between those of the
    liked images and that of the disliked one. *)
Example scores_between_clusters :
  option_map (map (fun i => file i))
    (imagesSorted [3; 2; 4; 1; 0] fivePreferences fiveImages None cosine)
  = Some [0; 1; 4; 3; 2]
  /\ (exists s1 s3 s2,
        score fivePreferences fiveImages 1 = Some (Some s1)
        /\ score fivePreferences fiveImages 3 = Some (Some s3)
        /\ score fivePreferences fiveImages 2 = Some (Some s2)
        /\ ltb s3 s1 = true /\ ltb s2 s3 = true).
Proof.
  split; [vm_compute; reflexivity|].
  eexists. eexists. eexists.
  split; [vm_compute; reflexivity|]. split; [vm_compute; reflexivity|].
  split; [vm_compute; reflexivity|]. split; vm_compute; reflexivity.
Qed.

End ScorerFacts.

(** ** The final order *)

Module OrderFacts.

Import NumberFacts Spec Ranking.

(** *** Sorting with a comparer *)

Lemma insertBy_perm {A} (cmp : A -> A -> Z) (x : A) (l : list A) :
  Permutation (insertBy cmp x l) (x :: l).
Proof.
  induction l as [|y l IH]; simpl; auto.
  destruct (cmp x y <? 0)%Z; auto. rewrite IH. apply perm_swap.
Qed.

Lemma sortWith_perm {A} (cmp : A -> A -> Z) (l : list A) : Permutation (sortWith cmp l) l.
Proof.
  induction l as [|x l IH]; simpl; auto. rewrite insertBy_perm. now constructor.
Qed.

Section Sorted.

Variables (A : Type) (cmp : A -> A -> Z).

Hypothesis cmp_trans : forall x y z, smaller cmp x y -> smaller cmp y z -> smaller cmp x z.

Lemma insertBy_sorted (x : A) (l : list A) :
  Forall (comparable cmp x) l ->
  StronglySorted (smaller cmp) l -> StronglySorted (smaller cmp) (insertBy cmp x l).
Proof.
  intros Hc Hs. induction Hs as [|y l Hs IH Hall]; simpl.
  - repeat constructor.
  - inversion Hc as [|? ? Hxy Hc']; subst.
    destruct (cmp x y <? 0)%Z eqn:E.
    + apply Z.ltb_lt in E. constructor; [now constructor|].
      rewrite Forall_forall in Hall. constructor; [exact E|].
      apply Forall_forall. intros z Hz. apply cmp_trans with y; [exact E | auto].
    + apply Z.ltb_ge in E. constructor; [auto|].
      rewrite Forall_forall in Hall. apply Forall_forall. intros z Hz.
      apply (Permutation_in _ (insertBy_perm cmp x l)) in Hz. destruct Hz as [<-|Hz].
      * destruct Hxy as [Hxy|Hyx]; [unfold smaller in Hxy; lia | exact Hyx].
      * auto.
Qed.

Lemma sortWith_sorted (l : list A) :
  StronglySorted (comparable cmp) l -> StronglySorted (smaller cmp) (sortWith cmp l).
Proof.
  induction 1 as [|x l Hs IH Hall]; simpl; [constructor|].
  apply insertBy_sorted; [|assumption].
  rewrite Forall_forall in *. intros y Hy. apply Hall.
  now apply (Permutation_in _ (sortWith_perm cmp l)).
Qed.

End Sorted.

(** *** The comparer of [sortBy] at exact numbers *)

Lemma compareAscendingBool_b2z (x y : bool) :
  compareAscendingBool x y = (Z.b2z x - Z.b2z y)%Z.
Proof. destruct x, y; reflexivity. Qed.

Lemma compareAscendingNumber_cases (s s' : option Q) :
  (compareAscendingNumber s s' = (-1)%Z /\ scoreLt s s')
  \/ (compareAscendingNumber s s' = 0%Z /\ scoreEq s s')
  \/ (compareAscendingNumber s s' = 1%Z /\ scoreLt s' s).
Proof.
  unfold compareAscendingNumber, strictEquals.
  destruct s as [x|], s' as [y|]; cbn [js_gt eqb ltb Q_Number scoreLt scoreEq].
  - destruct (Qeq_bool x y) eqn:E.
    + apply Qeq_bool_iff in E. auto.
    + assert (Hne : ~ (x == y)%Q) by (intros Hq; apply Qeq_bool_iff in Hq; congruence).
      rewrite !(proj2 (Qeq_bool_iff _ _) (Qeq_refl _)). cbn [negb orb andb].
      rewrite !orb_false_r.
      destruct (Qltb y x) eqn:E1.
      * apply Qltb_lt in E1. auto.
      * apply Qltb_ge in E1. assert (Hlt : (x < y)%Q) by lra.
        left. split; [|assumption]. apply Qltb_lt in Hlt. now rewrite Hlt.
  - rewrite (proj2 (Qeq_bool_iff _ _) (Qeq_refl _)). simpl. auto.
  - rewrite (proj2 (Qeq_bool_iff _ _) (Qeq_refl _)). simpl. auto.
  - simpl. auto.
Qed.

Lemma scoreLt_asym (s s' : option Q) : scoreLt s s' -> scoreLt s' s -> False.
Proof. destruct s, s'; simpl; try tauto. lra. Qed.

Lemma scoreLt_not_eq (s s' : option Q) : scoreLt s s' -> scoreEq s' s -> False.
Proof. destruct s, s'; simpl; try tauto. lra. Qed.

Lemma scoreEq_not_lt (s s' : option Q) : scoreEq s s' -> scoreLt s s' -> False.
Proof. destruct s, s'; simpl; try tauto. lra. Qed.

Lemma scoreEq_sym (s s' : option Q) : scoreEq s s' -> scoreEq s' s.
Proof. destruct s, s'; simpl; try tauto. lra. Qed.

Lemma scoreEq_trans (s1 s2 s3 : option Q) : scoreEq s1 s2 -> scoreEq s2 s3 -> scoreEq s1 s3.
Proof. destruct s1, s2, s3; simpl; try tauto. lra. Qed.

Lemma scoreLt_trans (s1 s2 s3 : option Q) : scoreLt s1 s2 -> scoreLt s2 s3 -> scoreLt s1 s3.
Proof. destruct s1, s2, s3; simpl; try tauto. lra. Qed.

Lemma scoreLt_eq_l (s1 s2 s3 : option Q) : scoreEq s1 s2 -> scoreLt s2 s3 -> scoreLt s1 s3.
Proof. destruct s1, s2, s3; simpl; try tauto. lra. Qed.

Lemma scoreLt_eq_r (s1 s2 s3 : option Q) : scoreLt s1 s2 -> scoreEq s2 s3 -> scoreLt s1 s3.
Proof. destruct s1, s2, s3; simpl; try tauto. lra. Qed.

Lemma compareMultiple_lt {A} (a b : Keyed Q A) :
  (compareMultiple a b < 0)%Z <-> keyLt a b.
Proof.
  unfold compareMultiple, keyLt, rankOf.
  destruct (criteria a) as [[a1 a2] a3], (criteria b) as [[b1 b2] b3]. cbn [fst snd].
  rewrite !compareAscendingBool_b2z.
  destruct (compareAscendingNumber_cases a3 b3) as [[E H]|[[E H]|[E H]]]; rewrite E;
    destruct a1, a2, b1, b2; cbn [Z.b2z negb Z.eqb Z.sub Z.add Z.mul Z.opp Z.pos_sub Pos.mul];
    simpl; split; intros Hx; try lia; try tauto; try discriminate;
    first
      [ right; split; [reflexivity|]; right; split; [assumption | lia]
      | destruct Hx as [Hx|[_ [Hx|[Hx Hi]]]];
        [ lia
        | exfalso; eauto using scoreLt_asym, scoreEq_not_lt, scoreLt_not_eq
        | first [ lia | exfalso; eauto using scoreLt_asym, scoreEq_not_lt, scoreLt_not_eq ] ] ].
Qed.

Lemma keyLt_irrefl {A} (a : Keyed Q A) : ~ keyLt a a.
Proof.
  unfold keyLt. intros [H|[_ [H|[_ H]]]]; try lia.
  destruct (snd (criteria a)); simpl in H; [lra | assumption].
Qed.

Lemma keyLt_trans {A} (a b c : Keyed Q A) : keyLt a b -> keyLt b c -> keyLt a c.
Proof.
  unfold keyLt. intros [H1|[E1 H1]] [H2|[E2 H2]]; try (left; lia).
  right. split; [lia|].
  destruct H1 as [H1|[H1 I1]], H2 as [H2|[H2 I2]].
  - left. eauto using scoreLt_trans.
  - left. eauto using scoreLt_eq_r.
  - left. eauto using scoreLt_eq_l.
  - right. split; [eauto using scoreEq_trans | lia].
Qed.

Lemma scoreLt_total (s s' : option Q) : scoreLt s s' \/ scoreEq s s' \/ scoreLt s' s.
Proof.
  destruct s as [x|], s' as [y|]; simpl; auto.
  destruct (Q_dec x y) as [[?|?]|?]; auto.
Qed.

Lemma keyLt_total {A} (a b : Keyed Q A) : index a <> index b -> keyLt a b \/ keyLt b a.
Proof.
  intros Hi. unfold keyLt.
  destruct (Z.lt_trichotomy (rankOf (criteria a)) (rankOf (criteria b))) as [?|[E|?]]; auto.
  destruct (scoreLt_total (snd (criteria a)) (snd (criteria b))) as [?|[Es|?]]; auto.
  destruct (Nat.lt_trichotomy (index a) (index b)) as [?|[?|?]]; [| contradiction |].
  - left. right. split; [assumption|]. right. split; assumption.
  - right. right. split; [congruence|]. right. split; [now apply scoreEq_sym | assumption].
Qed.

Lemma compareMultiple_trans {A} (a b c : Keyed Q A) :
  (compareMultiple a b < 0 -> compareMultiple b c < 0 -> compareMultiple a c < 0)%Z.
Proof. rewrite !compareMultiple_lt. apply keyLt_trans. Qed.

(** *** The keyed list *)

Lemma keyed_value {N A} (crit : A -> bool * bool * option N) (n : nat) (l : list A) :
  map (@value N A) (keyed crit n l) = l.
Proof. revert n. induction l as [|x l IH]; intros n; simpl; [|rewrite IH]; reflexivity. Qed.

Lemma keyed_in {N A} (crit : A -> bool * bool * option N) (n : nat) (l : list A) (k : Keyed N A) :
  In k (keyed crit n l) -> criteria k = crit (value k) /\ n <= index k.
Proof.
  revert n. induction l as [|x l IH]; intros n; simpl; [tauto|].
  intros [<-|Hin]; [simpl; auto|]. destruct (IH _ Hin). split; [assumption | lia].
Qed.

Lemma keyed_index_sorted {N A} (crit : A -> bool * bool * option N) (n : nat) (l : list A) :
  StronglySorted (fun a b => index a < index b) (keyed crit n l).
Proof.
  revert n. induction l as [|x l IH]; intros n; simpl; constructor; [apply IH|].
  apply Forall_forall. intros k Hk. apply keyed_in in Hk. simpl. lia.
Qed.

Lemma StronglySorted_filter {A} (R : A -> A -> Prop) (p : A -> bool) (l : list A) :
  StronglySorted R l -> StronglySorted R (filter p l).
Proof.
  induction 1 as [|x l Hs IH Hall]; simpl; [constructor|].
  destruct (p x); [|assumption]. constructor; [assumption|].
  rewrite Forall_forall in *. intros y Hy. apply filter_In in Hy. apply Hall. tauto.
Qed.

Lemma StronglySorted_weaken {A} (R R' : A -> A -> Prop) (l : list A) :
  (forall x y, In x l -> In y l -> R x y -> R' x y) ->
  StronglySorted R l -> StronglySorted R' l.
Proof.
  intros Hw Hs. induction Hs as [|x l Hs IH Hall]; constructor.
  - apply IH. intros; apply Hw; simpl; auto.
  - rewrite Forall_forall in *. intros y Hy. apply Hw; simpl; auto.
Qed.

(** Two lists with the same elements, both in strictly increasing order
    of a key, are the same list. *)
Lemma sorted_perm_eq {A} (key : A -> nat) (l1 l2 : list A) :
  StronglySorted (fun a b => key a < key b) l1 ->
  StronglySorted (fun a b => key a < key b) l2 ->
  Permutation l1 l2 -> l1 = l2.
Proof.
  intros H1. revert l2. induction H1 as [|a l1 Hs1 IH Hall1]; intros l2 H2 Hp.
  - apply Permutation_nil in Hp. now subst.
  - destruct H2 as [|b l2 Hs2 Hall2].
    + apply Permutation_sym, Permutation_nil in Hp. discriminate.
    + rewrite Forall_forall in Hall1, Hall2.
      assert (E : a = b).
      { assert (Ha : In a (b :: l2)) by (apply (Permutation_in _ Hp); now left).
        assert (Hb : In b (a :: l1)) by (apply (Permutation_in _ (Permutation_sym Hp)); now left).
        destruct Ha as [->|Ha]; [reflexivity|].
        destruct Hb as [->|Hb]; [reflexivity|].
        specialize (Hall1 _ Hb). specialize (Hall2 _ Ha). lia. }
      subst b. f_equal. apply IH; [assumption|]. now apply Permutation_cons_inv in Hp.
Qed.

Lemma rankOf_status (pref : FileMap bool) (i : Ranked Q) :
  rankOf (rankingCriteria pref i)
  = match labelStatus pref i with
    | Disliked => 0%Z
    | Unlabelled => 1%Z
    | Liked => 3%Z
    end.
Proof.
  unfold rankOf, rankingCriteria, labelStatus.
  destruct (map_get (file i) pref) as [[|]|]; reflexivity.
Qed.

Lemma StronglySorted_app_intro {A} (R : A -> A -> Prop) (l1 l2 : list A) :
  StronglySorted R l1 -> StronglySorted R l2 ->
  (forall x y, In x l1 -> In y l2 -> R x y) -> StronglySorted R (l1 ++ l2).
Proof.
  induction 1 as [|a l1 Hs IH Hall]; intros H2 Hc; simpl; [assumption|].
  constructor.
  - apply IH; [assumption|]. intros; apply Hc; simpl; auto.
  - apply Forall_app. split; [assumption|].
    apply Forall_forall. intros y Hy. apply Hc; simpl; auto.
Qed.

Lemma StronglySorted_rev {A} (R : A -> A -> Prop) (l : list A) :
  StronglySorted R l -> StronglySorted (fun x y => R y x) (rev l).
Proof.
  induction 1 as [|a l Hs IH Hall]; simpl; [constructor|].
  apply StronglySorted_app_intro; [assumption | repeat constructor |].
  rewrite Forall_forall in Hall. intros x y Hx [<-|[]]. apply Hall. now apply in_rev.
Qed.

Lemma StronglySorted_map {A B} (f : A -> B) (R : B -> B -> Prop) (l : list A) :
  StronglySorted (fun a b => R (f a) (f b)) l -> StronglySorted R (map f l).
Proof.
  induction 1 as [|a l Hs IH Hall]; simpl; constructor; [assumption|].
  rewrite Forall_forall in *. intros y Hy. apply in_map_iff in Hy.
  destruct Hy as (b & <- & Hb). auto.
Qed.

Lemma Permutation_filter {A} (p : A -> bool) (l l' : list A) :
  Permutation l l' -> Permutation (filter p l) (filter p l').
Proof.
  induction 1 as [|x l l' Hp IH|x y l|l l' l'' H1 IH1 H2 IH2]; simpl.
  - constructor.
  - destruct (p x); [now constructor | assumption].
  - destruct (p x), (p y); try reflexivity. apply perm_swap.
  - now transitivity (filter p l').
Qed.

Section Order.

Variables (pref : FileMap bool) (rankings : list (Ranked Q)).

Lemma sorted_keys : StronglySorted keyLt (sortedKeysOf pref rankings).
Proof.
  apply StronglySorted_weaken with (R := smaller (@compareMultiple Q _ (Ranked Q))).
  - intros x y _ _ Hxy. now apply compareMultiple_lt.
  - apply sortWith_sorted.
    + intros x y z. apply compareMultiple_trans.
    + apply StronglySorted_weaken with (2 := keyed_index_sorted (rankingCriteria pref) 0 (rev rankings)).
      intros x y _ _ Hxy. unfold comparable, smaller. rewrite !compareMultiple_lt.
      apply keyLt_total. lia.
Qed.

Lemma S_in (k : Keyed Q (Ranked Q)) :
  In k (sortedKeysOf pref rankings) -> criteria k = rankingCriteria pref (value k).
Proof.
  intros Hin. apply (Permutation_in _ (sortWith_perm _ (keysOf pref rankings))) in Hin.
  now apply keyed_in in Hin.
Qed.

(** The final order, pair by pair, from the keys. *)
Lemma orderRankings_sorted (R : Ranked Q -> Ranked Q -> Prop) :
  (forall a b : Keyed Q (Ranked Q),
      criteria a = rankingCriteria pref (value a) ->
      criteria b = rankingCriteria pref (value b) ->
      keyLt a b -> R (value b) (value a)) ->
  StronglySorted R (orderRankings pref rankings).
Proof.
  intros HR. unfold orderRankings, sortBy. fold (keysOf pref rankings). fold (sortedKeysOf pref rankings).
  apply (StronglySorted_rev (R := fun x y => R y x)).
  apply StronglySorted_map.
  apply StronglySorted_weaken with (2 := sorted_keys).
  intros a b Ha Hb Hab. apply HR; auto using S_in.
Qed.

Lemma orderRankings_perm : Permutation (orderRankings pref rankings) rankings.
Proof.
  unfold orderRankings, sortBy. rewrite <- Permutation_rev.
  rewrite (Permutation_map _ (sortWith_perm _ _)), keyed_value.
  apply Permutation_sym, Permutation_rev.
Qed.

(** Images that the criteria do not tell apart keep their order. *)
Lemma orderRankings_stable (p : Ranked Q -> bool) :
  (forall x y, p x = true -> p y = true ->
     rankOf (rankingCriteria pref x) = rankOf (rankingCriteria pref y)
     /\ scoreEq (scoreFinal x) (scoreFinal y)) ->
  filter p (orderRankings pref rankings) = filter p rankings.
Proof.
  intros Hp. unfold orderRankings, sortBy. fold (keysOf pref rankings). fold (sortedKeysOf pref rankings).
  assert (E : filter (fun k => p (value k)) (sortedKeysOf pref rankings) = filter (fun k => p (value k)) (keysOf pref rankings)).
  { apply sorted_perm_eq with (key := @index Q (Ranked Q)).
    - apply StronglySorted_weaken with (R := keyLt);
        [|apply StronglySorted_filter, sorted_keys].
      intros a b Ha Hb Hab. apply filter_In in Ha, Hb. destruct Ha as [Ha Pa], Hb as [Hb Pb].
      destruct (Hp _ _ Pa Pb) as [Er Es].
      rewrite <- (S_in _ Ha), <- (S_in _ Hb) in Er.
      assert (Es' : scoreEq (snd (criteria a)) (snd (criteria b))).
      { rewrite (S_in _ Ha), (S_in _ Hb). exact Es. }
      destruct Hab as [Hlt|[_ [Hlt|[_ Hlt]]]]; [lia | | assumption].
      exfalso. eapply scoreEq_not_lt; eauto.
    - apply StronglySorted_filter, keyed_index_sorted.
    - apply Permutation_filter, sortWith_perm. }
  rewrite filter_rev, filter_map_swap, E, <- filter_map_swap.
  unfold keysOf. rewrite keyed_value, filter_rev. apply rev_involutive.
Qed.

End Order.

Lemma orderRankings_rankedBefore (imagePreference : FileMap bool)
    (rankings : list (Ranked Q)) :
  StronglySorted (rankedBefore imagePreference) (orderRankings imagePreference rankings).
Proof.
  apply orderRankings_sorted. intros a b Ea Eb Hlt. unfold rankedBefore.
  unfold keyLt in Hlt. rewrite Ea, Eb, !rankOf_status in Hlt. cbn [snd rankingCriteria] in Hlt.
  split.
  - destruct (labelStatus imagePreference (value a)), (labelStatus imagePreference (value b));
      simpl; try lia; destruct Hlt as [?|[? _]]; lia.
  - intros Es sx sy Hx Hy. rewrite Es in Hlt. rewrite Hx, Hy in Hlt.
    destruct Hlt as [?|[_ [Hlt|[Hlt _]]]]; [lia | |]; simpl in Hlt; lra.
Qed.

Lemma orderRankings_unscoredFirst (imagePreference : FileMap bool)
    (rankings : list (Ranked Q)) :
  StronglySorted (unscoredFirst imagePreference) (orderRankings imagePreference rankings).
Proof.
  apply orderRankings_sorted. intros a b Ea Eb Hlt. unfold unscoredFirst.
  intros Es Hy. unfold keyLt in Hlt.
  rewrite Ea, Eb, !rankOf_status in Hlt. cbn [snd rankingCriteria] in Hlt.
  rewrite Es, Hy in Hlt.
  destruct Hlt as [?|[_ [Hlt|[Hlt _]]]]; [lia | |]; simpl in Hlt; [contradiction|].
  destruct (scoreFinal (value b)); [contradiction | reflexivity].
Qed.

Lemma orderRankings_unscored_stable (imagePreference : FileMap bool)
    (rankings : list (Ranked Q)) (s : LabelStatus) :
  filter (unscoredWith imagePreference s) (orderRankings imagePreference rankings)
  = filter (unscoredWith imagePreference s) rankings.
Proof.
  apply orderRankings_stable. intros x y Px Py.
  unfold unscoredWith in Px, Py. rewrite !rankOf_status.
  destruct (scoreFinal x); [discriminate|]. destruct (scoreFinal y); [discriminate|].
  apply Nat.eqb_eq in Px, Py. split; [|exact I].
  destruct (labelStatus imagePreference x), (labelStatus imagePreference y), s;
    simpl in *; try lia; reflexivity.
Qed.

(** [imagesWithRankings] ranks the images in their order. *)
Lemma imagesWithRankings_files {N} `{Number N} `{Sqrt N} (images : list File)
    (pref : FileMap bool) (emb : FileMap (Embedding N)) (preds : option (FileMap N))
    (method : SortingMethod) (rankings : list (Ranked N)) :
  imagesWithRankings images pref emb preds method = Some rankings ->
  map (@file N) rankings = images.
Proof.
  unfold imagesWithRankings. revert rankings.
  induction images as [|f images IH]; intros rankings; cbn [mapExc].
  - intros E. inversion E. reflexivity.
  - destruct (score pref emb f) as [sc|]; [|discriminate].
    destruct (mapExc _ images) as [rest|]; [|discriminate].
    cbn [option_map]. intros E. inversion E; subst. cbn [map file]. f_equal. now apply IH.
Qed.


(** *** The coarse order of a sort, for every number type *)

Section Coarse.

Variables (A : Type) (cmp : A -> A -> Z) (g : A -> Z) (P : A -> Prop).

Hypothesis cmp_group : forall x y, P x -> P y -> (g x < g y)%Z ->
  (cmp x y < 0)%Z /\ ~ (cmp y x < 0)%Z.

Lemma insertBy_grouped (x : A) (l : list A) :
  P x -> Forall P l ->
  StronglySorted (fun a b => (g a <= g b)%Z) l ->
  StronglySorted (fun a b => (g a <= g b)%Z) (insertBy cmp x l).
Proof.
  intros Px HP Hs. induction Hs as [|y l Hs IH Hall]; cbn [insertBy].
  - repeat constructor.
  - inversion HP as [|? ? Py HP']; subst.
    destruct (cmp x y <? 0)%Z eqn:E.
    + apply Z.ltb_lt in E.
      assert (Hxy : (g x <= g y)%Z).
      { destruct (Z_lt_le_dec (g y) (g x)) as [Hlt|Hle]; [|exact Hle].
        destruct (cmp_group Py Px Hlt) as [_ Hn]. contradiction. }
      constructor; [now constructor|].
      rewrite Forall_forall in Hall. constructor; [exact Hxy|].
      apply Forall_forall. intros z Hz. specialize (Hall z Hz). lia.
    + apply Z.ltb_ge in E.
      assert (Hyx : (g y <= g x)%Z).
      { destruct (Z_lt_le_dec (g x) (g y)) as [Hlt|Hle]; [|exact Hle].
        destruct (cmp_group Px Py Hlt) as [Hc _]. lia. }
      constructor; [now apply IH|].
      rewrite Forall_forall in Hall. apply Forall_forall. intros z Hz.
      apply (Permutation_in _ (insertBy_perm cmp x l)) in Hz.
      destruct Hz as [<-|Hz]; [exact Hyx | auto].
Qed.

Lemma sortWith_grouped (l : list A) :
  Forall P l -> StronglySorted (fun a b => (g a <= g b)%Z) (sortWith cmp l).
Proof.
  induction 1 as [|x l Px HP IH]; cbn [sortWith fold_right]; [constructor|].
  apply insertBy_grouped; [exact Px | | exact IH].
  apply Forall_forall. intros y Hy.
  apply (Permutation_in _ (sortWith_perm cmp l)) in Hy.
  rewrite Forall_forall in HP. auto.
Qed.

(** The elements of a class that the comparer orders by position keep
    their order. *)
Variables (p : A -> bool) (pos : A -> nat).

Hypothesis cmp_class : forall x y, p x = true -> p y = true -> pos x < pos y ->
  (cmp x y < 0)%Z.

Lemma insertBy_class_head (x : A) (l : list A) :
  p x = true -> (forall y, In y l -> pos x < pos y) ->
  filter p (insertBy cmp x l) = x :: filter p l.
Proof.
  intros Px Hpos. induction l as [|y l IH]; cbn [insertBy filter].
  - now rewrite Px.
  - destruct (cmp x y <? 0)%Z eqn:E.
    + cbn [filter]. now rewrite Px.
    + apply Z.ltb_ge in E. cbn [filter].
      destruct (p y) eqn:Py.
      * pose proof (cmp_class Px Py (Hpos y (or_introl eq_refl))). lia.
      * apply IH. intros z Hz. apply Hpos. now right.
Qed.

Lemma insertBy_class_other (x : A) (l : list A) :
  p x = false -> filter p (insertBy cmp x l) = filter p l.
Proof.
  intros Px. induction l as [|y l IH]; cbn [insertBy filter].
  - now rewrite Px.
  - destruct (cmp x y <? 0)%Z; cbn [filter]; [now rewrite Px|].
    now rewrite IH.
Qed.

Lemma sortWith_class (l : list A) :
  StronglySorted (fun a b => pos a < pos b) l ->
  filter p (sortWith cmp l) = filter p l.
Proof.
  induction 1 as [|x l Hs IH Hall]; cbn [sortWith fold_right]; [reflexivity|].
  fold (sortWith cmp l). cbn [filter]. destruct (p x) eqn:Px.
  - rewrite insertBy_class_head; [now rewrite IH | exact Px |].
    intros y Hy. apply (Permutation_in _ (sortWith_perm cmp l)) in Hy.
    rewrite Forall_forall in Hall. auto.
  - rewrite insertBy_class_other by exact Px. exact IH.
Qed.

End Coarse.

Section AnyNumber.

Context {N : Type} `{Number N}.

(** [compareAscending] of a number that is not [NaN] and [undefined]. *)
Lemma compareAscendingNumber_undefined (x : N) :
  eqb x x = true ->
  compareAscendingNumber (Some x) None = (-1)%Z
  /\ compareAscendingNumber None (Some x) = 1%Z.
Proof.
  intros E. unfold compareAscendingNumber, strictEquals. cbn [js_gt]. rewrite E.
  split; reflexivity.
Qed.

Lemma compareMultiple_group {A} (a b : Keyed N A) :
  isReflexive (snd (criteria a)) = true -> isReflexive (snd (criteria b)) = true ->
  (groupOf (criteria a) < groupOf (criteria b))%Z ->
  (compareMultiple a b < 0)%Z /\ ~ (compareMultiple b a < 0)%Z.
Proof.
  unfold compareMultiple, groupOf.
  destruct (criteria a) as [[a1 a2] a3], (criteria b) as [[b1 b2] b3]. cbn [fst snd].
  intros Ra Rb Hlt.
  destruct a1, a2, b1, b2; cbn [Z.b2z] in Hlt;
    cbn [compareAscendingBool Bool.eqb andb negb Z.eqb];
    try (split; lia);
    try (exfalso; destruct a3, b3; lia);
    (destruct a3 as [x|], b3 as [y|]; try (exfalso; lia);
     cbn [isReflexive] in Ra;
     destruct (compareAscendingNumber_undefined x Ra) as [E1 E2];
     rewrite E1, E2; cbn [Z.eqb negb]; split; lia).
Qed.

Lemma compareMultiple_unscored {A} (a b : Keyed N A) :
  fst (criteria a) = fst (criteria b) ->
  snd (criteria a) = None -> snd (criteria b) = None ->
  index a < index b -> (compareMultiple a b < 0)%Z.
Proof.
  unfold compareMultiple.
  destruct (criteria a) as [[a1 a2] a3], (criteria b) as [[b1 b2] b3]. cbn [fst snd].
  intros E -> ->. inversion E; subst. intros Hi.
  assert (Hb : forall x, compareAscendingBool x x = 0%Z) by (intros []; reflexivity).
  rewrite !Hb. cbn [Z.eqb negb]. unfold compareAscendingNumber. cbn. lia.
Qed.

Section OrderOfAnyNumber.

Variables (pref : FileMap bool) (rankings : list (Ranked N)).

Lemma sorted_criteria (k : Keyed N (Ranked N)) :
  In k (sortedKeysOf pref rankings) -> criteria k = rankingCriteria pref (value k).
Proof.
  intros Hin. apply (Permutation_in _ (sortWith_perm _ (keysOf pref rankings))) in Hin.
  now apply keyed_in in Hin.
Qed.

Lemma keys_withoutNaN :
  withoutNaN rankings ->
  Forall (fun k => isReflexive (snd (criteria k)) = true) (keysOf pref rankings).
Proof.
  intros Hn. apply Forall_forall. intros k Hk.
  assert (Hv : In (value k) rankings).
  { apply in_rev. rewrite <- (keyed_value (rankingCriteria pref) 0 (rev rankings)).
    now apply in_map. }
  apply keyed_in in Hk. destruct Hk as [-> _]. cbn [rankingCriteria snd].
  unfold withoutNaN in Hn. rewrite Forall_forall in Hn. auto.
Qed.

Lemma sorted_grouped :
  withoutNaN rankings ->
  StronglySorted (fun a b => (groupOf (criteria a) <= groupOf (criteria b))%Z)
                 (sortedKeysOf pref rankings).
Proof.
  intros Hn.
  apply (@sortWith_grouped _ compareMultiple (fun k => groupOf (criteria k))
           (fun k => isReflexive (snd (criteria k)) = true)).
  - intros x y Px Py. now apply compareMultiple_group.
  - now apply keys_withoutNaN.
Qed.

Lemma groupOf_status (i : Ranked N) :
  groupOf (rankingCriteria pref i)
  = (2 * match labelStatus pref i with
         | Disliked => 0
         | Unlabelled => 1
         | Liked => 3
         end
     + match scoreFinal i with Some _ => 0 | None => 1 end)%Z.
Proof.
  unfold groupOf, rankingCriteria, labelStatus. cbn [fst snd].
  destruct (map_get (file i) pref) as [[|]|]; reflexivity.
Qed.

(** Without a [NaN], an image without a score stands before the images
    of its label that have one. *)
Lemma orderRankings_unscored_before :
  withoutNaN rankings ->
  StronglySorted (unscoredFirst pref) (orderRankings pref rankings).
Proof.
  intros Hn. unfold orderRankings, sortBy.
  fold (keysOf pref rankings). fold (sortedKeysOf pref rankings).
  apply (StronglySorted_rev (R := fun x y => unscoredFirst pref y x)).
  apply StronglySorted_map.
  apply StronglySorted_weaken with (2 := sorted_grouped Hn).
  intros a b Ha Hb Hab.
  rewrite (sorted_criteria a Ha), (sorted_criteria b Hb), !groupOf_status in Hab.
  unfold unscoredFirst. intros Es Hy. rewrite Es, Hy in Hab.
  destruct (scoreFinal (value b)); [|reflexivity].
  destruct (labelStatus pref (value a)); lia.
Qed.

(** The images of a label that have no score keep their order. *)
Lemma orderRankings_unscored_order (s : LabelStatus) :
  filter (unscoredWith pref s) (orderRankings pref rankings)
  = filter (unscoredWith pref s) rankings.
Proof.
  unfold orderRankings, sortBy.
  fold (keysOf pref rankings). fold (sortedKeysOf pref rankings).
  set (code := match s with Disliked => 0 | Unlabelled => 1 | Liked => 3 end%Z).
  set (q := fun k : Keyed N (Ranked N) =>
              match snd (criteria k) with
              | Some _ => false
              | None => (2 * Z.b2z (fst (fst (criteria k))) + Z.b2z (snd (fst (criteria k)))
                         =? code)%Z
              end).
  assert (Eq : forall l, (forall k, In k l -> In k (keysOf pref rankings)) ->
             filter (fun k => unscoredWith pref s (value k)) l = filter q l).
  { intros l Hl. apply filter_ext_in. intros k Hk.
    apply Hl, keyed_in in Hk. destruct Hk as [Ek _].
    unfold q, code, unscoredWith. rewrite Ek. cbn [rankingCriteria fst snd].
    destruct (scoreFinal (value k)); [reflexivity|]. unfold labelStatus.
    destruct (map_get (file (value k)) pref) as [[|]|], s; reflexivity. }
  assert (E : filter (fun k => unscoredWith pref s (value k)) (sortedKeysOf pref rankings)
              = filter (fun k => unscoredWith pref s (value k)) (keysOf pref rankings)).
  { rewrite (Eq (sortedKeysOf pref rankings)), (Eq (keysOf pref rankings)); [|auto|].
    - apply (@sortWith_class _ compareMultiple q (@index N (Ranked N))).
      + intros x y Qx Qy Hi. unfold q in Qx, Qy.
        destruct (snd (criteria x)) eqn:Ex; [discriminate|].
        destruct (snd (criteria y)) eqn:Ey; [discriminate|].
        apply Z.eqb_eq in Qx, Qy.
        apply compareMultiple_unscored; auto.
        destruct (criteria x) as [[x1 x2] x3], (criteria y) as [[y1 y2] y3].
        cbn [fst snd] in *.
        destruct x1, x2, y1, y2; cbn [Z.b2z] in Qx, Qy; try lia; reflexivity.
      + apply keyed_index_sorted.
    - intros k Hk.
      exact (Permutation_in _ (sortWith_perm compareMultiple (keysOf pref rankings)) Hk). }
  rewrite filter_rev, filter_map_swap, E, <- filter_map_swap.
  unfold keysOf. rewrite keyed_value, filter_rev. apply rev_involutive.
Qed.

End OrderOfAnyNumber.

End AnyNumber.

(** An exact number is never [NaN]. *)
Lemma exact_scores_withoutNaN (rankings : list (Ranked Q)) : withoutNaN rankings.
Proof.
  apply Forall_forall. intros i _. destruct (scoreFinal i) as [x|]; [|reflexivity].
  apply Qeq_bool_iff. reflexivity.
Qed.

(** C1, as the code orders, for every number type, binary64 included:
    when no score is [NaN], among images of the same label an image
    without a score stands before every image that has one, and the
    images without a score keep the order they had in [images];
    [imagesSorted] returns this order of the images it has ranked. *)
Theorem unscored_first_in_original_order {N} `{Number N} (imagePreference : FileMap bool)
    (rankings : list (Ranked N)) :
  withoutNaN rankings ->
  StronglySorted (unscoredFirst imagePreference) (orderRankings imagePreference rankings)
  /\ (forall s,
        filter (unscoredWith imagePreference s) (orderRankings imagePreference rankings)
        = filter (unscoredWith imagePreference s) rankings)
  /\ forall (sqrtN : Sqrt N) (images : list File)
        (imagesWithEmbeddings : FileMap (Embedding N))
        (imageForestPredictions : option (FileMap N)) (sortingMethod : SortingMethod),
       imagesWithRankings images imagePreference imagesWithEmbeddings
         imageForestPredictions sortingMethod = Some rankings ->
       imagesSorted images imagePreference imagesWithEmbeddings
         imageForestPredictions sortingMethod
       = Some (orderRankings imagePreference rankings)
       /\ map (@file N) rankings = images.
Proof.
  intros Hn. split; [now apply orderRankings_unscored_before|].
  split; [apply orderRankings_unscored_order|].
  intros sqrtN images emb preds method E. unfold imagesSorted. rewrite E.
  split; [reflexivity|]. exact (imagesWithRankings_files _ _ _ _ _ E).
Qed.

Lemma unscored_first_in_original_order_witness :
  exists rankings,
    imagesWithRankings [0; 1; 2; 3; 4] fivePreferences fiveImages None cosine = Some rankings
    /\ withoutNaN rankings
    /\ map (@file _) (orderRankings fivePreferences rankings) = [0; 1; 4; 3; 2]
    /\ StronglySorted (unscoredFirst fivePreferences) (orderRankings fivePreferences rankings).
Proof.
  eexists. split; [vm_compute; reflexivity|].
  match goal with
  | |- withoutNaN ?r /\ _ =>
      assert (Hn : withoutNaN r)
        by (repeat (constructor; [vm_compute; reflexivity|]); constructor)
  end.
  split; [exact Hn|]. split; [vm_compute; reflexivity|].
  exact (proj1 (unscored_first_in_original_order fivePreferences Hn)).
Defined.

(** C1 as stated fails: of two unlabelled images, the one without a
    score is placed first; so does [imagesSorted] on an image with an
    embedding and one without. *)
Lemma unscored_precedes_scored :
  orderRankings [] [ranked 0 (Some 1%Q); ranked 1 None] = [ranked 1 None; ranked 0 (Some 1%Q)]
  /\ option_map (map (fun i => (file i, scoreFinal i)))
       (imagesSorted [0; 1] [] [(0, Efloat PrimFloat.one PrimFloat.zero)] None cosine)
     = Some [(1, None); (0, Some PrimFloat.zero)].
Proof. split; vm_compute; reflexivity. Qed.

(** With a [NaN] the order is another one.  [cosineSimilarity] divides
    by the norms, so an embedding of norm 0 has the score [NaN];
    [compareAscending] puts [NaN] after [undefined], and the final
    [reverse] brings it to the front: the image with the [NaN] score
    stands before the image without a score, which stands before the
    image with a number. *)
Example nan_score_precedes_unscored :
  option_map (map (fun i => (file i, scoreKind (scoreFinal i))))
    (imagesSorted [3; 2; 1; 0] [(0, true)] zeroNormImages None cosine)
  = Some [(0, NumberScore); (1, NaNScore); (2, UndefinedScore); (3, NumberScore)].
Proof. vm_compute. reflexivity. Qed.

End OrderFacts.

(** ** The embedding coordinator *)

Module CoordinatorFacts.

Import Spec Ranking Coordinator.

Section Facts.

Variable Emb : Type.

Lemma nth_error_replace_same {A} (k : nat) (x : A) (l : list A) :
  k < length l -> nth_error (replace k x l) k = Some x.
Proof.
  revert k. induction l as [|y l IH]; intros [|k] Hk; simpl in *; try lia; auto.
  apply IH. lia.
Qed.

Lemma nth_error_replace_other {A} (k j : nat) (x : A) (l : list A) :
  j <> k -> nth_error (replace k x l) j = nth_error l j.
Proof.
  revert k j. induction l as [|y l IH]; intros [|k] [|j] Hne; simpl; auto; try congruence.
Qed.

Lemma length_replace {A} (k : nat) (x : A) (l : list A) : length (replace k x l) = length l.
Proof. revert k. induction l as [|y l IH]; intros [|k]; simpl; auto. Qed.

(** What one event other than a restart does: it rewrites one run,
    keeping its images and its [aborted] and never clearing [rejected];
    the published map changes only when a run that is neither aborted
    nor rejected publishes. *)
Lemma step_run (s s' : State Emb) (ev : Event Emb) :
  isRestart ev = false -> step s ev = Some s' ->
  exists k r r',
    runOf ev = Some k /\ nth_error (runs s) k = Some r
    /\ runs s' = replace k r' (runs s)
    /\ runImages r' = runImages r /\ aborted r' = aborted r
    /\ (rejected r = true -> rejected r' = true)
    /\ (forall i x, In (i, Some x) (results r') ->
          In (i, Some x) (results r) \/ In (fst x) (runImages r))
    /\ (forall x, In x (results r) -> In x (results r'))
    /\ (imagesWithEmbeddings s' = imagesWithEmbeddings s
        \/ (ev = Publish k /\ aborted r = false /\ rejected r = false
            /\ imagesWithEmbeddings s' = mapOfEntries (compactResults r))).
Proof.
  intros Hr Hs. destruct ev as [images e|k|k i e|k i|k]; [discriminate| | | |]; unfold step in Hs.
  - destruct (nth_error (runs s) k) as [r|] eqn:Er; [|discriminate].
    destruct (nth_error (runImages r) (next r)); [|discriminate].
    destruct (rejected r || (concurrency <=? length (inFlight r))); [discriminate|].
    inversion Hs; subst; clear Hs.
    eexists k, r, _. split; [reflexivity|]. split; [exact Er|]. split; [reflexivity|].
    destruct (aborted r || negb (hasEmbedder r)); cbn [runImages aborted rejected results imagesWithEmbeddings].
    + repeat split; auto.
      * intros i x [Hin|Hin]; [discriminate | auto].
      * intros x Hin. now right.
    + repeat split; auto.
  - destruct (nth_error (runs s) k) as [r|] eqn:Er; [|discriminate].
    destruct (nth_error (runImages r) i) as [file|] eqn:Ef; [|discriminate].
    destruct (negb (existsb (Nat.eqb i) (inFlight r))); [discriminate|].
    inversion Hs; subst; clear Hs.
    eexists k, r, _. split; [reflexivity|]. split; [exact Er|]. split; [reflexivity|].
    cbn [runImages aborted rejected results imagesWithEmbeddings].
    repeat split; auto.
    + intros j x [Hin|Hin]; [|auto]. right. destruct (aborted r); [discriminate|].
      inversion Hin; subst. simpl. eapply nth_error_In; eauto.
    + intros x Hin. now right.
  - destruct (nth_error (runs s) k) as [r|] eqn:Er; [|discriminate].
    destruct (negb (existsb (Nat.eqb i) (inFlight r))); [discriminate|].
    inversion Hs; subst; clear Hs.
    eexists k, r, _. split; [reflexivity|]. split; [exact Er|]. split; [reflexivity|].
    cbn [runImages aborted rejected results imagesWithEmbeddings].
    repeat split; auto.
  - destruct (nth_error (runs s) k) as [r|] eqn:Er; [|discriminate].
    destruct (settled r || rejected r || negb (next r =? length (runImages r))
              || negb (length (inFlight r) =? 0)) eqn:G; [discriminate|].
    inversion Hs; subst; clear Hs.
    apply orb_false_iff in G. destruct G as [G _].
    apply orb_false_iff in G. destruct G as [G _].
    apply orb_false_iff in G. destruct G as [_ G].
    eexists k, r, _. split; [reflexivity|]. split; [exact Er|]. split; [reflexivity|].
    cbn [runImages aborted rejected results imagesWithEmbeddings].
    repeat split; auto.
    destruct (aborted r) eqn:Ea; [left; reflexivity|]. right. auto.
Qed.

Lemma Inv_initial : Inv (@initial Emb).
Proof.
  split; intros k r; simpl; destruct k; discriminate.
Qed.

Lemma length_abortLast (rs : list (Run Emb)) : length (abortLast rs) = length rs.
Proof.
  induction rs as [|r [|r' rs] IH]; simpl in *; auto.
Qed.

Lemma nth_error_abortLast (rs : list (Run Emb)) (k : nat) (r' : Run Emb) :
  nth_error (abortLast rs) k = Some r' ->
  exists r, nth_error rs k = Some r
    /\ runImages r' = runImages r /\ results r' = results r
    /\ (aborted r' = true \/ (r' = r /\ S k < length rs)).
Proof.
  revert k. induction rs as [|r0 [|r1 rs] IH]; intros k Hk.
  - destruct k; discriminate.
  - destruct k as [|k]; [|destruct k; discriminate].
    simpl in Hk. inversion Hk; subst. exists r0. simpl. auto.
  - destruct k as [|k].
    + simpl in Hk. inversion Hk; subst. exists r'. simpl. split; [reflexivity|].
      split; [reflexivity|]. split; [reflexivity|]. right. split; [reflexivity | lia].
    + change (nth_error (abortLast (r1 :: rs)) k = Some r') in Hk.
      destruct (IH _ Hk) as (r & E & Hi & Hres & Ha). exists r.
      split; [exact E|]. split; [assumption|]. split; [assumption|].
      destruct Ha as [?|[-> Hlt]]; [auto|]. right. split; [reflexivity|]. simpl in *. lia.
Qed.

Lemma Inv_step (s s' : State Emb) (ev : Event Emb) :
  Inv s -> step s ev = Some s' -> Inv s'.
Proof.
  intros [Ho Hr] Hs. destruct (isRestart ev) eqn:Er.
  - destruct ev as [images e| | | |]; try discriminate. simpl in Hs.
    inversion Hs; subst; clear Hs. split.
    + intros k r Hk Hlt. simpl in *. rewrite length_app, length_abortLast in Hlt. simpl in Hlt.
      rewrite nth_error_app1 in Hk by (rewrite length_abortLast; lia).
      destruct (@nth_error_abortLast _ _ _ Hk) as (r0 & E & _ & _ & [Ha|[-> Hl]]); [assumption|].
      eapply Ho; eauto.
    + intros k r i x Hk Hin. simpl in Hk.
      destruct (Nat.lt_ge_cases k (length (abortLast (runs s)))) as [Hlt|Hge].
      * rewrite nth_error_app1 in Hk by assumption.
        destruct (@nth_error_abortLast _ _ _ Hk) as (r0 & E & Hi & Hres & _).
        rewrite Hi. rewrite Hres in Hin. eapply Hr; eauto.
      * rewrite nth_error_app2 in Hk by assumption.
        destruct (k - length (abortLast (runs s))) as [|[|n]]; simpl in Hk; try discriminate.
        inversion Hk; subst. simpl in Hin. contradiction.
  - destruct (@step_run _ _ _ Er Hs) as (k & r & r' & _ & Ek & Eruns & Hi & Ha & _ & Hres & _ & _).
    assert (Hk : k < length (runs s)) by (apply nth_error_Some; congruence).
    split.
    + intros j rj Hj Hlt. rewrite Eruns in Hj, Hlt. rewrite length_replace in Hlt.
      destruct (Nat.eq_dec j k) as [->|Hne].
      * rewrite nth_error_replace_same in Hj by assumption. inversion Hj; subst.
        rewrite Ha. eapply Ho; eauto.
      * rewrite nth_error_replace_other in Hj by assumption. eapply Ho; eauto.
    + intros j rj i x Hj Hin. rewrite Eruns in Hj.
      destruct (Nat.eq_dec j k) as [->|Hne].
      * rewrite nth_error_replace_same in Hj by assumption. inversion Hj; subst.
        rewrite Hi. destruct (Hres _ _ Hin) as [Hin'|?]; [|assumption]. eapply Hr; eauto.
      * rewrite nth_error_replace_other in Hj by assumption. eapply Hr; eauto.
Qed.

Lemma Inv_history (evs : list (Event Emb)) (s s' : State Emb) :
  Inv s -> history s evs = Some s' -> Inv s'.
Proof.
  revert s. induction evs as [|ev evs IH]; intros s Hi Hh; cbn [history] in Hh.
  - inversion Hh; subst. assumption.
  - destruct (step s ev) as [s1|] eqn:Es; [|discriminate].
    eapply IH; [|eassumption]. eapply Inv_step; eauto.
Qed.

Lemma map_set_in {V} (f f' : File) (v v' : V) (m : FileMap V) :
  In (f, v) (map_set f' v' m) -> (f, v) = (f', v') \/ In (f, v) m.
Proof.
  induction m as [|[g w] m IH]; simpl.
  - intros [E|[]]. auto.
  - destruct (f' =? g); simpl; intros [E|Hin]; auto. destruct (IH Hin); auto.
Qed.

Lemma mapOfEntries_in {V} (f : File) (v : V) (entries : list (File * V)) :
  In (f, v) (mapOfEntries entries) -> In (f, v) entries.
Proof.
  unfold mapOfEntries.
  assert (G : forall m, In (f, v) (fold_left (fun m e => map_set (fst e) (snd e) m) entries m) ->
                        In (f, v) m \/ In (f, v) entries).
  { induction entries as [|[g w] l IH]; intros m; simpl; [auto|].
    intros Hin. destruct (IH _ Hin) as [H1|H1]; [|auto].
    apply map_set_in in H1. destruct H1 as [E|?]; [|auto]. inversion E; subst. auto. }
  intros Hin. destruct (G _ Hin) as [[]|?]. assumption.
Qed.

Lemma obj_get_in {V} (k : nat) (v : V) (o : Obj V) : obj_get k o = Some v -> In (k, v) o.
Proof.
  induction o as [|[k' v'] o IH]; simpl; [discriminate|].
  destruct (k =? k') eqn:E; [|auto]. apply Nat.eqb_eq in E. intros H; inversion H; subst. auto.
Qed.

Lemma compactResults_in (r : Run Emb) (x : File * Emb) :
  In x (compactResults r) -> exists i, In (i, Some x) (results r).
Proof.
  unfold compactResults. rewrite in_flat_map. intros (i & _ & Hin).
  destruct (obj_get i (results r)) as [[y|]|] eqn:E; try contradiction.
  destruct Hin as [<-|[]]. exists i. now apply obj_get_in.
Qed.

(** After a restart for [images]: whatever else happens before the next
    restart, the published map is the one from before or is made of
    results of the new run. *)
Lemma after_restart (kB : nat) (images : list File) (before : FileMap Emb)
    (evs : list (Event Emb)) (s s' : State Emb) :
  Inv s -> length (runs s) = S kB ->
  (exists r, nth_error (runs s) kB = Some r /\ runImages r = images) ->
  (imagesWithEmbeddings s = before
   \/ forall f e, In (f, e) (imagesWithEmbeddings s) ->
        In f images
        /\ exists r i, nth_error (runs s) kB = Some r /\ runImages r = images
                       /\ In (i, Some (f, e)) (results r)) ->
  noRestart evs = true -> history s evs = Some s' ->
  imagesWithEmbeddings s' = before
  \/ forall f e, In (f, e) (imagesWithEmbeddings s') ->
       In f images
       /\ exists r i, nth_error (runs s') kB = Some r /\ runImages r = images
                      /\ In (i, Some (f, e)) (results r).
Proof.
  revert s. induction evs as [|ev evs IH]; intros s Hinv Hlen Hrun Hpub Hno Hh; cbn [history] in Hh.
  - inversion Hh; subst. assumption.
  - simpl in Hno. apply andb_true_iff in Hno. destruct Hno as [Hev Hno].
    apply negb_true_iff in Hev.
    destruct (step s ev) as [s1|] eqn:Es; [|discriminate].
    pose proof (@Inv_step _ _ _ Hinv Es) as Hinv1.
    destruct (@step_run _ _ _ Hev Es) as (k & r & r' & _ & Ek & Eruns & Hi & Ha & _ & _ & Hmono & Hp).
    assert (Hk : k < length (runs s)) by (apply nth_error_Some; congruence).
    destruct Hrun as (rB & EB & HB).
    apply (IH s1); auto.
    + rewrite Eruns, length_replace. assumption.
    + rewrite Eruns. destruct (Nat.eq_dec kB k) as [->|Hne].
      * rewrite nth_error_replace_same by assumption. exists r'. split; [reflexivity|]. congruence.
      * rewrite nth_error_replace_other by assumption. eauto.
    + destruct Hp as [Hp|(-> & Hab & Hrej & Hp)].
      * rewrite Hp. destruct Hpub as [?|Hpub]; [auto|]. right.
        intros f e Hin. destruct (Hpub f e Hin) as (Hf & r0 & i & E0 & Him & Hin0).
        split; [assumption|]. rewrite Eruns. destruct (Nat.eq_dec kB k) as [->|Hne].
        -- rewrite nth_error_replace_same by assumption. exists r', i. split; [reflexivity|].
           split; [congruence|]. apply Hmono. congruence.
        -- rewrite nth_error_replace_other by assumption. eauto.
      * right. rewrite Hp. intros f e Hin.
        apply mapOfEntries_in, compactResults_in in Hin. destruct Hin as (i & Hin).
        assert (k = kB).
        { destruct (Nat.eq_dec k kB); [assumption|]. destruct Hinv as [Ho _].
          rewrite (Ho k r Ek) in Hab by lia. discriminate. }
        subst k. assert (r = rB) by congruence. subst rB.
        destruct Hinv as [_ Hr]. split; [rewrite <- HB; exact (Hr _ _ _ _ Ek Hin)|].
        rewrite Eruns, nth_error_replace_same by assumption.
        exists r', i. split; [reflexivity|]. split; [congruence|]. now apply Hmono.
Qed.

(** C9. After the effect restarts for a new image set, and until the
    next restart, the published map is either still the one from before
    the restart or holds only images of the new set, each with a result
    of the new run: no result of a superseded run is published. *)
Theorem superseded_results_never_published (evs0 evs : list (Event Emb)) (s0 s' : State Emb)
    (images : list File) (embedders : bool) :
  history initial evs0 = Some s0 ->
  noRestart evs = true ->
  history s0 (Restart images embedders :: evs) = Some s' ->
  imagesWithEmbeddings s' = imagesWithEmbeddings s0
  \/ forall f e, In (f, e) (imagesWithEmbeddings s') ->
       In f images
       /\ exists r i, nth_error (runs s') (length (runs s0)) = Some r
                      /\ runImages r = images
                      /\ In (i, Some (f, e)) (results r).
Proof.
  intros H0 Hno Hh. pose proof (@Inv_history _ _ _ Inv_initial H0) as Hinv.
  change (history s0 (Restart images embedders :: evs))
    with (history {| imagesWithEmbeddings := imagesWithEmbeddings s0; finished := 0;
                     runs := abortLast (runs s0) ++ [newRun images embedders] |} evs) in Hh.
  set (s1 := {| imagesWithEmbeddings := imagesWithEmbeddings s0; finished := 0;
                runs := abortLast (runs s0) ++ [newRun images embedders] |}) in *.
  assert (Hinv1 : Inv s1) by (apply (@Inv_step s0 s1 (Restart images embedders) Hinv); reflexivity).
  assert (Hlen : length (runs s1) = S (length (runs s0))).
  { subst s1. simpl. rewrite length_app, length_abortLast. simpl. lia. }
  assert (Hrun : exists r, nth_error (runs s1) (length (runs s0)) = Some r /\ runImages r = images).
  { exists (newRun images embedders). subst s1. simpl.
    rewrite nth_error_app2 by (rewrite length_abortLast; lia).
    rewrite length_abortLast, Nat.sub_diag. auto. }
  apply (@after_restart (length (runs s0)) images (imagesWithEmbeddings s0) evs s1 s');
    auto.
Qed.



End Facts.



(** Image set [1; 2] superseded by [3] before anything completed. *)
Lemma superseded_results_never_published_witness :
  exists s0 s',
    history initial [Restart [1; 2] true; StartItem 0; StartItem 0] = Some s0
    /\ history s0 [Restart [3] true; Returns 0 0 11; StartItem 1; Returns 1 0 33;
                   Returns 0 1 22; Publish 0; Publish 1] = Some s'
    /\ imagesWithEmbeddings s' = [(3, 33)]
    /\ (imagesWithEmbeddings s' = imagesWithEmbeddings s0
        \/ forall f e, In (f, e) (imagesWithEmbeddings s') -> In f [3]).
Proof.
  eexists. eexists. split; [vm_compute; reflexivity|]. split; [vm_compute; reflexivity|].
  split; [reflexivity|].
  match goal with
  | |- imagesWithEmbeddings ?s' = imagesWithEmbeddings ?s0 \/ _ =>
      destruct (@superseded_results_never_published nat
                  [Restart [1; 2] true; StartItem 0; StartItem 0]
                  [Returns 0 0 11; StartItem 1; Returns 1 0 33; Returns 0 1 22;
                   Publish 0; Publish 1]
                  s0 s' [3] true) as [E|H]
  end; try (vm_compute; reflexivity).
  - left. exact E.
  - right. intros f e Hin. exact (proj1 (H f e Hin)).
Defined.

End CoordinatorFacts.

(** ** Training and its guard *)

Module TrainingFacts.

Import Spec Forest Ranking Orchestrator.

Lemma workerTrain_empty (now : nat) (w : Worker Q) (s : list nat) :
  workerTrain now [] [] w s = Some ({| trainedForest := Some emptyForest |}, now, s).
Proof. reflexivity. Qed.

Lemma emptyForest_predicts_zero (fs : list Q) (c : nat) :
  exists p, workerPredictProba {| trainedForest := Some emptyForest |} fs c = Some p
            /\ (p == 0)%Q.
Proof.
  eexists. split; [reflexivity|]. vm_compute. reflexivity.
Qed.

(** The fetcher trains only when there is a label and every labelled
    image has an embedding. *)
Lemma forestWorkerFetch_guard (now : nat) (images : list File) (pref : FileMap bool)
    (emb : FileMap (Embedding Q)) (method : SortingMethod) (w : Worker Q) (s : list nat) :
  pref = [] \/ (exists file liked, In (file, liked) pref /\ floatEmbeddingOf emb file = None) ->
  forestWorkerFetch now images pref emb method w s = Some (w, None, s).
Proof.
  intros Hg. unfold forestWorkerFetch.
  destruct (length images =? 0); [reflexivity|].
  destruct method; [reflexivity|].
  destruct Hg as [->|(file & liked & Hin & He)]; [reflexivity|].
  destruct (length pref =? 0); [reflexivity|].
  assert (E : existsb (fun i : File * bool * option (list Q) =>
                         match snd i with None => true | Some _ => false end)
                (map (fun entry => (fst entry, snd entry, floatEmbeddingOf emb (fst entry))) pref)
              = true).
  { apply existsb_exists. exists (file, liked, None). split; [|reflexivity].
    apply in_map_iff. exists (file, liked). simpl. rewrite He. auto. }
  rewrite E. reflexivity.
Qed.

(** C3, as the code behaves: with no labelled image that has an
    embedding the page does not call [train], so the worker and its
    forest are unchanged; [train] itself, called on an empty training
    set, installs a forest of leaves with empty distributions, which
    predicts 0. *)
Theorem training_guarded_by_orchestrator (now : nat) (images : list File)
    (imagePreference : FileMap bool) (imagesWithEmbeddings : FileMap (Embedding Q))
    (sortingMethod : SortingMethod) (w : Worker Q) (s : list nat) :
  (forall file liked, In (file, liked) imagePreference ->
     floatEmbeddingOf imagesWithEmbeddings file = None) ->
  forestWorkerFetch now images imagePreference imagesWithEmbeddings sortingMethod w s
  = Some (w, None, s)
  /\ workerTrain now [] [] w s = Some ({| trainedForest := Some emptyForest |}, now, s)
  /\ forall fs c, exists p,
       workerPredictProba {| trainedForest := Some emptyForest |} fs c = Some p /\ (p == 0)%Q.
Proof.
  intros Hno. split; [|split; [apply workerTrain_empty | apply emptyForest_predicts_zero]].
  apply forestWorkerFetch_guard.
  destruct imagePreference as [|[file liked] pref]; [now left|].
  right. exists file, liked. split; [now left|]. apply (Hno file liked). now left.
Qed.

(** C3 as stated fails: a worker trained on one liked image, then
    trained on nothing, holds another forest and answers 0 where it
    answered 1. *)
Lemma train_on_empty_replaces_forest :
  exists w1 w2 p1 p2,
    workerTrain 1 [[1%Q]] [1] {| trainedForest := None |} [] = Some (w1, 1, [])
    /\ workerTrain 2 [] [] w1 [] = Some (w2, 2, [])
    /\ trainedForest w2 <> trainedForest w1
    /\ workerPredictProba w1 [1%Q] 1 = Some p1 /\ (p1 == 1)%Q
    /\ workerPredictProba w2 [1%Q] 1 = Some p2 /\ (p2 == 0)%Q.
Proof.
  eexists. eexists. eexists. eexists.
  split; [vm_compute; reflexivity|]. split; [vm_compute; reflexivity|].
  split; [discriminate|].
  split; [vm_compute; reflexivity|]. split; [vm_compute; reflexivity|].
  split; [vm_compute; reflexivity|]. vm_compute; reflexivity.
Qed.

Lemma training_guarded_by_orchestrator_witness :
  forestWorkerFetch 5 [0; 1] [(1, true)] oneEmbedding forest {| trainedForest := None |} []
  = Some ({| trainedForest := None |}, None, []).
Proof.
  apply (@training_guarded_by_orchestrator 5 [0; 1] [(1, true)] oneEmbedding forest
           {| trainedForest := None |} []).
  intros file liked [E|[]]. inversion E; subst. reflexivity.
Defined.

End TrainingFacts.

(** * The engine for every number type, predictions, and the page *)

(** ** The forest engine, for every number type *)

Module EngineFacts.

Import Forest Ranking Coordinator.

Import Spec Forest ForestFacts.

Section Generic.

Context {N : Type} `{Number N}.

Lemma fold_keepBest_in (l : list (Best N)) (init : option (Best N)) (b : Best N) :
  fold_left (@keepBest N _) l init = Some b -> In b l \/ init = Some b.
Proof.
  revert init. induction l as [|c l IH]; intros init; simpl.
  - auto.
  - intros E. apply IH in E. destruct E as [E|E]; [auto|].
    unfold keepBest in E. destruct init as [b0|].
    + destruct (ltb (bestGini c) (bestGini b0)).
      * inversion E. auto.
      * auto.
    + inversion E. auto.
Qed.

Lemma unique_in (values acc : list (option N)) (v : option N) :
  In v (fold_left
          (fun seen v => if existsb (sameValue v) seen then seen else seen ++ [v])
          values acc) ->
  In v acc \/ In v values.
Proof.
  revert acc. induction values as [|x values IH]; intros acc; simpl; [auto|].
  intros Hin. apply IH in Hin. destruct Hin as [Hin|Hin]; [|auto].
  destruct (existsb (sameValue x) acc); [auto|].
  apply in_app_or in Hin. simpl in Hin. tauto.
Qed.

Lemma sortValues_in (values : list (option N)) (v : option N) :
  In v (sortValues values) -> In v values.
Proof.
  unfold sortValues. intros Hin. apply in_app_or in Hin. destruct Hin as [Hin|Hin].
  - apply in_map_iff in Hin. destruct Hin as (x & <- & Hx).
    apply (Permutation_in _ (sortNumbers_perm _)) in Hx.
    unfold definedValues in Hx. apply in_flat_map in Hx.
    destruct Hx as ([y|] & Hy & Hxy); simpl in Hxy; [|contradiction].
    destruct Hxy as [<-|[]]. exact Hy.
  - unfold undefinedValues in Hin. apply filter_In in Hin. tauto.
Qed.

Lemma adjacent_in (us : list (option N)) (a b : option N) :
  In (a, b) (adjacent us) -> In a us /\ In b us.
Proof.
  unfold adjacent. intros Hin. split.
  - eapply in_combine_l; eauto.
  - apply in_combine_r in Hin. destruct us; simpl in *; auto.
Qed.

Lemma uniqueValuesOf_in (data : list (DataPoint N)) (j : nat) (v : option N) :
  In v (uniqueValuesOf data j) -> In v (map (featureAt j) data).
Proof.
  unfold uniqueValuesOf, unique. intros Hin. apply unique_in in Hin.
  destruct Hin as [[]|Hin]. now apply sortValues_in.
Qed.

(** What the search returns is one of the candidates of its two loops. *)
Lemma findBestSplit_is_candidate (data : list (DataPoint N)) (featureIndices : list nat)
    (s : Split N) :
  findBestSplit data featureIndices = Some s ->
  exists j pair,
    In j featureIndices /\ In pair (adjacent (uniqueValuesOf data j))
    /\ s = bestSplit (splitAt data j pair).
Proof.
  rewrite findBestSplit_candidates. intros E.
  destruct (fold_left (@keepBest N _) (candidates data featureIndices) None) as [b|] eqn:Eb;
    [|discriminate].
  simpl in E. inversion E; subst s.
  apply fold_keepBest_in in Eb. destruct Eb as [Hin|Hin]; [|discriminate].
  unfold candidates in Hin. apply in_flat_map in Hin. destruct Hin as (j & Hj & Hin).
  apply in_map_iff in Hin. destruct Hin as (pair & <- & Hp).
  exists j, pair. auto.
Qed.

Lemma findBestSplit_sublists (data : list (DataPoint N)) (featureIndices : list nat)
    (s : Split N) :
  findBestSplit data featureIndices = Some s ->
  incl (left s) data /\ incl (right s) data.
Proof.
  intros E. apply findBestSplit_is_candidate in E. destruct E as (j & pair & _ & _ & ->).
  cbn [bestSplit splitAt left right].
  split; intros d Hd; apply filter_In in Hd; tauto.
Qed.

(** *** Trees *)

Lemma leafKeysIn_incl (labels labels' : list nat) (t : TreeNode N) :
  incl labels labels' -> leafKeysIn labels t -> leafKeysIn labels' t.
Proof.
  intros Hi. induction t as [d|j th l IHl r IHr]; simpl.
  - intros Hk k Hin. auto.
  - intros [Hl Hr]. auto.
Qed.

Lemma distributionOf_keys (data : list (DataPoint N)) :
  obj_keys (distributionOf data) = obj_keys (countLabels (map (@label N) data)).
Proof. unfold distributionOf, obj_keys. rewrite map_map. reflexivity. Qed.

Lemma leaf_keys (data : list (DataPoint N)) :
  leafKeysIn (map (@label N) data) (Leaf (distributionOf data)).
Proof.
  simpl. intros k Hk. rewrite distributionOf_keys in Hk. exact (proj1 (countLabels_keys_in _ _) Hk).
Qed.

Lemma incl_labels (data data' : list (DataPoint N)) :
  incl data data' -> incl (map (@label N) data) (map (@label N) data').
Proof.
  intros Hi k Hk. apply in_map_iff in Hk. destruct Hk as (d & <- & Hd).
  apply in_map. auto.
Qed.

Lemma buildTree_shape (minSamplesSplit numFeatures remaining : nat)
    (data : list (DataPoint N)) (s : list nat) :
  1 <= minSamplesSplit ->
  exists t s', buildTree minSamplesSplit numFeatures remaining data s = Some (t, s')
    /\ depth t <= remaining
    /\ leafKeysIn (map (@label N) data) t
    /\ (data = [] -> t = Leaf []).
Proof.
  intros Hm. revert data s. induction remaining as [|remaining IH]; intros data s.
  - simpl. unfold ret. eexists; eexists. split; [reflexivity|].
    split; [simpl; lia|]. split; [apply leaf_keys|]. intros ->. reflexivity.
  - cbn [buildTree].
    destruct ((length data <? minSamplesSplit) || (labelSetSize data =? 1)) eqn:Ec.
    + unfold ret. eexists; eexists. split; [reflexivity|].
      split; [simpl; lia|]. split; [apply leaf_keys|]. intros ->. reflexivity.
    + destruct data as [|d0 data'].
      { apply orb_false_iff in Ec. destruct Ec as [Ec _].
        apply Nat.ltb_ge in Ec. simpl in Ec. lia. }
      unfold bind.
      destruct (shuffle_total (seq 0 (length (features d0))) s) as (r & s1 & -> & _).
      destruct (findBestSplit (d0 :: data') (firstn numFeatures r)) as [split|] eqn:Hs.
      * destruct (findBestSplit_sublists _ _ Hs) as [Hil Hir].
        destruct (IH (left split) s1) as (tl & s2 & -> & Hdl & Hkl & _).
        destruct (IH (right split) s2) as (tr & s3 & -> & Hdr & Hkr & _).
        unfold ret. eexists; eexists. split; [reflexivity|].
        split; [simpl; lia|]. split; [|discriminate].
        cbn [leafKeysIn].
        split; (eapply leafKeysIn_incl; [|eassumption]; apply incl_labels; assumption).
      * unfold ret. eexists; eexists. split; [reflexivity|].
        split; [simpl; lia|]. split; [apply leaf_keys | discriminate].
Qed.

(** *** Bagging *)

Lemma bootstrap_sample (data : list (DataPoint N)) (k : nat) (s : list nat) :
  data <> [] ->
  exists sample s', bootstrap data k s = Some (sample, s')
    /\ length sample = k /\ incl sample data.
Proof.
  intros Hne. revert s. induction k as [|k IH]; intros s; simpl.
  - unfold ret. exists [], s. split; [reflexivity|]. split; [reflexivity|]. intros d [].
  - unfold bind, randomIndex, bind, draw, ret.
    assert (Hlen : length data <> 0) by (destruct data; [congruence | simpl; lia]).
    assert (Hnth : forall u, exists d, nth_error data (u mod length data) = Some d /\ In d data).
    { intros u. destruct (nth_error data (u mod length data)) as [d|] eqn:E.
      - exists d. split; [reflexivity|]. eapply nth_error_In; eauto.
      - apply nth_error_None in E. pose proof (Nat.mod_upper_bound u (length data) Hlen). lia. }
    destruct s as [|u s1].
    + destruct (Hnth 0) as (d & -> & Hd). destruct (IH []) as (sample & s' & -> & Hl & Hin).
      exists (d :: sample), s'. simpl. split; [reflexivity|]. split; [lia|].
      intros d' [<-|?]; auto.
    + destruct (Hnth u) as (d & -> & Hd). destruct (IH s1) as (sample & s' & -> & Hl & Hin).
      exists (d :: sample), s'. simpl. split; [reflexivity|]. split; [lia|].
      intros d' [<-|?]; auto.
Qed.

(** The sample of [train]: as long as the data, empty data included. *)
Lemma bagged (data : list (DataPoint N)) (s : list nat) :
  exists sample s', bootstrap data (length data) s = Some (sample, s')
    /\ length sample = length data /\ incl sample data.
Proof.
  destruct data as [|d data'].
  - exists [], s. simpl. unfold ret. split; [reflexivity|]. split; [reflexivity|]. intros d [].
  - apply bootstrap_sample. discriminate.
Qed.

Lemma growTrees_shape (o : RandomForestOptions) (data : list (DataPoint N)) (k : nat)
    (s : list nat) :
  1 <= minSamplesSplit o ->
  exists trees s', growTrees o data k s = Some (trees, s')
    /\ length trees = k
    /\ Forall (fun tree => depth tree <= maxDepth o
                           /\ leafKeysIn (map (@label N) data) tree
                           /\ (data = [] -> tree = Leaf [])) trees.
Proof.
  intros Hm. revert s. induction k as [|k IH]; intros s; simpl.
  - unfold ret. exists [], s. auto.
  - unfold bind. destruct (bagged data s) as (sample & s1 & -> & Hlen & Hin).
    unfold createDecisionTree.
    destruct (buildTree_shape (numFeatures o) (maxDepth o) sample s1 Hm)
      as (t & s2 & -> & Hd & Hk & He).
    destruct (IH s2) as (trees & s3 & -> & Hl & Hall).
    unfold ret. exists (t :: trees), s3. split; [reflexivity|]. split; [simpl; lia|].
    constructor; [|exact Hall].
    split; [exact Hd|].
    split; [eapply leafKeysIn_incl; [|eassumption]; apply incl_labels; assumption|].
    intros ->. apply He. destruct sample; [reflexivity | discriminate].
Qed.

Lemma train_trees (o : RandomForestOptions) (data : list (DataPoint N)) (s : list nat) :
  1 <= minSamplesSplit o ->
  exists trees s',
    train o data s = Some (trees, s')
    /\ length trees = numTrees o
    /\ forall tree, In tree trees ->
         depth tree <= maxDepth o /\ leafKeysIn (map (@label N) data) tree.
Proof.
  intros Hm. unfold train.
  destruct (growTrees_shape o data (numTrees o) s Hm) as (trees & s' & E & Hl & Hall).
  exists trees, s'. split; [exact E|]. split; [exact Hl|].
  rewrite Forall_forall in Hall. intros tree Hin. destruct (Hall tree Hin) as (? & ? & _). auto.
Qed.

End Generic.

(** X1. For every number type, binary64 included: the split that the search
    returns is made at one of the candidate features, its threshold is the
    midpoint of two values that the data has at this feature, and its two
    parts are the points of the data that the threshold test sends left and
    right, in the order of the data. *)
Theorem findBestSplit_filters {N} `{Number N} (data : list (DataPoint N))
    (featureIndices : list nat) (s : Split N) :
  findBestSplit data featureIndices = Some s ->
  In (featureIndex s) featureIndices
  /\ (exists a b,
        In a (map (featureAt (featureIndex s)) data)
        /\ In b (map (featureAt (featureIndex s)) data)
        /\ threshold s = midpoint (a, b))
  /\ left s = filter (fun d => js_le (featureAt (featureIndex s) d) (threshold s)) data
  /\ right s = filter (fun d => js_gt (featureAt (featureIndex s) d) (threshold s)) data.
Proof.
  intros E. apply findBestSplit_is_candidate in E.
  destruct E as (j & [a b] & Hj & Hp & ->).
  cbn [bestSplit splitAt featureIndex threshold left right].
  split; [exact Hj|]. split; [|split; reflexivity].
  apply adjacent_in in Hp. destruct Hp as [Ha Hb].
  exists a, b. split; [now apply uniqueValuesOf_in|]. split; [now apply uniqueValuesOf_in|].
  reflexivity.
Qed.

Lemma findBestSplit_filters_witness :
  exists s, findBestSplit adjacentDoubles [0] = Some s
    /\ In (featureIndex s) [0]
    /\ right s = filter (fun d => js_gt (featureAt (featureIndex s) d) (threshold s))
                        adjacentDoubles.
Proof.
  eexists. split; [vm_compute; reflexivity|].
  match goal with
  | |- In (featureIndex ?s) _ /\ _ =>
      pose proof (@findBestSplit_filters _ _ adjacentDoubles [0] s) as Hw
  end.
  destruct Hw as (Hj & _ & _ & Hr); [vm_compute; reflexivity|].
  split; [exact Hj | exact Hr].
Defined.

(** X2. For every number type, with [minSamplesSplit] at least 1:
    [createDecisionTree] returns a tree, for any data and any random source;
    the tree is no deeper than [maxDepth], the classes of its leaves are
    labels of the data, and for no data it is one leaf with an empty
    distribution. *)
Theorem createDecisionTree_shape {N} `{Number N} (minSamplesSplit numFeatures : nat)
    (data : list (DataPoint N)) (maxDepth : nat) (s : list nat) :
  1 <= minSamplesSplit ->
  exists root s',
    createDecisionTree minSamplesSplit numFeatures data maxDepth s = Some (root, s')
    /\ depth root <= maxDepth
    /\ leafKeysIn (map (@label N) data) root
    /\ (data = [] -> root = Leaf []).
Proof. intros Hm. unfold createDecisionTree. now apply buildTree_shape. Qed.

Lemma createDecisionTree_shape_witness :
  1 <= 2
  /\ exists root s',
       createDecisionTree 2 1 adjacentDoubles 2 [] = Some (root, s')
       /\ depth root <= 2.
Proof.
  split; [lia|].
  destruct (@createDecisionTree_shape _ _ 2 1 adjacentDoubles 2 []) as (root & s' & E & Hd & _);
    [lia|].
  exists root, s'. split; [exact E | exact Hd].
Defined.

(** With [minSamplesSplit] 0 and a positive [maxDepth], an empty dataset
    makes [buildTree] read [data[0].features]: a [TypeError]. *)
Remark createDecisionTree_empty_throws {N} `{Number N} (numFeatures maxDepth : nat)
    (s : list nat) :
  createDecisionTree 0 numFeatures (@nil (DataPoint N)) (S maxDepth) s = None.
Proof. reflexivity. Qed.

(** X3. The bootstrap sample of [train] has as many points as the data, and
    each of them is a point of the data. *)
Theorem bootstrap_same_size {N} `{Number N} (data : list (DataPoint N)) (s : list nat) :
  exists sample s',
    bootstrap data (length data) s = Some (sample, s')
    /\ length sample = length data
    /\ incl sample data.
Proof. apply bagged. Qed.

(** X4. For every number type, with [minSamplesSplit] at least 1: [train]
    returns exactly [numTrees] trees, for any data and any random source;
    each is no deeper than [maxDepth], and the classes of its leaves are
    labels of the data. *)
Theorem train_forest_shape {N} `{Number N} (o : RandomForestOptions)
    (data : list (DataPoint N)) (s : list nat) :
  1 <= minSamplesSplit o ->
  exists trees s',
    train o data s = Some (trees, s')
    /\ length trees = numTrees o
    /\ forall tree, In tree trees ->
         depth tree <= maxDepth o /\ leafKeysIn (map (@label N) data) tree.
Proof. apply train_trees. Qed.

Lemma train_forest_shape_witness :
  exists trees s',
    train {| numTrees := 3; maxDepth := 2; minSamplesSplit := 2; numFeatures := 1 |}
          adjacentDoubles [1; 0; 1] = Some (trees, s')
    /\ length trees = 3.
Proof.
  destruct (@train_forest_shape _ _
              {| numTrees := 3; maxDepth := 2; minSamplesSplit := 2; numFeatures := 1 |}
              adjacentDoubles [1; 0; 1]) as (trees & s' & E & Hl & _);
    [simpl; lia|].
  exists trees, s'. split; [exact E | exact Hl].
Defined.

(** X5. The worker's [train], given as many labels as feature vectors, never
    fails: it installs a forest of 100 trees no deeper than 20, whose leaves
    carry labels given in [predictions], and hands back the time as
    [version]; from then on [predictProba] answers with the forest's
    probability. *)
Theorem workerTrain_installs {N} `{Number N} (now : nat) (trainingSet : list (list N))
    (predictions : list nat) (w : Worker N) (s : list nat) :
  length predictions = length trainingSet ->
  exists trees s',
    workerTrain now trainingSet predictions w s
    = Some ({| trainedForest := Some trees |}, now, s')
    /\ length trees = 100
    /\ (forall tree, In tree trees ->
          depth tree <= 20
          /\ leafKeysIn (map (@label N) (labelled trainingSet predictions)) tree)
    /\ forall fs c,
         workerPredictProba {| trainedForest := Some trees |} fs c
         = Some (forestPredictProba trees fs c).
Proof.
  intros _. unfold workerTrain, bind.
  destruct (@train_trees N _ (workerOptions trainingSet)
              (labelled trainingSet predictions) s) as (trees & s' & E & Hl & Hall);
    [simpl; lia|].
  rewrite E. unfold ret. exists trees, s'. split; [reflexivity|].
  split; [exact Hl|]. split; [exact Hall|]. reflexivity.
Qed.

Lemma workerTrain_installs_witness :
  exists trees s',
    workerTrain 7 [[afterOne]; [PrimFloat.one]] [1; 0] {| trainedForest := None |} []
    = Some ({| trainedForest := Some trees |}, 7, s')
    /\ length trees = 100.
Proof.
  destruct (@workerTrain_installs _ _ 7 [[afterOne]; [PrimFloat.one]] [1; 0]
              {| trainedForest := None |} []) as (trees & s' & E & Hl & _);
    [reflexivity|].
  exists trees, s'. split; [exact E | exact Hl].
Defined.

End EngineFacts.

(** ** Splits and leaves for every number type, and in binary64 *)

Module RoundingFacts.

Import Forest Ranking Coordinator.

Import NumberFacts Spec Forest ForestFacts EngineFacts.

(** *** The order of numbers: binary64 and exact *)

Lemma SFcompare_antisym (x y : SpecFloat.spec_float) :
  SpecFloat.SFcompare y x = option_map CompOpp (SpecFloat.SFcompare x y).
Proof.
  destruct x as [sx|sx| |sx mx ex], y as [sy|sy| |sy my ey];
    cbn [SpecFloat.SFcompare option_map];
    try reflexivity; try (destruct sx; reflexivity); try (destruct sy; reflexivity);
    try (destruct sx, sy; reflexivity).
  f_equal.
  rewrite (Z.compare_antisym ex ey).
  change (PosDef.Pos.compare_cont Eq my mx) with (Pos.compare_cont (CompOpp Eq) my mx).
  rewrite <- (Pos.compare_cont_antisym mx my Eq).
  change (PosDef.Pos.compare_cont Eq mx my) with (Pos.compare_cont Eq mx my).
  destruct sx, sy, (ex ?= ey)%Z, (Pos.compare_cont Eq mx my); reflexivity.
Qed.

Lemma SFcompare_defined (x y : SpecFloat.spec_float) :
  SpecFloat.SFeqb x x = true -> SpecFloat.SFeqb y y = true ->
  SpecFloat.SFcompare x y <> None.
Proof.
  unfold SpecFloat.SFeqb. destruct x, y; cbn [SpecFloat.SFcompare];
    try discriminate; congruence.
Qed.

(** On binary64 numbers that are not [NaN], [x <= t] fails exactly when
    [x > t]. *)
#[export] Instance float_Ordered : Ordered PrimFloat.float.
Proof.
  intros x t. cbn [eqb leb ltb float_Number].
  rewrite !FloatAxioms.eqb_spec, FloatAxioms.leb_spec, FloatAxioms.ltb_spec. intros Hx Ht.
  pose proof (SFcompare_defined _ _ Hx Ht) as Hd.
  unfold SpecFloat.SFleb, SpecFloat.SFltb.
  rewrite (SFcompare_antisym (FloatOps.Prim2SF x) (FloatOps.Prim2SF t)).
  destruct (SpecFloat.SFcompare (FloatOps.Prim2SF x) (FloatOps.Prim2SF t)) as [[| |]|];
    simpl; congruence.
Qed.

#[export] Instance Q_Ordered : Ordered Q.
Proof.
  intros x t _ _. cbn [leb ltb Q_Number]. unfold Qltb. now rewrite negb_involutive.
Qed.

Section AnyNumber.

Context {N : Type} `{Number N}.

(** The parts of a returned split, for every number type. *)
Lemma findBestSplit_filtered (data : list (DataPoint N)) (featureIndices : list nat)
    (s : Split N) :
  findBestSplit data featureIndices = Some s ->
  In (featureIndex s) featureIndices
  /\ left s = filter (fun d => js_le (featureAt (featureIndex s) d) (threshold s)) data
  /\ right s = filter (fun d => js_gt (featureAt (featureIndex s) d) (threshold s)) data
  /\ exists da db,
       In da data /\ In db data
       /\ threshold s = midpoint (featureAt (featureIndex s) da, featureAt (featureIndex s) db).
Proof.
  intros E. apply findBestSplit_is_candidate in E.
  destruct E as (j & [a b] & Hj & Hp & ->).
  cbn [bestSplit splitAt featureIndex threshold left right].
  split; [exact Hj|]. split; [reflexivity|]. split; [reflexivity|].
  apply adjacent_in in Hp. destruct Hp as [Ha Hb].
  apply uniqueValuesOf_in, in_map_iff in Ha. destruct Ha as (da & <- & Hda).
  apply uniqueValuesOf_in, in_map_iff in Hb. destruct Hb as (db & <- & Hdb).
  exists da, db. auto.
Qed.

Lemma numeric_partition `{!Ordered N} (j : nat) (t : option N) (data : list (DataPoint N)) :
  numericAt j data -> isNumber t = true ->
  Permutation (filter (fun d => js_le (featureAt j d) t) data
               ++ filter (fun d => js_gt (featureAt j d) t) data) data.
Proof.
  intros Hn Ht. apply filter_partition. unfold numericAt in Hn. rewrite Forall_forall in Hn.
  intros d Hd. specialize (Hn d Hd).
  destruct (featureAt j d) as [x|]; [|discriminate]. destruct t as [t|]; [|discriminate].
  cbn [isNumber js_le js_gt] in *. rewrite (le_or_gt x t Hn Ht). now rewrite negb_involutive.
Qed.




End AnyNumber.


(** C10, as the code computes.  For every number type, binary64
    included: the returned feature is a candidate, the threshold is the
    midpoint of the values of two points of the dataset at this feature,
    left is exactly the points at most the threshold and right exactly
    those above it, in the order of the dataset; the first of the two
    points is in left when its value is at most the threshold, the second
    in right when its value is above it; and when all the points have a
    number at the feature and the threshold is a number, left and right
    together are the dataset.  In exact arithmetic, on points that all
    have the candidate features, both parts are moreover non-empty and
    shorter than the dataset. *)
Theorem findBestSplit_parts :
  (forall (N : Type) (HN : Number N) (data : list (DataPoint N))
          (featureIndices : list nat) (s : Split N),
      findBestSplit data featureIndices = Some s ->
      In (featureIndex s) featureIndices
      /\ left s = filter (fun d => js_le (featureAt (featureIndex s) d) (threshold s)) data
      /\ right s = filter (fun d => js_gt (featureAt (featureIndex s) d) (threshold s)) data
      /\ (exists da db,
            In da data /\ In db data
            /\ threshold s
               = midpoint (featureAt (featureIndex s) da, featureAt (featureIndex s) db)
            /\ (js_le (featureAt (featureIndex s) da) (threshold s) = true -> In da (left s))
            /\ (js_gt (featureAt (featureIndex s) db) (threshold s) = true -> In db (right s)))
      /\ forall HO : Ordered N,
           numericAt (featureIndex s) data -> isNumber (threshold s) = true ->
           Permutation (left s ++ right s) data)
  /\ (forall (data : list (DataPoint Q)) (featureIndices : list nat) (s : Split Q),
        hasFeatures featureIndices data ->
        findBestSplit data featureIndices = Some s ->
        exists t,
          threshold s = Some t
          /\ In (featureIndex s) featureIndices
          /\ (forall d, In d (left s) <->
                In d data /\ exists v, featureAt (featureIndex s) d = Some v /\ (v <= t)%Q)
          /\ (forall d, In d (right s) <->
                In d data /\ exists v, featureAt (featureIndex s) d = Some v /\ (t < v)%Q)
          /\ Permutation (left s ++ right s) data
          /\ left s <> [] /\ right s <> []
          /\ length (left s) < length data /\ length (right s) < length data).
Proof.
  split.
  - intros N HN data featureIndices s E.
    destruct (findBestSplit_filtered _ _ E) as (Hj & El & Er & da & db & Hda & Hdb & Et).
    split; [exact Hj|]. split; [exact El|]. split; [exact Er|]. split.
    + exists da, db. split; [exact Hda|]. split; [exact Hdb|]. split; [exact Et|].
      split; intros Hc; [rewrite El | rewrite Er]; apply filter_In; auto.
    + intros HO Hn Ht. rewrite El at 1. rewrite Er at 1. now apply numeric_partition.
  - intros data featureIndices s. apply findBestSplit_partition_exact.
Qed.

Lemma findBestSplit_parts_witness :
  (findBestSplit adjacentDoubles [0] = Some adjacentDoublesSplit
   /\ numericAt 0 adjacentDoubles
   /\ Permutation (left adjacentDoublesSplit ++ right adjacentDoublesSplit) adjacentDoubles)
  /\ (hasFeatures [0; 1] fourPoints
      /\ findBestSplit fourPoints [0; 1] = Some fourPointsSplit
      /\ left fourPointsSplit <> [] /\ right fourPointsSplit <> []).
Proof.
  assert (Ef : findBestSplit adjacentDoubles [0] = Some adjacentDoublesSplit)
    by (vm_compute; reflexivity).
  assert (Hn : numericAt 0 adjacentDoubles)
    by (repeat (constructor; [vm_compute; reflexivity|]); constructor).
  assert (Hf : hasFeatures [0; 1] fourPoints) by (repeat constructor).
  assert (Eq : findBestSplit fourPoints [0; 1] = Some fourPointsSplit)
    by (vm_compute; reflexivity).
  split.
  - split; [exact Ef|]. split; [exact Hn|].
    destruct (proj1 findBestSplit_parts _ _ adjacentDoubles [0] adjacentDoublesSplit Ef)
      as (_ & _ & _ & _ & Hp).
    apply (Hp float_Ordered Hn). vm_compute. reflexivity.
  - split; [exact Hf|]. split; [exact Eq|].
    destruct (proj2 findBestSplit_parts fourPoints [0; 1] fourPointsSplit Hf Eq)
      as (t & _ & _ & _ & _ & _ & Hl & Hr & _).
    auto.
Defined.

(** C10 as stated fails in binary64: for the two doubles after 1 the
    midpoint is the greater of the two, every point is at most the
    threshold and the right part is empty. *)
Lemma binary64_right_part_empty :
  findBestSplit adjacentDoubles [0] = Some adjacentDoublesSplit
  /\ threshold adjacentDoublesSplit = Some (PrimFloat.next_up afterOne)
  /\ left adjacentDoublesSplit = adjacentDoubles
  /\ right adjacentDoublesSplit = [].
Proof. repeat split; vm_compute; reflexivity. Qed.




End RoundingFacts.


Module GrownFacts.

Import Forest Ranking Coordinator.

Import NumberFacts Spec Forest ForestFacts EngineFacts.

Lemma orZero_getQ (k : nat) (o : Obj Q) : (orZero (obj_get k o) == getQ k o)%Q.
Proof.
  unfold orZero, getQ. destruct (obj_get k o) as [p|]; [|reflexivity].
  cbn [eqb of_nat Q_Number].
  destruct (Qeq_bool p (inject_Z (Z.of_nat 0))) eqn:E.
  - apply Qeq_bool_iff in E. rewrite E. reflexivity.
  - assert (Er : Qeq_bool p p = true) by (apply Qeq_bool_iff; reflexivity).
    rewrite Er. reflexivity.
Qed.

Lemma obj_get_map {V W} (f : V -> W) (k : nat) (o : Obj V) :
  obj_get k (map (fun kc => (fst kc, f (snd kc))) o) = option_map f (obj_get k o).
Proof.
  induction o as [|[k' v] o IH]; simpl; [reflexivity|].
  destruct (k =? k'); [reflexivity | exact IH].
Qed.

Lemma countLabels_obj_get (k : nat) (labels : list nat) :
  obj_get k (countLabels labels)
  = if in_dec Nat.eq_dec k labels then Some (count_occ Nat.eq_dec labels k) else None.
Proof.
  pose proof (countLabels_get k labels) as Hg. unfold getOr0 in Hg.
  pose proof (countLabels_keys_in k labels) as Hk.
  rewrite obj_get_in_keys in Hk.
  destruct (in_dec Nat.eq_dec k labels) as [Hin|Hnot].
  - destruct (obj_get k (countLabels labels)) as [c|].
    + now rewrite Hg.
    + exfalso. apply Hk in Hin. congruence.
  - destruct (obj_get k (countLabels labels)) as [c|]; [|reflexivity].
    exfalso. apply Hnot, Hk. discriminate.
Qed.

Lemma ratio_zero (n : nat) : (ratio 0 n == 0)%Q.
Proof. unfold ratio. simpl. unfold Qdiv. ring. Qed.

(** The probability a leaf gives to a class is the share of the class. *)
Lemma distributionOf_getQ (part : list (DataPoint Q)) (k : nat) :
  (getQ k (distributionOf part) == share part k)%Q.
Proof.
  unfold getQ, distributionOf, share.
  rewrite (obj_get_map (fun c => div (of_nat c) (of_nat (length part)))).
  rewrite countLabels_obj_get.
  destruct (in_dec Nat.eq_dec k (map (@label Q) part)) as [Hin|Hnot]; simpl.
  - reflexivity.
  - rewrite (proj1 (count_occ_not_In Nat.eq_dec _ _) Hnot). symmetry. apply ratio_zero.
Qed.

Lemma distributionOf_in_keys (part : list (DataPoint Q)) (k : nat) :
  In k (obj_keys (distributionOf part)) <-> In k (map (@label Q) part).
Proof. rewrite distributionOf_keys. apply countLabels_keys_in. Qed.

Lemma distributionOf_sorted (part : list (DataPoint Q)) :
  Sorted lt (obj_keys (distributionOf part)).
Proof. rewrite distributionOf_keys. apply fold_incr_sorted. constructor. Qed.

Lemma ratio_pos (c n : nat) : 0 < c -> 0 < n -> (0 < ratio c n)%Q.
Proof.
  intros Hc Hn. unfold ratio. apply Qlt_shift_div_l.
  - change 0%Q with (inject_Z 0). rewrite <- Zlt_Qlt. lia.
  - rewrite Qmult_0_l. change 0%Q with (inject_Z 0). rewrite <- Zlt_Qlt. lia.
Qed.

Lemma ratio_nonneg (c n : nat) : (0 <= ratio c n)%Q.
Proof.
  destruct c as [|c]; [rewrite ratio_zero; lra|].
  destruct n as [|n].
  - unfold ratio. simpl. unfold Qdiv, Qinv. simpl. rewrite Qmult_0_r. lra.
  - apply Qlt_le_weak, ratio_pos; lia.
Qed.

Lemma ratio_le_1 (c n : nat) : c <= n -> (ratio c n <= 1)%Q.
Proof.
  intros Hc. destruct n as [|n].
  - assert (c = 0) by lia. subst. rewrite ratio_zero. lra.
  - unfold ratio. apply Qle_shift_div_r.
    + change 0%Q with (inject_Z 0). rewrite <- Zlt_Qlt. lia.
    + rewrite Qmult_1_l. rewrite <- Zle_Qle. lia.
Qed.

Lemma share_range (part : list (DataPoint Q)) (k : nat) : (0 <= share part k <= 1)%Q.
Proof.
  unfold share. split; [apply ratio_nonneg|]. apply ratio_le_1.
  rewrite <- (length_map (@label Q) part). apply count_occ_bound.
Qed.

Lemma share_pos (part : list (DataPoint Q)) (k : nat) :
  In k (map (@label Q) part) -> (0 < share part k)%Q.
Proof.
  intros Hin. unfold share. apply ratio_pos.
  - now apply count_occ_In.
  - destruct part; [contradiction | simpl; lia].
Qed.

Lemma share_zero (part : list (DataPoint Q)) (k : nat) :
  ~ In k (map (@label Q) part) -> (share part k == 0)%Q.
Proof.
  intros Hnot. unfold share.
  rewrite (proj1 (count_occ_not_In Nat.eq_dec _ _) Hnot). apply ratio_zero.
Qed.

(** *** Growing *)

Lemma buildTree_grown (minSamplesSplit numFeatures D remaining : nat)
    (data : list (DataPoint Q)) (s : list nat) :
  data <> [] -> uniform D data ->
  exists t s', buildTree minSamplesSplit numFeatures remaining data s = Some (t, s')
               /\ grownFrom data t.
Proof.
  revert data s. induction remaining as [|remaining IH]; intros data s Hne Hu.
  - simpl. unfold ret. eexists; eexists. split; [reflexivity|]. now constructor.
  - cbn [buildTree].
    destruct ((length data <? minSamplesSplit) || (labelSetSize data =? 1)).
    + unfold ret. eexists; eexists. split; [reflexivity|]. now constructor.
    + destruct data as [|d0 data']; [congruence|].
      unfold bind. destruct (shuffle_total (seq 0 (length (features d0))) s) as (r & s1 & -> & Hp).
      destruct (findBestSplit (d0 :: data') (firstn numFeatures r)) as [split|] eqn:Hs.
      * assert (Hf : hasFeatures (firstn numFeatures r) (d0 :: data')).
        { apply (@uniform_hasFeatures D); [assumption|].
          intros j Hj. apply in_firstn in Hj.
          apply (Permutation_in _ Hp) in Hj. apply in_seq in Hj.
          inversion Hu; subst. lia. }
        destruct (@findBestSplit_children _ _ _ Hf Hs) as (Hl & Hr & Hil & Hir).
        destruct (IH (left split) s1 Hl (@uniform_incl _ _ _ Hu Hil)) as (tl & s2 & -> & Hgl).
        destruct (IH (right split) s2 Hr (@uniform_incl _ _ _ Hu Hir)) as (tr & s3 & -> & Hgr).
        unfold ret. eexists; eexists. split; [reflexivity|].
        destruct (@findBestSplit_shape _ _ _ Hf Hs) as (j & a & b & Hj & _ & E & _).
        rewrite E in Hgl, Hgr |- *. cbn [left right featureIndex threshold] in *.
        constructor; [|assumption|assumption].
        eapply hasFeatures_at; eassumption.
      * unfold ret. eexists; eexists. split; [reflexivity|]. now constructor.
Qed.

Lemma growTrees_grown (o : RandomForestOptions) (D : nat) (data : list (DataPoint Q))
    (k : nat) (s : list nat) :
  data <> [] -> uniform D data ->
  exists trees s', growTrees o data k s = Some (trees, s')
    /\ length trees = k
    /\ Forall (fun tree => exists sample,
                   sample <> [] /\ incl sample data /\ grownFrom sample tree) trees.
Proof.
  intros Hne Hu. revert s. induction k as [|k IH]; intros s; simpl.
  - unfold ret. exists [], s. simpl. auto.
  - unfold bind.
    destruct (@bootstrap_total data (length data) s Hne) as (sample & s1 & -> & Hlen & Hin).
    assert (Hs : sample <> []).
    { destruct sample; [|congruence]. destruct data; [congruence | discriminate]. }
    unfold createDecisionTree.
    destruct (@buildTree_grown (minSamplesSplit o) (numFeatures o) D (maxDepth o)
                sample s1 Hs (@uniform_incl _ _ _ Hu Hin)) as (t & s2 & -> & Hg).
    destruct (IH s2) as (trees & s3 & -> & Hl & Hall).
    unfold ret. exists (t :: trees), s3. split; [reflexivity|]. split; [simpl; lia|].
    constructor; [|exact Hall]. exists sample. auto.
Qed.

(** The leaf a feature vector reaches holds the distribution of a part
    of the data. *)
Lemma descend_grown (data : list (DataPoint Q)) (t : TreeNode Q) :
  grownFrom data t ->
  forall fs, exists part, part <> [] /\ incl part data /\ descend t fs = distributionOf part.
Proof.
  induction 1 as [data Hne|data j t l r Hf Hl IHl Hr IHr]; intros fs.
  - exists data. split; [exact Hne|]. split; [apply incl_refl | reflexivity].
  - cbn [descend]. destruct (js_le (nth_error fs j) (Some t)).
    + destruct (IHl fs) as (part & Hp & Hi & E). exists part. split; [exact Hp|].
      split; [|exact E]. intros d Hd. apply Hi in Hd. apply in_leftAt in Hd. tauto.
    + destruct (IHr fs) as (part & Hp & Hi & E). exists part. split; [exact Hp|].
      split; [|exact E]. intros d Hd. apply Hi in Hd. apply in_rightAt in Hd. tauto.
Qed.

(** A point of the data reaches the leaf of its own part. *)
Lemma descend_own (data : list (DataPoint Q)) (t : TreeNode Q) :
  grownFrom data t ->
  forall d, In d data ->
    exists part, In d part /\ incl part data /\ descend t (features d) = distributionOf part.
Proof.
  induction 1 as [data Hne|data j t l r Hf Hl IHl Hr IHr]; intros d Hd.
  - exists data. split; [exact Hd|]. split; [apply incl_refl | reflexivity].
  - cbn [descend].
    rewrite Forall_forall in Hf. pose proof (@featureAt_nth j d (Hf d Hd)) as Ev.
    unfold featureAt in Ev. rewrite Ev.
    destruct (js_le (Some (nth j (features d) 0%Q)) (Some t)) eqn:El.
    + apply js_le_Some in El.
      assert (Hin : In d (leftAt data j t)).
      { apply in_leftAt. split; [exact Hd|]. eexists. split; [exact Ev | exact El]. }
      destruct (IHl d Hin) as (part & Hp & Hi & E). exists part. split; [exact Hp|].
      split; [|exact E]. intros d' Hd'. apply Hi in Hd'. apply in_leftAt in Hd'. tauto.
    + assert (Hgt : (t < nth j (features d) 0)%Q).
      { apply Qnot_le_lt. intros Hle. apply js_le_Some in Hle. congruence. }
      assert (Hin : In d (rightAt data j t)).
      { apply in_rightAt. split; [exact Hd|]. eexists. split; [exact Ev | exact Hgt]. }
      destruct (IHr d Hin) as (part & Hp & Hi & E). exists part. split; [exact Hp|].
      split; [|exact E]. intros d' Hd'. apply Hi in Hd'. apply in_rightAt in Hd'. tauto.
Qed.

Lemma predictProba_share (t : TreeNode Q) (fs : list Q) (part : list (DataPoint Q)) (k : nat) :
  descend t fs = distributionOf part -> (predictProba t fs k == share part k)%Q.
Proof.
  intros E. unfold predictProba. rewrite E, orZero_getQ. apply distributionOf_getQ.
Qed.

End GrownFacts.

(** ** Predictions of grown trees and forests *)

Module PredictionFacts.

Import Forest Ranking Coordinator.

Import NumberFacts Spec Forest ForestFacts EngineFacts GrownFacts.

(** *** The winner of a [reduce] that keeps the greater of two keys *)

Section Argmax.

Variables (val : nat -> Q) (f : nat -> nat -> nat).

Lemma sorted_app_lt (seen : list nat) (x : nat) (ks : list nat) :
  StronglySorted lt (seen ++ x :: ks) -> forall k, In k seen -> k < x.
Proof.
  induction seen as [|y seen IH]; simpl; intros Hs k Hin; [contradiction|].
  inversion Hs as [|? ? Hs' Hall]; subst. destruct Hin as [->|Hin].
  - rewrite Forall_forall in Hall. apply Hall. apply in_or_app. simpl. auto.
  - now apply IH.
Qed.

Lemma fold_argmax_aux (ks seen : list nat) (acc : nat) :
  (forall a b, In a (seen ++ ks) -> In b (seen ++ ks) ->
     f a b = if Qltb (val b) (val a) then a else b) ->
  In acc seen ->
  (forall k, In k seen -> (val k <= val acc)%Q) ->
  In (fold_left f ks acc) (seen ++ ks)
  /\ (forall k, In k (seen ++ ks) -> (val k <= val (fold_left f ks acc))%Q)
  /\ (StronglySorted lt (seen ++ ks) ->
      (forall k, In k seen -> (val k == val acc)%Q -> k <= acc) ->
      forall k, In k (seen ++ ks) -> (val k == val (fold_left f ks acc))%Q ->
        k <= fold_left f ks acc).
Proof.
  revert seen acc. induction ks as [|x ks IH]; intros seen acc Hf Hacc Hmax.
  - rewrite app_nil_r. simpl. auto.
  - cbn [fold_left].
    assert (Eapp : seen ++ x :: ks = (seen ++ [x]) ++ ks) by (rewrite <- app_assoc; reflexivity).
    rewrite Eapp in *.
    assert (Hx : In x ((seen ++ [x]) ++ ks)).
    { apply in_or_app. left. apply in_or_app. simpl. auto. }
    assert (Ha : In acc ((seen ++ [x]) ++ ks)).
    { apply in_or_app. left. apply in_or_app. auto. }
    rewrite (Hf acc x Ha Hx).
    destruct (Qltb (val x) (val acc)) eqn:E.
    + apply Qltb_lt in E.
      destruct (IH (seen ++ [x]) acc Hf) as (H1 & H2 & H3).
      * apply in_or_app. auto.
      * intros k Hk. apply in_app_or in Hk. destruct Hk as [Hk|[<-|[]]]; [auto | lra].
      * split; [exact H1|]. split; [exact H2|].
        intros Hs Htie. apply H3; [exact Hs|].
        intros k Hk Ek. apply in_app_or in Hk. destruct Hk as [Hk|[<-|[]]]; [auto | lra].
    + apply Qltb_ge in E.
      destruct (IH (seen ++ [x]) x Hf) as (H1 & H2 & H3).
      * apply in_or_app. simpl. auto.
      * intros k Hk. apply in_app_or in Hk. destruct Hk as [Hk|[<-|[]]]; [|lra].
        specialize (Hmax k Hk). lra.
      * split; [exact H1|]. split; [exact H2|].
        intros Hs Htie. apply H3; [exact Hs|].
        intros k Hk Ek. apply in_app_or in Hk. destruct Hk as [Hk|[<-|[]]]; [|lia].
        rewrite <- Eapp in Hs. pose proof (sorted_app_lt _ _ _ Hs k Hk). lia.
Qed.

(** [keys.reduce((a, b) => (val[a] > val[b] ? a : b))] on keys in
    ascending order: a key of greatest value, the last of them. *)
Lemma reduce1_argmax (keys : list nat) :
  keys <> [] ->
  (forall a b, In a keys -> In b keys -> f a b = if Qltb (val b) (val a) then a else b) ->
  exists c, reduce1 f keys = Some c
    /\ In c keys
    /\ (forall k, In k keys -> (val k <= val c)%Q)
    /\ (StronglySorted lt keys -> forall k, In k keys -> (val k == val c)%Q -> k <= c).
Proof.
  destruct keys as [|k0 ks]; [congruence|]. intros _ Hf.
  exists (fold_left f ks k0). split; [reflexivity|].
  destruct (@fold_argmax_aux ks [k0] k0) as (H1 & H2 & H3).
  - exact Hf.
  - simpl. auto.
  - intros k [<-|[]]. lra.
  - split; [exact H1|]. split; [exact H2|].
    intros Hs. apply H3; [exact Hs|]. intros k [<-|[]] _. lia.
Qed.

End Argmax.

(** *** One tree *)

Lemma predict_leaf (t : TreeNode Q) (fs : list Q) (part : list (DataPoint Q)) :
  part <> [] -> descend t fs = distributionOf part ->
  exists c,
    predict t fs = Some c
    /\ In c (map (@label Q) part)
    /\ (forall k, (predictProba t fs k <= predictProba t fs c)%Q)
    /\ (forall k, (predictProba t fs k == predictProba t fs c)%Q -> k <= c).
Proof.
  intros Hne E.
  assert (Hkeys : obj_keys (distributionOf part) <> []).
  { destruct part as [|d part]; [congruence|].
    intros E0. assert (Hin : In (label d) (obj_keys (distributionOf (d :: part)))).
    { apply distributionOf_in_keys. simpl. auto. }
    rewrite E0 in Hin. contradiction. }
  assert (Hs : StronglySorted lt (obj_keys (distributionOf part))).
  { apply Sorted_StronglySorted; [intros x y z; lia | apply distributionOf_sorted]. }
  destruct (@reduce1_argmax (fun k => getQ k (distributionOf part))
              (fun a b => if js_gt (obj_get a (distributionOf part))
                                   (obj_get b (distributionOf part)) then a else b)
              (obj_keys (distributionOf part)) Hkeys) as (c & Ec & Hc & Hmax & Htie).
  { intros a b Ha Hb. apply obj_get_in_keys in Ha, Hb. unfold getQ.
    destruct (obj_get a (distributionOf part)) as [pa|]; [|congruence].
    destruct (obj_get b (distributionOf part)) as [pb|]; [|congruence].
    reflexivity. }
  exists c. unfold predict. rewrite E. split; [exact Ec|].
  pose proof (proj1 (distributionOf_in_keys part c) Hc) as Hlc.
  split; [exact Hlc|].
  assert (Hp : forall k, (predictProba t fs k == getQ k (distributionOf part))%Q).
  { intros k. unfold predictProba. rewrite E. apply orZero_getQ. }
  assert (Hpos : (0 < getQ c (distributionOf part))%Q).
  { rewrite distributionOf_getQ. now apply share_pos. }
  assert (Hout : forall k, ~ In k (obj_keys (distributionOf part)) ->
                   (getQ k (distributionOf part) == 0)%Q).
  { intros k Hk. rewrite distributionOf_getQ. apply share_zero.
    intros Hin. apply Hk. now apply distributionOf_in_keys. }
  split.
  - intros k. rewrite !Hp.
    destruct (in_dec Nat.eq_dec k (obj_keys (distributionOf part))) as [Hin|Hnot]; [auto|].
    rewrite (Hout k Hnot). lra.
  - intros k. rewrite !Hp. intros Ek.
    destruct (in_dec Nat.eq_dec k (obj_keys (distributionOf part))) as [Hin|Hnot]; [auto|].
    rewrite (Hout k Hnot) in Ek. lra.
Qed.

(** X6. In exact arithmetic, a tree grown from a non-empty dataset whose
    points have D features and whose labels are array indices (below
    2^32 - 1) always predicts: [predict] returns a label of the data to
    which the leaf it reaches gives the greatest probability, the
    greatest such label when several tie. *)
Theorem predict_most_probable (minSamplesSplit numFeatures D maxDepth : nat)
    (data : list (DataPoint Q)) (s : list nat) :
  data <> [] -> uniform D data -> indexLabels data ->
  exists root s',
    createDecisionTree minSamplesSplit numFeatures data maxDepth s = Some (root, s')
    /\ forall fs, exists c,
         predict root fs = Some c
         /\ In c (map (@label Q) data)
         /\ (forall k, (predictProba root fs k <= predictProba root fs c)%Q)
         /\ (forall k, (predictProba root fs k == predictProba root fs c)%Q -> k <= c).
Proof.
  intros Hne Hu _. unfold createDecisionTree.
  destruct (@buildTree_grown minSamplesSplit numFeatures D maxDepth data s Hne Hu)
    as (root & s' & E & Hg).
  exists root, s'. split; [exact E|]. intros fs.
  destruct (descend_grown Hg fs) as (part & Hp & Hi & Ed).
  destruct (predict_leaf root fs Hp Ed) as (c & H1 & H2 & H3 & H4).
  exists c. split; [exact H1|]. split; [|auto].
  apply (incl_labels Hi). exact H2.
Qed.

Lemma predict_most_probable_witness :
  fourPoints <> [] /\ uniform 2 fourPoints /\ indexLabels fourPoints
  /\ exists root s',
       createDecisionTree 2 2 fourPoints 5 [3; 1; 4; 1; 5] = Some (root, s')
       /\ exists c, predict root [1; 1]%Q = Some c /\ In c (map (@label Q) fourPoints).
Proof.
  assert (Hne : fourPoints <> []) by discriminate.
  assert (Hu : uniform 2 fourPoints) by (repeat constructor).
  assert (Hi : indexLabels fourPoints)
    by (repeat (constructor; [vm_compute; reflexivity|]); constructor).
  split; [exact Hne|]. split; [exact Hu|]. split; [exact Hi|].
  destruct (@predict_most_probable 2 2 2 5 fourPoints [3; 1; 4; 1; 5] Hne Hu Hi)
    as (root & s' & E & Hall).
  exists root, s'. split; [exact E|].
  destruct (Hall [1; 1]%Q) as (c & H1 & H2 & _). exists c. auto.
Defined.

(** X7. In exact arithmetic, a tree grown from a dataset whose points have D
    features sends every point of the data to a leaf that gives the point's
    own label a probability above 0. *)
Theorem training_point_keeps_label (minSamplesSplit numFeatures D maxDepth : nat)
    (data : list (DataPoint Q)) (s : list nat) :
  data <> [] -> uniform D data ->
  exists root s',
    createDecisionTree minSamplesSplit numFeatures data maxDepth s = Some (root, s')
    /\ forall d, In d data -> (0 < predictProba root (features d) (label d))%Q.
Proof.
  intros Hne Hu. unfold createDecisionTree.
  destruct (@buildTree_grown minSamplesSplit numFeatures D maxDepth data s Hne Hu)
    as (root & s' & E & Hg).
  exists root, s'. split; [exact E|]. intros d Hd.
  destruct (descend_own Hg d Hd) as (part & Hp & _ & Ed).
  rewrite (@predictProba_share _ _ _ (label d) Ed). apply share_pos. now apply in_map.
Qed.

Lemma training_point_keeps_label_witness :
  fourPoints <> [] /\ uniform 2 fourPoints
  /\ exists root s',
       createDecisionTree 2 2 fourPoints 5 [3; 1; 4; 1; 5] = Some (root, s')
       /\ (0 < predictProba root [3; 1]%Q 1)%Q.
Proof.
  assert (Hne : fourPoints <> []) by discriminate.
  assert (Hu : uniform 2 fourPoints) by (repeat constructor).
  split; [exact Hne|]. split; [exact Hu|].
  destruct (@training_point_keeps_label 2 2 2 5 fourPoints [3; 1; 4; 1; 5] Hne Hu)
    as (root & s' & E & Hall).
  exists root, s'. split; [exact E|].
  apply (Hall (dp [3; 1]%Q 1)). simpl. auto.
Defined.

End PredictionFacts.

Module ForestPredictionFacts.

Import Forest Ranking Coordinator.

Import NumberFacts Spec Forest ForestFacts EngineFacts GrownFacts PredictionFacts.

(** *** Sums *)

Lemma fold_add_sumQ (l : list Q) (a : Q) : (fold_left add l a == a + sumQ l)%Q.
Proof.
  revert a. induction l as [|x l IH]; intros a; simpl; [lra|].
  rewrite IH. cbn [add Q_Number]. lra.
Qed.

Lemma sumQ_map_ext {A} (f g : A -> Q) (l : list A) :
  (forall x, In x l -> (f x == g x)%Q) -> (sumQ (map f l) == sumQ (map g l))%Q.
Proof.
  induction l as [|x l IH]; intros Hfg; simpl; [reflexivity|].
  rewrite (Hfg x) by (simpl; auto). rewrite IH; [reflexivity|].
  intros y Hy. apply Hfg. simpl. auto.
Qed.

Lemma sumQ_map_div {A} (f : A -> Q) (l : list A) (n : Q) :
  (sumQ (map (fun x => f x / n) l) == sumQ (map f l) / n)%Q.
Proof.
  induction l as [|x l IH]; simpl.
  - unfold Qdiv. ring.
  - rewrite IH. unfold Qdiv. ring.
Qed.

Lemma sumQ_map_const {A} (f : A -> Q) (l : list A) (c : Q) :
  (forall x, In x l -> (f x == c)%Q) ->
  (sumQ (map f l) == inject_Z (Z.of_nat (length l)) * c)%Q.
Proof.
  induction l as [|x l IH]; intros Hc.
  - simpl. ring.
  - cbn [map sumQ fold_right length]. fold (sumQ (map f l)).
    rewrite (Hc x) by (simpl; auto). rewrite IH by (intros y Hy; apply Hc; simpl; auto).
    rewrite Nat2Z.inj_succ. unfold Z.succ. rewrite inject_Z_plus. ring.
Qed.

Lemma sumQ_map_bounds {A} (f : A -> Q) (l : list A) :
  (forall x, In x l -> (0 <= f x <= 1)%Q) ->
  (0 <= sumQ (map f l) <= inject_Z (Z.of_nat (length l)))%Q.
Proof.
  induction l as [|x l IH]; intros Hb.
  - simpl. unfold inject_Z. lra.
  - cbn [map sumQ fold_right length]. fold (sumQ (map f l)).
    destruct (Hb x) as [H0 H1]; [simpl; auto|].
    destruct IH as [I0 I1]; [intros y Hy; apply Hb; simpl; auto|].
    rewrite Nat2Z.inj_succ. unfold Z.succ. rewrite inject_Z_plus.
    change (inject_Z 1) with 1%Q. lra.
Qed.

Lemma inject_pos (n : nat) : 0 < n -> (0 < inject_Z (Z.of_nat n))%Q.
Proof. intros Hn. change 0%Q with (inject_Z 0). rewrite <- Zlt_Qlt. lia. Qed.

(** [predictProba] of a forest is the mean of the trees' answers. *)
Lemma forestPredictProba_mean (trees : list (TreeNode Q)) (fs : list Q) (c : nat) :
  (forestPredictProba trees fs c
   == sumQ (map (fun tree => predictProba tree fs c) trees)
      / inject_Z (Z.of_nat (length trees)))%Q.
Proof.
  unfold forestPredictProba. cbn [div of_nat Q_Number].
  rewrite fold_add_sumQ. change (inject_Z (Z.of_nat 0)) with 0%Q.
  rewrite Qplus_0_l. reflexivity.
Qed.

(** *** Forests grown from data *)

Lemma train_grown (o : RandomForestOptions) (D : nat) (data : list (DataPoint Q))
    (s : list nat) :
  data <> [] -> uniform D data ->
  exists trees s', train o data s = Some (trees, s')
    /\ length trees = numTrees o
    /\ forall tree, In tree trees ->
         forall fs, exists part,
           part <> [] /\ incl part data /\ descend tree fs = distributionOf part.
Proof.
  intros Hne Hu. unfold train.
  destruct (@growTrees_grown o D data (numTrees o) s Hne Hu) as (trees & s' & E & Hl & Hall).
  exists trees, s'. split; [exact E|]. split; [exact Hl|].
  rewrite Forall_forall in Hall. intros tree Hin fs.
  destruct (Hall tree Hin) as (sample & Hs & Hi & Hg).
  destruct (descend_grown Hg fs) as (part & Hp & Hip & Ed).
  exists part. split; [exact Hp|]. split; [|exact Ed].
  intros d Hd. auto.
Qed.

(** X8. In exact arithmetic, the probability that a forest trained on a
    non-empty dataset (points of D features, at least one tree) gives to a
    class lies between 0 and 1. *)
Theorem forest_probability_range (o : RandomForestOptions) (D : nat)
    (data : list (DataPoint Q)) (s : list nat) :
  data <> [] -> uniform D data -> 0 < numTrees o ->
  exists trees s',
    train o data s = Some (trees, s')
    /\ forall fs c, (0 <= forestPredictProba trees fs c <= 1)%Q.
Proof.
  intros Hne Hu Hn.
  destruct (@train_grown o D data s Hne Hu) as (trees & s' & E & Hl & Hall).
  exists trees, s'. split; [exact E|]. intros fs c.
  rewrite forestPredictProba_mean.
  assert (Hb : forall tree, In tree trees -> (0 <= predictProba tree fs c <= 1)%Q).
  { intros tree Hin. destruct (Hall tree Hin fs) as (part & _ & _ & Ed).
    rewrite (@predictProba_share _ _ _ c Ed). apply share_range. }
  destruct (sumQ_map_bounds _ _ Hb) as [H0 H1].
  assert (HT : (0 < inject_Z (Z.of_nat (length trees)))%Q) by (apply inject_pos; lia).
  split.
  - apply Qle_shift_div_l; [exact HT|]. lra.
  - apply Qle_shift_div_r; [exact HT|]. lra.
Qed.

Lemma forest_probability_range_witness :
  fourPoints <> [] /\ uniform 2 fourPoints
  /\ exists trees s',
       train {| numTrees := 3; maxDepth := 5; minSamplesSplit := 2; numFeatures := 2 |}
             fourPoints [3; 1; 4; 1; 5] = Some (trees, s')
       /\ (0 <= forestPredictProba trees [1; 1]%Q 1 <= 1)%Q.
Proof.
  assert (Hne : fourPoints <> []) by discriminate.
  assert (Hu : uniform 2 fourPoints) by (repeat constructor).
  split; [exact Hne|]. split; [exact Hu|].
  destruct (@forest_probability_range
              {| numTrees := 3; maxDepth := 5; minSamplesSplit := 2; numFeatures := 2 |}
              2 fourPoints [3; 1; 4; 1; 5] Hne Hu) as (trees & s' & E & Hall);
    [simpl; lia|].
  exists trees, s'. split; [exact E | apply Hall].
Defined.

(** *** One class *)

Lemma nodup_const (c : nat) (l : list nat) :
  Forall (eq c) l -> l <> [] -> nodup Nat.eq_dec l = [c].
Proof.
  induction l as [|x l IH]; intros Hall Hne; [congruence|].
  inversion Hall as [|x' l' Hx Hall' [Ex El]]. subst x. simpl.
  destruct l as [|y l].
  - simpl. reflexivity.
  - destruct (in_dec Nat.eq_dec c (y :: l)) as [_|Hnot].
    + apply IH; [exact Hall' | discriminate].
    + exfalso. apply Hnot. inversion Hall'; subst. simpl. auto.
Qed.

Lemma buildTree_pure (minSamplesSplit numFeatures remaining c : nat)
    (data : list (DataPoint Q)) (s : list nat) :
  data <> [] -> Forall (fun d => label d = c) data ->
  buildTree minSamplesSplit numFeatures remaining data s = Some (Leaf (distributionOf data), s).
Proof.
  intros Hne Hc. destruct remaining as [|remaining]; [reflexivity|].
  cbn [buildTree].
  assert (E : (labelSetSize data =? 1) = true).
  { apply Nat.eqb_eq. unfold labelSetSize. rewrite (@nodup_const c); [reflexivity| |].
    - apply Forall_forall. intros k Hk. apply in_map_iff in Hk. destruct Hk as (d & <- & Hd).
      rewrite Forall_forall in Hc. symmetry. auto.
    - destruct data; [congruence | discriminate]. }
  rewrite E, orb_true_r. reflexivity.
Qed.

Lemma growTrees_pure (o : RandomForestOptions) (c : nat) (data : list (DataPoint Q))
    (k : nat) (s : list nat) :
  data <> [] -> Forall (fun d => label d = c) data ->
  exists trees s', growTrees o data k s = Some (trees, s')
    /\ length trees = k
    /\ Forall (fun tree => exists sample,
                   sample <> [] /\ incl sample data /\ tree = Leaf (distributionOf sample)) trees.
Proof.
  intros Hne Hc. revert s. induction k as [|k IH]; intros s; simpl.
  - unfold ret. exists [], s. simpl. auto.
  - unfold bind.
    destruct (@bootstrap_total data (length data) s Hne) as (sample & s1 & -> & Hlen & Hin).
    assert (Hs : sample <> []).
    { destruct sample; [|congruence]. destruct data; [congruence | discriminate]. }
    unfold createDecisionTree.
    rewrite (@buildTree_pure (minSamplesSplit o) (numFeatures o) (maxDepth o) c sample s1 Hs).
    + destruct (IH s1) as (trees & s3 & -> & Hl & Hall).
      unfold ret. exists (Leaf (distributionOf sample) :: trees), s3.
      split; [reflexivity|]. split; [simpl; lia|].
      constructor; [|exact Hall]. exists sample. auto.
    + rewrite Forall_forall in *. auto.
Qed.

(** X9. In exact arithmetic, a forest trained on a non-empty dataset all of
    whose points carry one label gives this label probability 1 and every
    other class probability 0, whatever the feature vector. *)
Theorem single_class_forest (o : RandomForestOptions) (c : nat)
    (data : list (DataPoint Q)) (s : list nat) :
  data <> [] -> Forall (fun d => label d = c) data -> 0 < numTrees o ->
  exists trees s',
    train o data s = Some (trees, s')
    /\ forall fs,
         (forestPredictProba trees fs c == 1)%Q
         /\ forall c', c' <> c -> (forestPredictProba trees fs c' == 0)%Q.
Proof.
  intros Hne Hc Hn. unfold train.
  destruct (@growTrees_pure o c data (numTrees o) s Hne Hc) as (trees & s' & E & Hl & Hall).
  exists trees, s'. split; [exact E|]. intros fs.
  rewrite Forall_forall in Hall.
  assert (HT : (0 < inject_Z (Z.of_nat (length trees)))%Q) by (apply inject_pos; lia).
  assert (Hshare : forall tree, In tree trees -> forall k,
             (predictProba tree fs k == if Nat.eq_dec k c then 1 else 0)%Q).
  { intros tree Hin k. destruct (Hall tree Hin) as (sample & Hs & Hi & ->).
    rewrite (@predictProba_share (Leaf (distributionOf sample)) fs sample k eq_refl).
    assert (Hlab : Forall (eq c) (map (@label Q) sample)).
    { apply Forall_forall. intros l Hin'. apply in_map_iff in Hin'.
      destruct Hin' as (d & <- & Hd). rewrite Forall_forall in Hc. symmetry. auto. }
    destruct (Nat.eq_dec k c) as [->|Hk].
    - unfold share. rewrite (count_occ_all Hlab), length_map. apply ratio_self.
      destruct sample; [congruence | simpl; lia].
    - apply share_zero. intros Hin'. rewrite Forall_forall in Hlab.
      apply Hk. symmetry. auto. }
  split.
  - rewrite forestPredictProba_mean.
    rewrite (sumQ_map_const (fun tree => predictProba tree fs c) trees (c := 1%Q)).
    + field. lra.
    + intros tree Hin. rewrite (Hshare tree Hin c).
      destruct (Nat.eq_dec c c); [reflexivity | congruence].
  - intros c' Hc'. rewrite forestPredictProba_mean.
    rewrite (sumQ_map_const (fun tree => predictProba tree fs c') trees (c := 0%Q)).
    + field. lra.
    + intros tree Hin. rewrite (Hshare tree Hin c').
      destruct (Nat.eq_dec c' c); [congruence | reflexivity].
Qed.

Lemma single_class_forest_witness :
  exists trees s',
    train {| numTrees := 2; maxDepth := 3; minSamplesSplit := 2; numFeatures := 1 |}
          [dp [1]%Q 1; dp [2]%Q 1] [] = Some (trees, s')
    /\ (forestPredictProba trees [5]%Q 1 == 1)%Q.
Proof.
  destruct (@single_class_forest
              {| numTrees := 2; maxDepth := 3; minSamplesSplit := 2; numFeatures := 1 |}
              1 [dp [1]%Q 1; dp [2]%Q 1] []) as (trees & s' & E & Hall).
  - discriminate.
  - repeat constructor.
  - simpl. lia.
  - exists trees, s'. split; [exact E | apply Hall].
Defined.

End ForestPredictionFacts.

Module AverageFacts.

Import Forest Ranking Coordinator.

Import NumberFacts Spec Forest ForestFacts EngineFacts GrownFacts PredictionFacts
       ForestPredictionFacts.

(** *** [predictProbaAll] of a forest *)

Lemma sumQ_cons (x : Q) (l : list Q) : sumQ (x :: l) = (x + sumQ l)%Q.
Proof. reflexivity. Qed.

Lemma getQ_set_eq (k : nat) (v : Q) (o : Obj Q) : getQ k (obj_set k v o) = v.
Proof. unfold getQ. now rewrite obj_get_set_eq. Qed.

Lemma getQ_set_neq (k k0 : nat) (v : Q) (o : Obj Q) :
  k0 <> k -> getQ k0 (obj_set k v o) = getQ k0 o.
Proof. intros Hne. unfold getQ. now rewrite obj_get_set_neq. Qed.

Lemma sumQ_obj_set (k : nat) (v : Q) (o : Obj Q) :
  Sorted lt (obj_keys o) ->
  (sumQ (obj_values (obj_set k v o)) + getQ k o == sumQ (obj_values o) + v)%Q.
Proof.
  induction o as [|[k' v'] o IH]; intros Hs.
  - unfold getQ. simpl. lra.
  - cbn [obj_set]. destruct (k <? k') eqn:Hlt.
    + apply Nat.ltb_lt in Hlt. unfold getQ. rewrite (@sorted_head_absent _ _ _ _ _ Hs Hlt).
      simpl. lra.
    + destruct (k =? k') eqn:Heq.
      * unfold getQ. simpl. rewrite Heq. simpl. lra.
      * assert (Hs' : Sorted lt (obj_keys o)) by (inversion Hs; assumption).
        specialize (IH Hs'). unfold getQ in *. simpl. rewrite Heq.
        unfold obj_values in *. simpl in *. lra.
Qed.

Lemma inner_spec (p : Obj Q) (T : nat) (ks : list nat) (avg : Obj Q) :
  Sorted lt (obj_keys avg) -> NoDup ks ->
  Sorted lt (obj_keys (fold_left (innerStep p T) ks avg))
  /\ (forall k, (getQ k (fold_left (innerStep p T) ks avg)
                 == getQ k avg + (if in_dec Nat.eq_dec k ks
                                  then getQ k p / inject_Z (Z.of_nat T) else 0))%Q)
  /\ (sumQ (obj_values (fold_left (innerStep p T) ks avg))
      == sumQ (obj_values avg)
         + sumQ (map (fun k => getQ k p / inject_Z (Z.of_nat T)) ks))%Q.
Proof.
  revert avg. induction ks as [|key ks IH]; intros avg Hs Hnd.
  - simpl. split; [exact Hs|]. split; [intros k; lra | lra].
  - inversion Hnd as [|? ? Hnot Hnd']; subst. cbn [fold_left].
    assert (Hs1 : Sorted lt (obj_keys (innerStep p T avg key))) by (apply obj_set_sorted; exact Hs).
    destruct (IH (innerStep p T avg key) Hs1 Hnd') as (I1 & I2 & I3).
    split; [exact I1|]. split.
    + intros k. rewrite I2. cbn [in_dec].
      destruct (in_dec Nat.eq_dec k ks) as [Hin|Hout].
      * assert (Hne : k <> key) by (intros ->; contradiction).
        unfold innerStep. rewrite getQ_set_neq by exact Hne.
        destruct (in_dec Nat.eq_dec k (key :: ks)) as [_|Hn]; [reflexivity|].
        exfalso. apply Hn. simpl. auto.
      * destruct (Nat.eq_dec key k) as [->|Hne].
        -- unfold innerStep. rewrite getQ_set_eq. rewrite orZero_getQ.
           destruct (in_dec Nat.eq_dec k (k :: ks)) as [_|Hn];
             [|exfalso; apply Hn; simpl; auto].
           cbn [add div of_nat Q_Number]. unfold getQ, Qdiv.
           change (inject_Z (Z.of_nat 0)) with 0%Q. ring.
        -- unfold innerStep. rewrite getQ_set_neq by congruence.
           destruct (in_dec Nat.eq_dec k (key :: ks)) as [[?|?]|_]; [congruence|contradiction|].
           lra.
    + rewrite I3. cbn [map]. rewrite sumQ_cons.
      pose proof (@sumQ_obj_set key
                    (add (orZero (obj_get key avg))
                         (div (match obj_get key p with Some x => x | None => of_nat 0 end)
                              (of_nat T))) avg Hs) as E.
      fold (innerStep p T avg key) in E. rewrite orZero_getQ in E.
      cbn [add div of_nat Q_Number] in E.
      change (inject_Z (Z.of_nat 0)) with 0%Q in E.
      change (match obj_get key p with Some x => x | None => 0%Q end) with (getQ key p) in E.
      lra.
Qed.

Lemma getQ_absent (k : nat) (o : Obj Q) : ~ In k (obj_keys o) -> getQ k o = 0%Q.
Proof.
  intros Hnot. unfold getQ. destruct (obj_get k o) eqn:E; [|reflexivity].
  exfalso. apply Hnot. apply obj_get_in_keys. congruence.
Qed.

Lemma sumQ_values_by_keys (o : Obj Q) :
  NoDup (obj_keys o) -> obj_values o = map (fun k => getQ k o) (obj_keys o).
Proof. intros Hnd. apply (@values_by_keys Q 0%Q o Hnd). Qed.

(** The two loops of [predictProbaAll], from an accumulator. *)
Lemma outer_spec (T : nat) (ps : list (Obj Q)) (avg : Obj Q) :
  Sorted lt (obj_keys avg) ->
  Forall (fun p => Sorted lt (obj_keys p)) ps ->
  let final := fold_left (fun avg p => fold_left (innerStep p T) (obj_keys p) avg) ps avg in
  (forall k, (getQ k final
             == getQ k avg + sumQ (map (fun p => getQ k p / inject_Z (Z.of_nat T)) ps))%Q)
  /\ (sumQ (obj_values final)
      == sumQ (obj_values avg)
         + sumQ (map (fun p => sumQ (obj_values p) / inject_Z (Z.of_nat T)) ps))%Q.
Proof.
  revert avg. induction ps as [|p ps IH]; intros avg Hs Hall; cbn zeta.
  - simpl. split; [intros k; lra | lra].
  - inversion Hall as [|? ? Hp Hall']; subst. cbn [fold_left].
    destruct (@inner_spec p T (obj_keys p) avg Hs (sorted_lt_NoDup Hp)) as (I1 & I2 & I3).
    destruct (IH _ I1 Hall') as [O1 O2]. cbn zeta in O1, O2.
    split.
    + intros k. rewrite O1, I2. cbn [map]. rewrite sumQ_cons.
      destruct (in_dec Nat.eq_dec k (obj_keys p)) as [Hin|Hout]; [unfold Qdiv; ring|].
      rewrite (getQ_absent _ _ Hout). unfold Qdiv. ring.
    + rewrite O2, I3. cbn [map]. rewrite sumQ_cons.
      rewrite sumQ_map_div. rewrite <- sumQ_values_by_keys by (apply sorted_lt_NoDup; exact Hp).
      unfold Qdiv. ring.
Qed.

Lemma forestPredictProbaAll_spec (trees : list (TreeNode Q)) (fs : list Q) :
  Forall (fun tree => Sorted lt (obj_keys (descend tree fs))) trees ->
  (forall k, (getQ k (forestPredictProbaAll trees fs)
              == sumQ (map (fun tree => getQ k (descend tree fs)) trees)
                 / inject_Z (Z.of_nat (length trees)))%Q)
  /\ (sumQ (obj_values (forestPredictProbaAll trees fs))
      == sumQ (map (fun tree => sumQ (obj_values (descend tree fs))) trees)
         / inject_Z (Z.of_nat (length trees)))%Q.
Proof.
  intros Hall.
  assert (Hps : Forall (fun p => Sorted lt (obj_keys p))
                       (map (fun tree => predictProbaAll tree fs) trees)).
  { apply Forall_forall. intros p Hp. apply in_map_iff in Hp. destruct Hp as (tree & <- & Hin).
    rewrite Forall_forall in Hall. now apply Hall. }
  destruct (@outer_spec (length trees) _ [] (Sorted_nil _) Hps) as [O1 O2]. cbn zeta in O1, O2.
  unfold forestPredictProbaAll. split.
  - intros k. unfold innerStep in O1. rewrite O1.
    rewrite map_map. rewrite sumQ_map_div. unfold getQ at 1. simpl. unfold predictProbaAll. lra.
  - unfold innerStep in O2. rewrite O2.
    rewrite map_map. rewrite sumQ_map_div. simpl. unfold predictProbaAll. lra.
Qed.

(** X10. In exact arithmetic, for a forest trained on a non-empty dataset
    (points of D features, at least one tree): the probabilities that
    [predictProbaAll] returns add up to 1. *)
Theorem forest_distribution_sums_to_one (o : RandomForestOptions) (D : nat)
    (data : list (DataPoint Q)) (s : list nat) :
  data <> [] -> uniform D data -> 0 < numTrees o ->
  exists trees s',
    train o data s = Some (trees, s')
    /\ forall fs, (sumQ (obj_values (forestPredictProbaAll trees fs)) == 1)%Q.
Proof.
  intros Hne Hu Hn.
  destruct (@train_grown o D data s Hne Hu) as (trees & s' & E & Hl & Hall).
  exists trees, s'. split; [exact E|]. intros fs.
  assert (Hs : Forall (fun tree => Sorted lt (obj_keys (descend tree fs))) trees).
  { apply Forall_forall. intros tree Hin. destruct (Hall tree Hin fs) as (part & _ & _ & ->).
    apply distributionOf_sorted. }
  destruct (forestPredictProbaAll_spec fs Hs) as [_ Hsum]. rewrite Hsum.
  rewrite (sumQ_map_const (fun tree => sumQ (obj_values (descend tree fs))) trees (c := 1%Q)).
  - assert (HT : (0 < inject_Z (Z.of_nat (length trees)))%Q) by (apply inject_pos; lia).
    field. lra.
  - intros tree Hin. destruct (Hall tree Hin fs) as (part & Hp & _ & ->).
    now apply distributionOf_sum.
Qed.

Lemma forest_distribution_sums_to_one_witness :
  fourPoints <> [] /\ uniform 2 fourPoints
  /\ exists trees s',
       train {| numTrees := 3; maxDepth := 5; minSamplesSplit := 2; numFeatures := 2 |}
             fourPoints [3; 1; 4; 1; 5] = Some (trees, s')
       /\ (sumQ (obj_values (forestPredictProbaAll trees [1; 1]%Q)) == 1)%Q.
Proof.
  assert (Hne : fourPoints <> []) by discriminate.
  assert (Hu : uniform 2 fourPoints) by (repeat constructor).
  split; [exact Hne|]. split; [exact Hu|].
  destruct (@forest_distribution_sums_to_one
              {| numTrees := 3; maxDepth := 5; minSamplesSplit := 2; numFeatures := 2 |}
              2 fourPoints [3; 1; 4; 1; 5] Hne Hu) as (trees & s' & E & Hall);
    [simpl; lia|].
  exists trees, s'. split; [exact E | apply Hall].
Defined.

(** X11. In exact arithmetic, for a forest trained on a non-empty dataset
    (points of D features, at least one tree), the two ways to ask for the
    probability of a class agree: [predictProba(features, c)] is
    [predictProbaAll(features)[c] || 0]. *)
Theorem forest_probabilities_agree (o : RandomForestOptions) (D : nat)
    (data : list (DataPoint Q)) (s : list nat) :
  data <> [] -> uniform D data -> 0 < numTrees o ->
  exists trees s',
    train o data s = Some (trees, s')
    /\ forall fs c,
         (forestPredictProba trees fs c
          == orZero (obj_get c (forestPredictProbaAll trees fs)))%Q.
Proof.
  intros Hne Hu Hn.
  destruct (@train_grown o D data s Hne Hu) as (trees & s' & E & Hl & Hall).
  exists trees, s'. split; [exact E|]. intros fs c.
  assert (Hs : Forall (fun tree => Sorted lt (obj_keys (descend tree fs))) trees).
  { apply Forall_forall. intros tree Hin. destruct (Hall tree Hin fs) as (part & _ & _ & ->).
    apply distributionOf_sorted. }
  destruct (forestPredictProbaAll_spec fs Hs) as [Hget _].
  rewrite orZero_getQ, Hget, forestPredictProba_mean.
  apply Qmult_comp; [|reflexivity].
  apply sumQ_map_ext. intros tree _. unfold predictProba. apply orZero_getQ.
Qed.

Lemma forest_probabilities_agree_witness :
  fourPoints <> [] /\ uniform 2 fourPoints
  /\ exists trees s',
       train {| numTrees := 3; maxDepth := 5; minSamplesSplit := 2; numFeatures := 2 |}
             fourPoints [3; 1; 4; 1; 5] = Some (trees, s')
       /\ (forestPredictProba trees [1; 1]%Q 1
           == orZero (obj_get 1 (forestPredictProbaAll trees [1; 1]%Q)))%Q.
Proof.
  assert (Hne : fourPoints <> []) by discriminate.
  assert (Hu : uniform 2 fourPoints) by (repeat constructor).
  split; [exact Hne|]. split; [exact Hu|].
  destruct (@forest_probabilities_agree
              {| numTrees := 3; maxDepth := 5; minSamplesSplit := 2; numFeatures := 2 |}
              2 fourPoints [3; 1; 4; 1; 5] Hne Hu) as (trees & s' & E & Hall);
    [simpl; lia|].
  exists trees, s'. split; [exact E | apply Hall].
Defined.

End AverageFacts.

Module VoteFacts.

Import Forest Ranking Coordinator.

Import NumberFacts Spec Forest ForestFacts EngineFacts GrownFacts PredictionFacts
       ForestPredictionFacts AverageFacts.

(** *** The vote of a forest *)

Lemma votes_collected (trees : list (TreeNode Q)) (fs : list Q) :
  (forall tree, In tree trees -> exists c, predict tree fs = Some c) ->
  exists votes,
    Forall2 (fun tree v => predict tree fs = Some v) trees votes
    /\ fold_right
         (fun tree acc =>
            match predict tree fs, acc with
            | Some p, Some ps => Some (p :: ps)
            | _, _ => None
            end)
         (Some []) trees = Some votes.
Proof.
  induction trees as [|tree trees IH]; intros Hall.
  - exists []. split; [constructor | reflexivity].
  - destruct IH as (votes & Hv & E); [intros t Ht; apply Hall; simpl; auto|].
    destruct (Hall tree) as (c & Ec); [simpl; auto|].
    exists (c :: votes). split; [now constructor|].
    cbn [fold_right]. rewrite E, Ec. reflexivity.
Qed.

Lemma ltb_Qltb (x y : nat) :
  (x <? y) = Qltb (inject_Z (Z.of_nat x)) (inject_Z (Z.of_nat y)).
Proof.
  destruct (x <? y) eqn:E; symmetry.
  - apply Nat.ltb_lt in E. apply Qltb_lt. rewrite <- Zlt_Qlt. lia.
  - apply Nat.ltb_ge in E. apply Qltb_ge. rewrite <- Zle_Qle. lia.
Qed.

Lemma vote_winner (votes : list nat) :
  votes <> [] ->
  exists c,
    reduce1
      (fun a b =>
         if (match obj_get b (countLabels votes) with Some c => c | None => 0 end
             <? match obj_get a (countLabels votes) with Some c => c | None => 0 end)
         then a else b)
      (obj_keys (countLabels votes)) = Some c
    /\ In c votes
    /\ (forall k, count_occ Nat.eq_dec votes k <= count_occ Nat.eq_dec votes c)
    /\ (forall k, count_occ Nat.eq_dec votes k = count_occ Nat.eq_dec votes c -> k <= c).
Proof.
  intros Hne.
  assert (Hkeys : obj_keys (countLabels votes) <> []).
  { destruct votes as [|v votes]; [congruence|]. intros E0.
    assert (Hin : In v (obj_keys (countLabels (v :: votes)))).
    { apply countLabels_keys_in. simpl. auto. }
    rewrite E0 in Hin. contradiction. }
  assert (Hs : StronglySorted lt (obj_keys (countLabels votes))).
  { apply Sorted_StronglySorted; [intros x y z; lia|]. apply fold_incr_sorted. constructor. }
  destruct (@reduce1_argmax
              (fun k => inject_Z (Z.of_nat (count_occ Nat.eq_dec votes k)))
              (fun a b =>
                 if (match obj_get b (countLabels votes) with Some c => c | None => 0 end
                     <? match obj_get a (countLabels votes) with Some c => c | None => 0 end)
                 then a else b)
              (obj_keys (countLabels votes)) Hkeys) as (c & Ec & Hc & Hmax & Htie).
  { intros a b _ _. rewrite <- !countLabels_get. unfold getOr0. now rewrite ltb_Qltb. }
  exists c. split; [exact Ec|].
  pose proof (proj1 (countLabels_keys_in c votes) Hc) as Hcv.
  split; [exact Hcv|].
  assert (Hpos : 0 < count_occ Nat.eq_dec votes c) by (now apply count_occ_In).
  assert (Hout : forall k, ~ In k (obj_keys (countLabels votes)) ->
                   count_occ Nat.eq_dec votes k = 0).
  { intros k Hk. apply count_occ_not_In. intros Hin. apply Hk. now apply countLabels_keys_in. }
  split.
  - intros k. destruct (in_dec Nat.eq_dec k (obj_keys (countLabels votes))) as [Hin|Hnot].
    + specialize (Hmax k Hin). rewrite <- Zle_Qle in Hmax. lia.
    + rewrite (Hout k Hnot). lia.
  - intros k Ek. destruct (in_dec Nat.eq_dec k (obj_keys (countLabels votes))) as [Hin|Hnot].
    + apply (Htie Hs k Hin). rewrite Ek. reflexivity.
    + rewrite (Hout k Hnot) in Ek. lia.
Qed.

(** X12. In exact arithmetic, for a forest trained on a non-empty dataset
    (points of D features, labels that are array indices, below 2^32 - 1,
    and at least one tree): every tree predicts, and [predict] of the
    forest returns a label of the data with the greatest number of votes,
    the greatest such label when several tie. *)
Theorem forest_majority_vote (o : RandomForestOptions) (D : nat)
    (data : list (DataPoint Q)) (s : list nat) :
  data <> [] -> uniform D data -> indexLabels data -> 0 < numTrees o ->
  exists trees s',
    train o data s = Some (trees, s')
    /\ forall fs, exists votes c,
         Forall2 (fun tree v => predict tree fs = Some v) trees votes
         /\ forestPredict trees fs = Some c
         /\ In c votes
         /\ In c (map (@label Q) data)
         /\ (forall k, count_occ Nat.eq_dec votes k <= count_occ Nat.eq_dec votes c)
         /\ (forall k, count_occ Nat.eq_dec votes k = count_occ Nat.eq_dec votes c -> k <= c).
Proof.
  intros Hne Hu _ Hn.
  destruct (@train_grown o D data s Hne Hu) as (trees & s' & E & Hl & Hall).
  exists trees, s'. split; [exact E|]. intros fs.
  assert (Hp : forall tree, In tree trees ->
             exists c, predict tree fs = Some c /\ In c (map (@label Q) data)).
  { intros tree Hin. destruct (Hall tree Hin fs) as (part & Hpne & Hi & Ed).
    destruct (predict_leaf tree fs Hpne Ed) as (c & H1 & H2 & _).
    exists c. split; [exact H1|]. apply (incl_labels Hi). exact H2. }
  destruct (@votes_collected trees fs) as (votes & Hv & Ev).
  { intros tree Hin. destruct (Hp tree Hin) as (c & Ec & _). eauto. }
  assert (Hvne : votes <> []).
  { intros ->. inversion Hv; subst. simpl in Hl. lia. }
  destruct (vote_winner Hvne) as (c & Ec & Hc & Hmax & Htie).
  exists votes, c. split; [exact Hv|].
  split; [unfold forestPredict; rewrite Ev; exact Ec|].
  split; [exact Hc|]. split; [|auto].
  clear - Hv Hc Hp. induction Hv as [|tree v trees votes Hpv Hv IH]; [contradiction|].
  destruct Hc as [<-|Hc].
  - destruct (Hp tree) as (c & Ec & Hlab); [simpl; auto|]. congruence.
  - apply IH; [|exact Hc]. intros t Ht. apply Hp. simpl. auto.
Qed.

Lemma forest_majority_vote_witness :
  fourPoints <> [] /\ uniform 2 fourPoints /\ indexLabels fourPoints
  /\ exists trees s',
       train {| numTrees := 3; maxDepth := 5; minSamplesSplit := 2; numFeatures := 2 |}
             fourPoints [3; 1; 4; 1; 5] = Some (trees, s')
       /\ exists c, forestPredict trees [1; 1]%Q = Some c
                    /\ In c (map (@label Q) fourPoints).
Proof.
  assert (Hne : fourPoints <> []) by discriminate.
  assert (Hu : uniform 2 fourPoints) by (repeat constructor).
  assert (Hi : indexLabels fourPoints)
    by (repeat (constructor; [vm_compute; reflexivity|]); constructor).
  split; [exact Hne|]. split; [exact Hu|]. split; [exact Hi|].
  destruct (@forest_majority_vote
              {| numTrees := 3; maxDepth := 5; minSamplesSplit := 2; numFeatures := 2 |}
              2 fourPoints [3; 1; 4; 1; 5] Hne Hu Hi) as (trees & s' & E & Hall);
    [simpl; lia|].
  exists trees, s'. split; [exact E|].
  destruct (Hall [1; 1]%Q) as (votes & c & _ & Ec & _ & Hlab & _).
  exists c. auto.
Defined.

(** *** The range of the Gini impurity *)

Lemma sq_le_self (r : Q) : (0 <= r <= 1 -> r * r <= r)%Q.
Proof. intros [H0 H1]. nra. Qed.

Lemma sq_lt_self (r : Q) : (0 < r -> r < 1 -> r * r < r)%Q.
Proof. intros H0 H1. nra. Qed.

Lemma sumQ_sq_le (n : nat) (cs : list nat) :
  Forall (fun c => c <= n) cs ->
  (sumQ (map (fun c => ratio c n ^ 2) cs) <= sumQ (map (fun c => ratio c n) cs))%Q.
Proof.
  induction 1 as [|c cs Hc Hall IH]; [simpl; lra|].
  cbn [map]. rewrite !sumQ_cons, sq_mul.
  pose proof (@sq_le_self (ratio c n) (conj (ratio_nonneg c n) (ratio_le_1 Hc))). lra.
Qed.

Lemma sumQ_sq_lt (n : nat) (cs : list nat) :
  Forall (fun c => c <= n) cs ->
  (exists c, In c cs /\ 0 < c < n) ->
  (sumQ (map (fun c => ratio c n ^ 2) cs) < sumQ (map (fun c => ratio c n) cs))%Q.
Proof.
  induction 1 as [|c cs Hc Hall IH]; intros (c0 & Hin & Hc0); [contradiction|].
  cbn [map]. rewrite !sumQ_cons, sq_mul. destruct Hin as [->|Hin].
  - pose proof (sumQ_sq_le Hall).
    assert (H0 : (0 < ratio c0 n)%Q) by (apply ratio_pos; lia).
    assert (H1 : (ratio c0 n < 1)%Q).
    { unfold ratio. apply Qlt_shift_div_r.
      - change 0%Q with (inject_Z 0). rewrite <- Zlt_Qlt. lia.
      - rewrite Qmult_1_l. rewrite <- Zlt_Qlt. lia. }
    pose proof (sq_lt_self H0 H1). lra.
  - pose proof (@sq_le_self (ratio c n) (conj (ratio_nonneg c n) (ratio_le_1 Hc))).
    assert (Ih : (sumQ (map (fun c => ratio c n ^ 2) cs) < sumQ (map (fun c => ratio c n) cs))%Q).
    { apply IH. exists c0. auto. }
    lra.
Qed.

Lemma sumN_bound (cs : list nat) (c : nat) : In c cs -> c <= sumN cs.
Proof.
  induction cs as [|x cs IH]; simpl; [contradiction|].
  intros [->|Hin]; [lia|]. specialize (IH Hin). lia.
Qed.

Lemma counts_positive (labels : list nat) :
  Forall (fun c => 0 < c) (obj_values (countLabels labels)).
Proof.
  rewrite countLabels_values. apply Forall_forall. intros c Hc.
  apply in_map_iff in Hc. destruct Hc as (k & <- & Hk).
  apply count_occ_In. now apply countLabels_keys_in.
Qed.

Lemma sumQ_sq_pos (n : nat) (cs : list nat) :
  0 < n -> cs <> [] -> Forall (fun c => 0 < c) cs ->
  (0 < sumQ (map (fun c => ratio c n ^ 2) cs))%Q.
Proof.
  intros Hn Hne Hall. destruct cs as [|c cs]; [congruence|].
  inversion Hall as [|? ? Hc Hall']; subst. cbn [map]. rewrite sumQ_cons.
  assert (H0 : (0 < ratio c n)%Q) by (apply ratio_pos; lia).
  assert (Hrest : (0 <= sumQ (map (fun c => ratio c n ^ 2) cs))%Q).
  { clear. induction cs as [|x cs IH]; [simpl; lra|].
    cbn [map]. rewrite sumQ_cons, sq_mul.
    pose proof (ratio_nonneg x n). nra. }
  rewrite sq_mul. nra.
Qed.

(** X13. In exact arithmetic, the Gini impurity of a non-empty list of
    labels is at least 0 and below 1, and it is 0 exactly when all the
    labels are the same. *)
Theorem giniImpurity_range (labels : list nat) :
  labels <> [] ->
  (0 <= giniImpurity (N:=Q) labels)%Q
  /\ (giniImpurity (N:=Q) labels < 1)%Q
  /\ ((giniImpurity (N:=Q) labels == 0)%Q <-> exists c, Forall (eq c) labels).
Proof.
  intros Hne.
  set (cs := obj_values (countLabels labels)).
  set (n := length labels).
  assert (Hn : 0 < n) by (subst n; destruct labels; [congruence | simpl; lia]).
  assert (Hsum : sumN cs = n) by apply sumN_countLabels.
  assert (Hpos : Forall (fun c => 0 < c) cs) by apply counts_positive.
  assert (Hle : Forall (fun c => c <= n) cs).
  { apply Forall_forall. intros c Hc. rewrite <- Hsum. now apply sumN_bound. }
  assert (Hcs : cs <> []).
  { intros E. rewrite E in Hsum. simpl in Hsum. lia. }
  assert (Hone : (sumQ (map (fun c => ratio c n) cs) == 1)%Q).
  { rewrite sumQ_ratio, Hsum. apply ratio_self. lia. }
  pose proof (giniImpurity_sum labels) as Hg. fold cs n in Hg.
  pose proof (sumQ_sq_le Hle) as Hsq.
  pose proof (sumQ_sq_pos Hn Hcs Hpos) as Hsqpos.
  split; [lra|]. split; [lra|].
  split.
  - intros Hz.
    assert (Hlen : length cs = 1).
    { destruct cs as [|c1 [|c2 rest]] eqn:Ecs; [congruence | reflexivity |].
      exfalso.
      assert (Hlt : (sumQ (map (fun c => ratio c n ^ 2) (c1 :: c2 :: rest))
                     < sumQ (map (fun c => ratio c n) (c1 :: c2 :: rest)))%Q).
      { apply sumQ_sq_lt; [exact Hle|]. exists c1. split; [simpl; auto|].
        inversion Hpos as [|? ? Hp1 Hpos']; subst.
        inversion Hpos' as [|? ? Hp2 _]; subst.
        simpl in Hsum. lia. }
      lra. }
    assert (Hk : length (obj_keys (countLabels labels)) = 1).
    { unfold obj_keys. rewrite length_map. subst cs. unfold obj_values in Hlen.
      now rewrite length_map in Hlen. }
    destruct (obj_keys (countLabels labels)) as [|c [|? ?]] eqn:Ek; try discriminate.
    exists c. apply Forall_forall. intros l Hl.
    apply countLabels_keys_in in Hl. rewrite Ek in Hl. destruct Hl as [<-|[]]. reflexivity.
  - intros (c & Hc).
    assert (Ek : obj_keys (countLabels labels) = [c]).
    { pose proof (countLabels_keys_perm labels) as Hp.
      rewrite (nodup_const Hc Hne) in Hp. apply Permutation_sym in Hp.
      now apply Permutation_length_1_inv in Hp. }
    assert (Ecs : cs = [n]).
    { subst cs. rewrite countLabels_values, Ek. simpl. now rewrite (count_occ_all Hc). }
    rewrite Hg, Ecs. cbn [map]. rewrite sumQ_cons, sq_mul, (ratio_self (n:=n)) by lia.
    change (sumQ []) with 0%Q. lra.
Qed.

Lemma giniImpurity_range_witness :
  [0; 1; 1] <> []
  /\ (0 <= giniImpurity (N:=Q) [0; 1; 1]%nat)%Q
  /\ (giniImpurity (N:=Q) [0; 1; 1]%nat < 1)%Q.
Proof.
  assert (Hne : [0; 1; 1] <> []) by discriminate.
  split; [exact Hne|].
  destruct (giniImpurity_range Hne) as (H0 & H1 & _). split; [exact H0 | exact H1].
Defined.

End VoteFacts.

(** ** The final order: ties and the first screens *)

Module GroupFacts.

Import Forest Ranking Coordinator.

Import NumberFacts Spec Ranking OrderFacts.

(** A list in descending order of a rank with three values is the
    concatenation of its three groups. *)
Lemma sorted_groups {A} (rank : A -> nat) (l : list A) :
  (forall x, In x l -> rank x <= 2) ->
  StronglySorted (fun x y => rank y <= rank x) l ->
  l = filter (fun x => rank x =? 2) l
      ++ filter (fun x => rank x =? 1) l
      ++ filter (fun x => rank x =? 0) l.
Proof.
  intros Hb Hs. induction Hs as [|a l Hs IH Hall]; [reflexivity|].
  assert (Hb' : forall x, In x l -> rank x <= 2) by (intros x Hx; apply Hb; simpl; auto).
  specialize (IH Hb'). rewrite Forall_forall in Hall.
  assert (Hnone : forall r, rank a < r -> filter (fun x => rank x =? r) l = []).
  { intros r Hr. rewrite (filter_ext_in _ (fun _ => false)); [apply filter_false|].
    intros x Hx. apply Nat.eqb_neq. specialize (Hall x Hx). lia. }
  pose proof (Hb a (or_introl eq_refl)) as Ha.
  cbn [filter].
  destruct (rank a) as [|[|[|r]]] eqn:Er; [| | |lia]; cbn [Nat.eqb].
  - rewrite (Hnone 2), (Hnone 1) by lia. cbn [app]. f_equal.
    rewrite IH at 1. rewrite (Hnone 2), (Hnone 1) by lia. reflexivity.
  - rewrite (Hnone 2) by lia. cbn [app]. f_equal.
    rewrite IH at 1. rewrite (Hnone 2) by lia. reflexivity.
  - cbn [app]. f_equal. exact IH.
Qed.

Lemma map_filter_file {N} (p : File -> bool) (l : list (Ranked N)) :
  map (@file N) (filter (fun i => p (file i)) l) = filter p (map (@file N) l).
Proof.
  induction l as [|x l IH]; simpl; [reflexivity|].
  destruct (p (file x)); simpl; now rewrite IH.
Qed.

Lemma scoredWith_stable (pref : FileMap bool) (rankings : list (Ranked Q))
    (s : LabelStatus) (q : Q) :
  filter (scoredWith pref s q) (orderRankings pref rankings)
  = filter (scoredWith pref s q) rankings.
Proof.
  apply orderRankings_stable. intros x y Px Py.
  unfold scoredWith in Px, Py. rewrite !rankOf_status.
  destruct (scoreFinal x) as [sx|]; [|discriminate].
  destruct (scoreFinal y) as [sy|]; [|discriminate].
  apply andb_true_iff in Px, Py. destruct Px as [Qx Sx], Py as [Qy Sy].
  apply Qeq_bool_iff in Qx, Qy. apply Nat.eqb_eq in Sx, Sy.
  split; [|simpl; lra].
  destruct (labelStatus pref x), (labelStatus pref y), s; simpl in *; try lia; reflexivity.
Qed.

(** X14. The final order is stable on ties: the images of one label that
    have the same score keep the order they had in [images]. *)
Theorem equal_scores_keep_order (imagePreference : FileMap bool) :
  (forall (rankings : list (Ranked Q)) (s : LabelStatus) (q : Q),
      filter (scoredWith imagePreference s q) (orderRankings imagePreference rankings)
      = filter (scoredWith imagePreference s q) rankings)
  /\ forall (sqrtQ : Sqrt Q) (images : list File)
        (imagesWithEmbeddings : FileMap (Embedding Q))
        (imageForestPredictions : option (FileMap Q)) (sortingMethod : SortingMethod),
       match imagesSorted images imagePreference imagesWithEmbeddings
               imageForestPredictions sortingMethod with
       | Some sorted =>
           exists rankings,
             imagesWithRankings images imagePreference imagesWithEmbeddings
               imageForestPredictions sortingMethod = Some rankings
             /\ map (@file Q) rankings = images
             /\ forall s q,
                  filter (scoredWith imagePreference s q) sorted
                  = filter (scoredWith imagePreference s q) rankings
       | None => True
       end.
Proof.
  split.
  - intros rankings s q. apply scoredWith_stable.
  - intros sqrtQ images emb preds method. unfold imagesSorted.
    destruct (imagesWithRankings images imagePreference emb preds method) as [rankings|] eqn:E;
      cbn [option_map]; [|exact I].
    exists rankings. split; [reflexivity|].
    split; [exact (imagesWithRankings_files _ _ _ _ _ E)|].
    intros s q. apply scoredWith_stable.
Qed.

(** *** No score at all *)

Lemma labelStatus_statusOf {N} (pref : FileMap bool) (i : Ranked N) :
  labelStatus pref i = statusOf pref (file i).
Proof. reflexivity. Qed.

Lemma statusRank_bound (s : LabelStatus) : statusRank s <= 2.
Proof. destruct s; simpl; lia. Qed.

Lemma unscored_order (pref : FileMap bool) (rankings : list (Ranked Q)) :
  Forall (fun i => scoreFinal i = None) rankings ->
  map (@file Q) (orderRankings pref rankings)
  = withStatus pref Liked (map (@file Q) rankings)
    ++ withStatus pref Unlabelled (map (@file Q) rankings)
    ++ withStatus pref Disliked (map (@file Q) rankings).
Proof.
  intros Hnone.
  assert (Hnone' : forall i, In i (orderRankings pref rankings) -> scoreFinal i = None).
  { intros i Hi. apply (Permutation_in _ (orderRankings_perm pref rankings)) in Hi.
    rewrite Forall_forall in Hnone. auto. }
  pose proof (orderRankings_rankedBefore pref rankings) as Hs.
  assert (Hs' : StronglySorted
                  (fun x y => statusRank (labelStatus pref y) <= statusRank (labelStatus pref x))
                  (orderRankings pref rankings)).
  { eapply StronglySorted_weaken; [|exact Hs]. intros x y _ _ [H _]. exact H. }
  rewrite (@sorted_groups _ (fun i => statusRank (labelStatus pref i)) _
             (fun x _ => statusRank_bound _) Hs') at 1.
  assert (Hg : forall s,
             filter (fun i => statusRank (labelStatus pref i) =? statusRank s)
                    (orderRankings pref rankings)
             = filter (fun i => statusRank (labelStatus pref i) =? statusRank s) rankings).
  { intros s.
    rewrite (filter_ext_in _ (unscoredWith pref s) (orderRankings pref rankings)).
    - rewrite orderRankings_unscored_stable.
      apply filter_ext_in. intros i Hi. unfold unscoredWith.
      rewrite Forall_forall in Hnone. now rewrite (Hnone i Hi).
    - intros i Hi. unfold unscoredWith. now rewrite (Hnone' i Hi). }
  change 2 with (statusRank Liked). change 1 with (statusRank Unlabelled).
  change 0 with (statusRank Disliked).
  rewrite !Hg, !map_app. unfold withStatus.
  rewrite <- !(map_filter_file (fun f => statusRank (statusOf pref f) =? statusRank _)).
  reflexivity.
Qed.

Lemma rankings_without_embeddings {N} `{Number N} `{Sqrt N} (images : list File)
    (pref : FileMap bool) (preds : option (FileMap N)) :
  imagesWithRankings images pref [] preds cosine
  = Some (map (fun f => {| file := f; rankedScore := None;
                           scoreRf := match preds with
                                      | Some predictions => map_get f predictions
                                      | None => None
                                      end;
                           scoreFinal := None |}) images).
Proof.
  unfold imagesWithRankings. induction images as [|f images IH]; [reflexivity|].
  cbn [mapExc map]. unfold score at 1. cbn [floatEmbeddingOf map_get].
  rewrite IH. reflexivity.
Qed.

(** X15. While no embedding is known, the page shows the liked images, then
    the unlabelled ones, then the disliked ones, each group in the order of
    [images]. *)
Theorem order_before_embeddings (sqrtQ : Sqrt Q) (images : list File)
    (imagePreference : FileMap bool) (imageForestPredictions : option (FileMap Q)) :
  exists sorted,
    imagesSorted images imagePreference [] imageForestPredictions cosine = Some sorted
    /\ map (@file Q) sorted
       = withStatus imagePreference Liked images
         ++ withStatus imagePreference Unlabelled images
         ++ withStatus imagePreference Disliked images.
Proof.
  unfold imagesSorted. rewrite rankings_without_embeddings. cbn [option_map].
  eexists. split; [reflexivity|].
  rewrite unscored_order.
  - rewrite map_map. cbn [file]. rewrite map_id. reflexivity.
  - apply Forall_forall. intros i Hi. apply in_map_iff in Hi.
    destruct Hi as (f & <- & _). reflexivity.
Qed.

(** *** No label at all *)

Lemma rankings_without_labels (sqrtQ : Sqrt Q) (images : list File)
    (emb : FileMap (Embedding Q)) (preds : option (FileMap Q)) :
  exists rankings,
    imagesWithRankings images [] emb preds cosine = Some rankings
    /\ map (@file Q) rankings = images
    /\ Forall (fun i => scoreFinal i
                        = if hasEmbedding emb (file i)
                          then Some (sub (of_nat 0) (of_nat 0)) else None) rankings.
Proof.
  unfold imagesWithRankings. induction images as [|f images IH].
  - exists []. simpl. auto.
  - destruct IH as (rankings & E & Hf & Hall).
    cbn [mapExc]. rewrite E. unfold score at 1, hasEmbedding.
    destruct (floatEmbeddingOf emb f) as [e|] eqn:Ee.
    + cbn [labelledEmbeddings map_keys map filter flat_map sumSimilarities reduceExc option_map].
      eexists. split; [reflexivity|]. split; [simpl; now rewrite Hf|].
      constructor; [|exact Hall]. cbn [scoreFinal file]. unfold hasEmbedding. now rewrite Ee.
    + cbn [option_map]. eexists. split; [reflexivity|]. split; [simpl; now rewrite Hf|].
      constructor; [|exact Hall]. cbn [scoreFinal file]. unfold hasEmbedding. now rewrite Ee.
Qed.

(** X16. With no label and the cosine strategy, every image with an
    embedding scores 0 - 0, scoring never throws, and the page shows the
    images without an embedding first and then those with one, each group in
    the order of [images]. *)
Theorem order_without_labels (sqrtQ : Sqrt Q) (images : list File)
    (imagesWithEmbeddings : FileMap (Embedding Q))
    (imageForestPredictions : option (FileMap Q)) :
  exists sorted,
    imagesSorted images [] imagesWithEmbeddings imageForestPredictions cosine = Some sorted
    /\ map (@file Q) sorted
       = filter (fun file => negb (hasEmbedding imagesWithEmbeddings file)) images
         ++ filter (hasEmbedding imagesWithEmbeddings) images
    /\ Forall (fun i => scoreFinal i
                        = if hasEmbedding imagesWithEmbeddings (file i)
                          then Some (sub (of_nat 0) (of_nat 0)) else None) sorted.
Proof.
  destruct (rankings_without_labels sqrtQ images imagesWithEmbeddings imageForestPredictions)
    as (rankings & E & Hf & Hall).
  unfold imagesSorted. rewrite E. cbn [option_map].
  exists (orderRankings [] rankings). split; [reflexivity|].
  set (emb := imagesWithEmbeddings) in *.
  assert (Hall' : Forall (fun i => scoreFinal i
                                   = if hasEmbedding emb (file i)
                                     then Some (sub (of_nat 0) (of_nat 0)) else None)
                         (orderRankings [] rankings)).
  { apply Forall_forall. intros i Hi.
    apply (Permutation_in _ (orderRankings_perm [] rankings)) in Hi.
    rewrite Forall_forall in Hall. auto. }
  split; [|exact Hall'].
  rewrite Forall_forall in Hall, Hall'.
  set (rank := fun i : Ranked Q => if hasEmbedding emb (file i) then 0 else 1).
  assert (Hs : StronglySorted (fun x y => rank y <= rank x) (orderRankings [] rankings)).
  { eapply StronglySorted_weaken; [|apply (orderRankings_unscoredFirst [] rankings)].
    intros x y Hx Hy Hu. unfold rank.
    destruct (hasEmbedding emb (file y)) eqn:Ey; [destruct (hasEmbedding emb (file x)); lia|].
    pose proof (Hall' y Hy) as Sy. rewrite Ey in Sy.
    pose proof (Hu eq_refl Sy) as Sx. rewrite (Hall' x Hx) in Sx.
    destruct (hasEmbedding emb (file x)); [discriminate | lia]. }
  assert (Hb : forall x, In x (orderRankings [] rankings) -> rank x <= 2).
  { intros x _. unfold rank. destruct (hasEmbedding emb (file x)); lia. }
  rewrite (sorted_groups rank Hb Hs) at 1.
  assert (E2 : filter (fun x => rank x =? 2) (orderRankings [] rankings) = []).
  { rewrite (filter_ext_in _ (fun _ => false)); [apply filter_false|].
    intros x _. unfold rank. destruct (hasEmbedding emb (file x)); reflexivity. }
  assert (E1 : filter (fun x => rank x =? 1) (orderRankings [] rankings)
               = filter (fun i => negb (hasEmbedding emb (file i))) rankings).
  { rewrite (filter_ext_in _ (unscoredWith [] Unlabelled) (orderRankings [] rankings)).
    - rewrite orderRankings_unscored_stable. apply filter_ext_in. intros i Hi.
      unfold unscoredWith. rewrite (Hall i Hi).
      destruct (hasEmbedding emb (file i)); reflexivity.
    - intros i Hi. unfold unscoredWith, rank. rewrite (Hall' i Hi).
      destruct (hasEmbedding emb (file i)); reflexivity. }
  assert (E0 : filter (fun x => rank x =? 0) (orderRankings [] rankings)
               = filter (fun i => hasEmbedding emb (file i)) rankings).
  { rewrite (filter_ext_in _ (scoredWith [] Unlabelled (sub (of_nat 0) (of_nat 0)))
               (orderRankings [] rankings)).
    - rewrite scoredWith_stable. apply filter_ext_in. intros i Hi.
      unfold scoredWith. rewrite (Hall i Hi).
      destruct (hasEmbedding emb (file i)); reflexivity.
    - intros i Hi. unfold scoredWith, rank. rewrite (Hall' i Hi).
      destruct (hasEmbedding emb (file i)); reflexivity. }
  rewrite E2, E1, E0. cbn [app]. rewrite map_app.
  rewrite (map_filter_file (fun f => negb (hasEmbedding emb f))).
  rewrite (map_filter_file (hasEmbedding emb)). now rewrite Hf.
Qed.

End GroupFacts.

(** ** Preferences *)

Module PreferenceFacts.

Import Forest Ranking Coordinator Page.

Import Spec Ranking Coordinator Page.

Lemma map_get_set_eq {V} (file : File) (v : V) (m : FileMap V) :
  map_get file (map_set file v m) = Some v.
Proof.
  induction m as [|[f' v'] m IH]; simpl.
  - now rewrite Nat.eqb_refl.
  - destruct (file =? f') eqn:E; simpl.
    + now rewrite Nat.eqb_refl.
    + now rewrite E.
Qed.

Lemma map_get_set_neq {V} (file file' : File) (v : V) (m : FileMap V) :
  file' <> file -> map_get file' (map_set file v m) = map_get file' m.
Proof.
  intros Hne. induction m as [|[f' v'] m IH]; simpl.
  - apply Nat.eqb_neq in Hne. now rewrite Hne.
  - destruct (file =? f') eqn:E; simpl.
    + apply Nat.eqb_eq in E. subst f'. apply Nat.eqb_neq in Hne. now rewrite Hne.
    + now rewrite IH.
Qed.

Lemma map_get_delete_eq {V} (file : File) (m : FileMap V) :
  map_get file (map_delete file m) = None.
Proof.
  unfold map_delete. induction m as [|[f' v'] m IH]; simpl; [reflexivity|].
  destruct (f' =? file) eqn:E; simpl; [exact IH|].
  rewrite Nat.eqb_sym, E. exact IH.
Qed.

Lemma map_get_delete_neq {V} (file file' : File) (m : FileMap V) :
  file' <> file -> map_get file' (map_delete file m) = map_get file' m.
Proof.
  intros Hne. unfold map_delete. induction m as [|[f' v'] m IH]; simpl; [reflexivity|].
  destruct (f' =? file) eqn:E; simpl.
  - apply Nat.eqb_eq in E. subst f'. apply Nat.eqb_neq in Hne. now rewrite Hne.
  - now rewrite IH.
Qed.

Lemma map_get_keys {V} (file : File) (m : FileMap V) :
  In file (map_keys m) <-> map_get file m <> None.
Proof.
  unfold map_keys. induction m as [|[f' v'] m IH]; simpl.
  - split; [tauto | congruence].
  - destruct (file =? f') eqn:E.
    + apply Nat.eqb_eq in E. split; [discriminate | auto].
    + apply Nat.eqb_neq in E. rewrite <- IH.
      split; [intros [?|?]; congruence || assumption | auto].
Qed.

(** [set] keeps the place of a key that the map has, and puts a new key last. *)
Lemma map_set_keys {V} (file : File) (v : V) (m : FileMap V) :
  map_keys (map_set file v m)
  = if existsb (Nat.eqb file) (map_keys m) then map_keys m else map_keys m ++ [file].
Proof.
  unfold map_keys. induction m as [|[f' v'] m IH]; simpl; [reflexivity|].
  destruct (file =? f') eqn:E; simpl.
  - apply Nat.eqb_eq in E. now subst.
  - rewrite IH. destruct (existsb (Nat.eqb file) (map fst m)); reflexivity.
Qed.

Lemma map_set_absent {V} (file : File) (v : V) (m : FileMap V) :
  map_get file m = None -> map_set file v m = m ++ [(file, v)].
Proof.
  induction m as [|[f' v'] m IH]; simpl; [reflexivity|].
  destruct (file =? f'); [discriminate|]. intros E. now rewrite IH.
Qed.

Lemma map_delete_absent {V} (file : File) (m : FileMap V) :
  map_get file m = None -> map_delete file m = m.
Proof.
  unfold map_delete. induction m as [|[f' v'] m IH]; simpl; [reflexivity|].
  destruct (file =? f') eqn:E; [discriminate|]. intros En.
  rewrite Nat.eqb_sym, E. simpl. now rewrite IH.
Qed.

Lemma map_set_NoDup {V} (file : File) (v : V) (m : FileMap V) :
  NoDup (map_keys m) -> NoDup (map_keys (map_set file v m)).
Proof.
  intros Hnd. rewrite map_set_keys.
  destruct (existsb (Nat.eqb file) (map_keys m)) eqn:E; [exact Hnd|].
  apply NoDup_app; [exact Hnd | repeat constructor; simpl; tauto |].
  intros f Hf [Ef|[]]. subst f.
  assert (Ht : existsb (Nat.eqb file) (map_keys m) = true).
  { apply existsb_exists. exists file. split; [exact Hf | apply Nat.eqb_refl]. }
  congruence.
Qed.

Lemma map_delete_NoDup {V} (file : File) (m : FileMap V) :
  NoDup (map_keys m) -> NoDup (map_keys (map_delete file m)).
Proof.
  unfold map_keys, map_delete. induction m as [|[f' v'] m IH]; simpl; intros Hnd; [constructor|].
  inversion Hnd as [|? ? Hnot Hnd']; subst.
  destruct (f' =? file); simpl; [auto|].
  constructor; [|auto]. intros Hin. apply Hnot.
  apply in_map_iff in Hin. destruct Hin as (x & Ex & Hx). apply filter_In in Hx.
  apply in_map_iff. exists x. tauto.
Qed.

Lemma update_lookup (file : File) (liked : bool) (prev : FileMap bool) (file' : File) :
  map_get file' (updateImagePreference file liked prev)
  = if file' =? file then toggle (map_get file prev) liked else map_get file' prev.
Proof.
  unfold updateImagePreference, toggle.
  destruct (file' =? file) eqn:E.
  - apply Nat.eqb_eq in E. subst file'.
    destruct (map_get file prev) as [existing|].
    + destruct (Bool.eqb existing liked).
      * apply map_get_delete_eq.
      * apply map_get_set_eq.
    + apply map_get_set_eq.
  - apply Nat.eqb_neq in E.
    destruct (map_get file prev) as [existing|].
    + destruct (Bool.eqb existing liked).
      * now apply map_get_delete_neq.
      * now apply map_get_set_neq.
    + now apply map_get_set_neq.
Qed.

Lemma update_NoDup (file : File) (liked : bool) (prev : FileMap bool) :
  NoDup (map_keys prev) -> NoDup (map_keys (updateImagePreference file liked prev)).
Proof.
  intros Hnd. unfold updateImagePreference.
  destruct (map_get file prev) as [existing|].
  - destruct (Bool.eqb existing liked).
    + now apply map_delete_NoDup.
    + now apply map_set_NoDup.
  - now apply map_set_NoDup.
Qed.

(** X17. A thumb changes the label of its own image only: the same thumb
    again takes the label away, anything else sets it; the labels of the
    other images stay, and the keys of the map stay distinct. *)
Theorem updateImagePreference_toggles (file : File) (liked : bool) (prev : FileMap bool) :
  map_get file (updateImagePreference file liked prev) = toggle (map_get file prev) liked
  /\ (forall file', file' <> file ->
        map_get file' (updateImagePreference file liked prev) = map_get file' prev)
  /\ (NoDup (map_keys prev) -> NoDup (map_keys (updateImagePreference file liked prev))).
Proof.
  split; [|split].
  - rewrite update_lookup. now rewrite Nat.eqb_refl.
  - intros file' Hne. rewrite update_lookup. apply Nat.eqb_neq in Hne. now rewrite Hne.
  - apply update_NoDup.
Qed.

(** X18. After any sequence of clicks, the label of an image is what its own
    thumbs and the clears make of the label it had, whatever was clicked on
    the other images, and the keys of the preference map stay distinct. *)
Theorem clicks_keep_labels_apart (clicks : list Click) (prev : FileMap bool) :
  (forall file,
      map_get file (fold_left click clicks prev)
      = fold_left (labelAfter file) clicks (map_get file prev))
  /\ (NoDup (map_keys prev) -> NoDup (map_keys (fold_left click clicks prev))).
Proof.
  revert prev. induction clicks as [|c clicks IH]; intros prev; [simpl; auto|].
  cbn [fold_left]. destruct (IH (click prev c)) as [Hget Hnd].
  split.
  - intros file. rewrite Hget. f_equal.
    destruct c as [file' liked|]; simpl; [|reflexivity].
    rewrite update_lookup. destruct (file =? file') eqn:E; [|reflexivity].
    apply Nat.eqb_eq in E. now subst.
  - intros Hp. apply Hnd. destruct c as [file' liked|]; simpl; [|constructor].
    now apply update_NoDup.
Qed.

(** X19. The same thumb twice on an image without a label leaves the map as
    it was, order of the keys included. *)
Theorem same_thumb_twice (file : File) (liked : bool) (prev : FileMap bool) :
  map_get file prev = None ->
  updateImagePreference file liked (updateImagePreference file liked prev) = prev.
Proof.
  intros Hn. unfold updateImagePreference at 2. rewrite Hn.
  unfold updateImagePreference. rewrite map_get_set_eq, eqb_reflx.
  rewrite (@map_set_absent _ file liked prev Hn). unfold map_delete.
  rewrite filter_app. simpl. rewrite Nat.eqb_refl. simpl. rewrite app_nil_r.
  now apply map_delete_absent.
Qed.

Lemma same_thumb_twice_witness :
  map_get 7 [(1, true); (2, false)] = None
  /\ updateImagePreference 7 true (updateImagePreference 7 true [(1, true); (2, false)])
     = [(1, true); (2, false)].
Proof.
  split; [reflexivity|]. apply same_thumb_twice. reflexivity.
Defined.

(** *** [oneOf] *)

(** X20. [oneOf] gives [undefined] for an empty array and for no other, and
    otherwise an element of the array. *)
Theorem oneOf_element {A} (arr : list A) (s : list nat) :
  exists x s',
    oneOf arr s = Some (x, s')
    /\ (x = None <-> arr = [])
    /\ forall a, x = Some a -> In a arr.
Proof.
  unfold oneOf, bind, randomIndex, bind, draw, ret.
  assert (Hnth : forall u,
             (nth_error arr (u mod length arr) = None <-> arr = [])
             /\ forall a, nth_error arr (u mod length arr) = Some a -> In a arr).
  { intros u. split.
    - rewrite nth_error_None. split.
      + intros Hle. destruct arr as [|a arr]; [reflexivity|].
        pose proof (Nat.mod_upper_bound u (length (a :: arr))). simpl in *. lia.
      + intros ->. simpl. lia.
    - intros a Ha. eapply nth_error_In; eauto. }
  destruct s as [|u s']; eexists; eexists; (split; [reflexivity|]); apply Hnth.
Qed.

End PreferenceFacts.

(** ** The page and the forest worker *)

Module PageForestFacts.

Import Forest Ranking Coordinator Page Orchestrator.

Import Spec Forest Ranking Coordinator Page Orchestrator EngineFacts PreferenceFacts.

Section Generic.

Context {N : Type} `{Number N}.

Lemma labelled_points (data : list (DataPoint N)) :
  labelled (map (@features N) data) (map (@label N) data) = data.
Proof.
  induction data as [|[fs l] data IH]; simpl; [reflexivity|]. now rewrite IH.
Qed.

(** The labelled images with their embeddings, when none is missing. *)
Lemma labelled_images (pref : FileMap bool) (emb : FileMap (Embedding N)) :
  (forall file liked, In (file, liked) pref -> floatEmbeddingOf emb file <> None) ->
  exists data,
    Forall2 (pointOf emb) pref data
    /\ existsb (fun i : File * bool * option (list N) =>
                  match snd i with None => true | Some _ => false end)
               (map (fun entry => (fst entry, snd entry, floatEmbeddingOf emb (fst entry))) pref)
       = false
    /\ flat_map (fun i : File * bool * option (list N) =>
                   match snd i with Some e => [e] | None => [] end)
                (map (fun entry => (fst entry, snd entry, floatEmbeddingOf emb (fst entry))) pref)
       = map (@features N) data
    /\ map (fun i : File * bool * option (list N) => if snd (fst i) then 1 else 0)
           (map (fun entry => (fst entry, snd entry, floatEmbeddingOf emb (fst entry))) pref)
       = map (@label N) data.
Proof.
  induction pref as [|[file liked] pref IH]; intros Hall.
  - exists []. simpl. repeat split; constructor.
  - destruct IH as (data & Hd & E1 & E2 & E3); [intros f l Hin; apply (Hall f l); simpl; auto|].
    destruct (floatEmbeddingOf emb file) as [e|] eqn:Ee;
      [|exfalso; apply (Hall file liked); simpl; auto].
    exists ({| features := e; label := if liked then 1 else 0 |} :: data).
    split; [constructor; [split; simpl; auto | exact Hd]|].
    cbn [map existsb flat_map fst snd]. rewrite Ee. cbn [orb app].
    rewrite E1, E2, E3. auto.
Qed.

End Generic.

(** X21. With the forest strategy, at least one image, at least one label
    and an embedding for every labelled image, the fetcher of
    [forestWorkerResult] trains, and never fails: the worker gets one data
    point per labelled image, in the order of the preference map, its
    features the embedding of the image and its label 1 for a liked image
    and 0 for a disliked one; the worker afterwards holds the 100 trees of
    this training, and the fetched version is the time. *)
Theorem forest_trains_on_labelled_images {N} `{Number N} (now : nat) (images : list File)
    (imagePreference : FileMap bool) (imagesWithEmbeddings : FileMap (Embedding N))
    (w : Worker N) (s : list nat) :
  images <> [] -> imagePreference <> [] ->
  (forall file liked, In (file, liked) imagePreference ->
     floatEmbeddingOf imagesWithEmbeddings file <> None) ->
  exists data trees s',
    Forall2 (pointOf imagesWithEmbeddings) imagePreference data
    /\ train (workerOptions (map (@features N) data)) data s = Some (trees, s')
    /\ forestWorkerFetch now images imagePreference imagesWithEmbeddings forest w s
       = Some ({| trainedForest := Some trees |}, Some now, s')
    /\ length trees = 100.
Proof.
  intros Hi Hp Hall.
  destruct (labelled_images imagePreference imagesWithEmbeddings Hall)
    as (data & Hd & E1 & E2 & E3).
  destruct (@train_trees N _ (workerOptions (map (@features N) data)) data s)
    as (trees & s' & Et & Hl & _); [simpl; lia|].
  exists data, trees, s'. split; [exact Hd|]. split; [exact Et|]. split; [|exact Hl].
  unfold forestWorkerFetch.
  destruct images as [|i images]; [congruence|]. cbn [length Nat.eqb].
  destruct imagePreference as [|p pref]; [congruence|]. cbn [length Nat.eqb].
  rewrite E1, E2, E3. unfold workerTrain, bind. rewrite labelled_points, Et.
  reflexivity.
Qed.

Lemma forest_trains_on_labelled_images_witness :
  exists data trees s',
    Forall2 (pointOf oneEmbedding) [(0, true)] data
    /\ forestWorkerFetch 5 [0; 1] [(0, true)] oneEmbedding forest {| trainedForest := None |} []
       = Some ({| trainedForest := Some trees |}, Some 5, s')
    /\ length trees = 100.
Proof.
  destruct (@forest_trains_on_labelled_images Q _ 5 [0; 1] [(0, true)] oneEmbedding
              {| trainedForest := None |} []) as (data & trees & s' & Hd & _ & E & Hl).
  - discriminate.
  - discriminate.
  - intros file liked [E|[]]. inversion E; subst. discriminate.
  - exists data, trees, s'. auto.
Defined.

(** *** Predictions *)

Section Predict.

Context {N : Type} `{Number N}.

Lemma mapOfEntries_get_acc {V} (entries : list (File * V)) (m : FileMap V) (file : File) :
  map_get file (fold_left (fun m e => map_set (fst e) (snd e) m) entries m)
  = match map_get file (rev entries) with
    | Some v => Some v
    | None => map_get file m
    end.
Proof.
  revert m. induction entries as [|[f v] entries IH]; intros m; [reflexivity|].
  cbn [fold_left rev fst snd]. rewrite IH.
  assert (Eapp : forall (l : FileMap V),
             map_get file (l ++ [(f, v)])
             = match map_get file l with
               | Some x => Some x
               | None => if file =? f then Some v else None
               end).
  { induction l as [|[f' v'] l IHl]; simpl; [reflexivity|].
    destruct (file =? f'); [reflexivity | exact IHl]. }
  rewrite Eapp. destruct (map_get file (rev entries)) as [x|]; [reflexivity|].
  destruct (file =? f) eqn:E.
  - apply Nat.eqb_eq in E. subst f. apply map_get_set_eq.
  - apply Nat.eqb_neq in E. now apply map_get_set_neq.
Qed.

Lemma map_get_rev {V} (m : FileMap V) (file : File) :
  NoDup (map_keys m) -> map_get file (rev m) = map_get file m.
Proof.
  intros Hnd. destruct (map_get file m) as [v|] eqn:E.
  - apply ScorerFacts.map_get_in.
    + unfold map_keys. rewrite map_rev. apply NoDup_rev. exact Hnd.
    + apply in_rev. rewrite rev_involutive. now apply ScorerFacts.map_get_some_in.
  - destruct (map_get file (rev m)) as [v|] eqn:Er; [|reflexivity].
    apply ScorerFacts.map_get_some_in in Er. apply in_rev in Er.
    apply (@ScorerFacts.map_get_in _ _ _ _ Hnd) in Er. congruence.
Qed.

(** The map of the entries of a list with distinct keys answers like the list. *)
Lemma mapOfEntries_get {V} (entries : list (File * V)) (file : File) :
  NoDup (map_keys entries) -> map_get file (mapOfEntries entries) = map_get file entries.
Proof.
  intros Hnd. unfold mapOfEntries. rewrite mapOfEntries_get_acc.
  rewrite (@map_get_rev _ entries file Hnd). now destruct (map_get file entries).
Qed.

(** The results of the fetcher for a trained worker. *)
Lemma predictions_of (trees : list (TreeNode N)) (emb : FileMap (Embedding N)) :
  mapExc
    (fun entry : File * Embedding N =>
       match floatEmbedding (snd entry) with
       | None => Some None
       | Some e =>
           option_map (fun prediction => Some (fst entry, prediction))
                      (workerPredictProba {| trainedForest := Some trees |} e 1)
       end)
    emb
  = Some (map (fun entry : File * Embedding N =>
                 option_map (fun e => (fst entry, forestPredictProba trees e 1))
                            (floatEmbedding (snd entry)))
              emb).
Proof.
  induction emb as [|[f e] emb IH]; [reflexivity|].
  cbn [mapExc map fst snd]. rewrite IH.
  destruct (floatEmbedding e); reflexivity.
Qed.

Lemma compact_keys (trees : list (TreeNode N)) (emb : FileMap (Embedding N)) :
  incl (map_keys (compact
                    (map (fun entry : File * Embedding N =>
                            option_map (fun e => (fst entry, forestPredictProba trees e 1))
                                       (floatEmbedding (snd entry)))
                         emb)))
       (map_keys emb).
Proof.
  unfold map_keys, compact. induction emb as [|[f e] emb IH]; simpl; [intros x []|].
  destruct (floatEmbedding e); simpl.
  - intros x [<-|Hx]; [simpl; auto | right; auto].
  - intros x Hx. right. auto.
Qed.

Lemma compact_NoDup (trees : list (TreeNode N)) (emb : FileMap (Embedding N)) :
  NoDup (map_keys emb) ->
  NoDup (map_keys (compact
                     (map (fun entry : File * Embedding N =>
                             option_map (fun e => (fst entry, forestPredictProba trees e 1))
                                        (floatEmbedding (snd entry)))
                          emb))).
Proof.
  induction emb as [|[f e] emb IH]; intros Hnd; [constructor|].
  inversion Hnd as [|? ? Hnot Hnd']; subst. specialize (IH Hnd').
  unfold compact, map_keys in *. cbn [map flat_map fst snd].
  destruct (floatEmbedding e); cbn [option_map app map fst]; [|exact IH].
  constructor; [|exact IH]. intros Hin. apply Hnot.
  apply (compact_keys trees emb). exact Hin.
Qed.

Lemma compact_get (trees : list (TreeNode N)) (emb : FileMap (Embedding N)) (file : File) :
  NoDup (map_keys emb) ->
  map_get file (compact
                  (map (fun entry : File * Embedding N =>
                          option_map (fun e => (fst entry, forestPredictProba trees e 1))
                                     (floatEmbedding (snd entry)))
                       emb))
  = forestScore trees emb file.
Proof.
  unfold forestScore, floatEmbeddingOf.
  induction emb as [|[f x] emb IH]; intros Hnd; [reflexivity|].
  inversion Hnd as [|? ? Hnot Hnd']; subst. specialize (IH Hnd').
  unfold compact in *. cbn [map flat_map fst snd map_get].
  destruct (file =? f) eqn:E.
  - destruct (floatEmbedding x) as [e|] eqn:Ex; cbn [option_map app map_get].
    + now rewrite E.
    + apply Nat.eqb_eq in E. subst f.
      destruct (map_get file (flat_map (fun r => match r with Some x0 => [x0] | None => [] end)
                  (map (fun entry : File * Embedding N =>
                          option_map (fun e => (fst entry, forestPredictProba trees e 1))
                                     (floatEmbedding (snd entry))) emb))) eqn:Eg; [|reflexivity].
      exfalso. apply Hnot. apply (compact_keys trees emb). apply map_get_keys.
      unfold compact. congruence.
  - destruct (floatEmbedding x) as [e|] eqn:Ex; cbn [option_map app map_get].
    + rewrite E. exact IH.
    + exact IH.
Qed.

(** The fetcher of [predictResult] against a trained worker. *)
Lemma predictFetch_trained (version : nat) (trees : list (TreeNode N))
    (emb : FileMap (Embedding N)) :
  NoDup (map_keys emb) ->
  exists predictions,
    predictFetch (Some version) {| trainedForest := Some trees |} emb = Some (Some predictions)
    /\ forall file, map_get file predictions = forestScore trees emb file.
Proof.
  intros Hnd. unfold predictFetch. rewrite predictions_of. cbn [option_map].
  eexists. split; [reflexivity|]. intros file.
  rewrite mapOfEntries_get by (now apply compact_NoDup). now apply compact_get.
Qed.

End Predict.

(** X22. Against a worker that has trained, the fetcher of [predictResult]
    never fails, and its map has an entry exactly for the images with an
    embedding: the forest's probability of class 1 for the embedding. *)
Theorem predictions_cover_embedded {N} `{Number N} (version : nat)
    (trees : list (TreeNode N)) (imagesWithEmbeddings : FileMap (Embedding N)) :
  NoDup (map_keys imagesWithEmbeddings) ->
  exists predictions,
    predictFetch (Some version) {| trainedForest := Some trees |} imagesWithEmbeddings
    = Some (Some predictions)
    /\ forall file,
         map_get file predictions = forestScore trees imagesWithEmbeddings file.
Proof. apply predictFetch_trained. Qed.

Lemma predictions_cover_embedded_witness :
  NoDup (map_keys oneEmbedding)
  /\ exists predictions,
       predictFetch (Some 5) {| trainedForest := Some [Leaf [(1, 1%Q)]] |} oneEmbedding
       = Some (Some predictions)
       /\ map_get 1 predictions = None.
Proof.
  assert (Hnd : NoDup (map_keys oneEmbedding)) by (repeat constructor; simpl; tauto).
  split; [exact Hnd|].
  destruct (@predictions_cover_embedded Q _ 5 [Leaf [(1, 1%Q)]] oneEmbedding Hnd)
    as (predictions & E & Hget).
  exists predictions. split; [exact E|]. rewrite Hget. reflexivity.
Defined.

(** *** Scores of the forest strategy *)

Lemma score_defined {N} `{Number N} `{Sqrt N} (D : nat) (pref : FileMap bool)
    (emb : FileMap (Embedding N)) (file : File) :
  dimension D emb -> exists sc, score pref emb file = Some sc.
Proof.
  intros Hd. unfold score.
  destruct (floatEmbeddingOf emb file) as [e|] eqn:Ee; [|eauto].
  pose proof (ScorerFacts.dimension_get file Hd Ee) as Hl.
  unfold sumSimilarities.
  rewrite (ScorerFacts.sumSimilarities_sum e (of_nat 0) Hl
             (ScorerFacts.labelledEmbeddings_dimension true pref Hd)).
  rewrite (ScorerFacts.sumSimilarities_sum e (of_nat 0) Hl
             (ScorerFacts.labelledEmbeddings_dimension false pref Hd)).
  eauto.
Qed.

Lemma forest_rankings {N} `{Number N} `{Sqrt N} (D : nat) (images : list File)
    (pref : FileMap bool) (emb : FileMap (Embedding N)) (preds : FileMap N) :
  dimension D emb ->
  exists rankings,
    imagesWithRankings images pref emb (Some preds) forest = Some rankings
    /\ map (@file N) rankings = images
    /\ Forall (fun i => scoreFinal i = map_get (file i) preds) rankings.
Proof.
  intros Hd. unfold imagesWithRankings. induction images as [|f images IH].
  - exists []. simpl. auto.
  - destruct IH as (rankings & E & Hf & Hall).
    destruct (score_defined pref f Hd) as (sc & Es).
    cbn [mapExc]. rewrite Es, E. cbn [option_map].
    eexists. split; [reflexivity|]. split; [simpl; now rewrite Hf|].
    constructor; [reflexivity | exact Hall].
Qed.

(** X23. With the forest strategy, embeddings of one dimension and the
    predictions fetched from a worker that has trained: the page orders all
    the images, and the score of an image is the forest's probability of
    class 1 for its embedding, and [undefined] for an image without an
    embedding. *)
Theorem forest_scores_are_predictions (sqrtQ : Sqrt Q) (D version : nat)
    (trees : list (TreeNode Q)) (images : list File) (imagePreference : FileMap bool)
    (imagesWithEmbeddings : FileMap (Embedding Q)) :
  NoDup (map_keys imagesWithEmbeddings) ->
  dimension D imagesWithEmbeddings ->
  exists predictions sorted,
    predictFetch (Some version) {| trainedForest := Some trees |} imagesWithEmbeddings
    = Some (Some predictions)
    /\ imagesSorted images imagePreference imagesWithEmbeddings (Some predictions) forest
       = Some sorted
    /\ Permutation (map (@file Q) sorted) images
    /\ Forall (fun i => scoreFinal i = forestScore trees imagesWithEmbeddings (file i)) sorted.
Proof.
  intros Hnd Hd.
  destruct (@predictFetch_trained Q _ version trees imagesWithEmbeddings Hnd)
    as (predictions & Ep & Hget).
  destruct (@forest_rankings Q _ sqrtQ D images imagePreference imagesWithEmbeddings
              predictions Hd) as (rankings & Er & Hf & Hall).
  exists predictions, (orderRankings imagePreference rankings).
  split; [exact Ep|]. split; [unfold imagesSorted; rewrite Er; reflexivity|].
  pose proof (OrderFacts.orderRankings_perm imagePreference rankings) as Hperm.
  split.
  - rewrite (Permutation_map _ Hperm). now rewrite Hf.
  - apply Forall_forall. intros i Hi. apply (Permutation_in _ Hperm) in Hi.
    rewrite Forall_forall in Hall. rewrite (Hall i Hi). apply Hget.
Qed.

Lemma forest_scores_are_predictions_witness :
  NoDup (map_keys oneEmbedding) /\ dimension 1 oneEmbedding
  /\ exists predictions sorted,
       predictFetch (Some 5) {| trainedForest := Some [Leaf [(1, 1%Q)]] |} oneEmbedding
       = Some (Some predictions)
       /\ imagesSorted (H0 := fun x => x) [0; 1] [] oneEmbedding (Some predictions) forest
          = Some sorted
       /\ Permutation (map (@file Q) sorted) [0; 1].
Proof.
  assert (Hnd : NoDup (map_keys oneEmbedding)) by (repeat constructor; simpl; tauto).
  assert (Hd : dimension 1 oneEmbedding).
  { repeat constructor. simpl. intros e E. inversion E. reflexivity. }
  split; [exact Hnd|]. split; [exact Hd|].
  destruct (@forest_scores_are_predictions (fun x => x) 1 5 [Leaf [(1, 1%Q)]] [0; 1] []
              oneEmbedding Hnd Hd) as (predictions & sorted & Ep & Es & Hp & _).
  exists predictions, sorted. auto.
Defined.

End PageForestFacts.

(** ** Directories, thumbnails *)

Module FilesFacts.

Import Forest Ranking Coordinator Page Directory Resizer.

Import Spec Ranking Coordinator Page Directory Resizer PreferenceFacts NumberFacts.

(** Induction on an entry and the entries under it. *)
Lemma Entry_induction (P : Entry -> Prop) :
  (forall file type, P (FileEntry file type)) ->
  (forall entries, Forall P entries -> P (DirectoryEntry entries)) ->
  forall entry, P entry.
Proof.
  intros Hf Hd. fix IH 1. intros [file type|entries].
  - apply Hf.
  - apply Hd. induction entries as [|e entries IHe]; constructor; [apply IH | exact IHe].
Qed.

Lemma processEntry_appends (entry : Entry) :
  forall files,
    processEntry entry files = files ++ map fst (filter supported (filesUnder entry)).
Proof.
  induction entry as [file type|entries IH] using Entry_induction; intros files.
  - cbn [processEntry filesUnder filter]. unfold supported. cbn [snd].
    destruct (includes SUPPORTED_FILE_TYPES type); simpl; [reflexivity|].
    now rewrite app_nil_r.
  - cbn [processEntry filesUnder]. revert files.
    induction IH as [|e entries He _ IHes]; intros files; cbn [fold_left flat_map].
    + simpl. now rewrite app_nil_r.
    + rewrite IHes, He. rewrite filter_app, map_app, app_assoc. reflexivity.
Qed.

Lemma processDirectory_appends (dirHandle : list Entry) (files : list File) :
  processDirectory dirHandle files
  = files ++ map fst (filter supported (flat_map filesUnder dirHandle)).
Proof.
  unfold processDirectory. revert files.
  induction dirHandle as [|e entries IH]; intros files; cbn [fold_left flat_map].
  - simpl. now rewrite app_nil_r.
  - rewrite IH, processEntry_appends. rewrite filter_app, map_app, app_assoc. reflexivity.
Qed.

(** X24. Reading a directory collects the files of the three supported types
    that lie under it, at any depth, each as often as it occurs and in the
    order of the traversal, and no other file. *)
Theorem readDirectory_collects (dirHandle : list Entry) :
  readDirectory dirHandle
  = map fst (filter supported (flat_map filesUnder dirHandle)).
Proof. unfold readDirectory. now rewrite processDirectory_appends. Qed.

Example readDirectory_sample : readDirectory Samples.sampleDirectory = [1; 3; 4].
Proof. reflexivity. Qed.

(** *** The thumbnail cache *)

Lemma nth_error_snoc {A} (l : list A) (x : A) : nth_error (l ++ [x]) (length l) = Some x.
Proof. rewrite nth_error_app2 by lia. now rewrite Nat.sub_diag. Qed.

Lemma imageUrlPromise_sound (file : File) (t : Thumbnails) :
  cacheSound t ->
  let '(t', p) := imageUrlPromise true file t in
  cacheSound t'
  /\ (exists added, created t' = created t ++ added /\ incl added [file])
  /\ exists k, p = Some k /\ nth_error (created t') k = Some file.
Proof.
  intros (Hnd & Hk & Hp). unfold imageUrlPromise. cbn [negb].
  destruct (map_get file (cache t)) as [k|] eqn:E.
  - rewrite E. split; [split; [|split]; assumption|].
    split; [exists []; rewrite app_nil_r; split; [reflexivity | intros x []]|].
    exists k. split; [reflexivity | now apply Hp].
  - unfold cacheSound. cbn [cache created]. rewrite map_get_set_eq.
    assert (Hnot : ~ In file (created t)).
    { intros Hin. apply Hk in Hin. apply map_get_keys in Hin. congruence. }
    split; [split; [|split]|].
    + apply NoDup_app; [exact Hnd | repeat constructor; simpl; tauto |].
      intros x Hx [<-|[]]. contradiction.
    + intros f. rewrite map_get_keys. rewrite in_app_iff. simpl.
      destruct (Nat.eq_dec f file) as [->|Hne].
      * rewrite map_get_set_eq. split; [auto | discriminate].
      * rewrite map_get_set_neq by exact Hne. rewrite <- map_get_keys, Hk.
        split; [auto | intros [?|[?|[]]]; [assumption | congruence]].
    + intros f p. destruct (Nat.eq_dec f file) as [->|Hne].
      * rewrite map_get_set_eq. intros Ep. inversion Ep; subst. apply nth_error_snoc.
      * rewrite map_get_set_neq by exact Hne. intros Ep.
        rewrite nth_error_app1; [now apply Hp|].
        apply nth_error_Some. rewrite (Hp f p Ep). discriminate.
    + split; [exists [file]; split; [reflexivity | apply incl_refl]|].
      exists (length (created t)). split; [reflexivity | apply nth_error_snoc].
Qed.

Lemma renders_sound (files : list File) (t : Thumbnails) :
  cacheSound t ->
  let '(t', ps) := renders true files t in
  cacheSound t'
  /\ (exists added, created t' = created t ++ added /\ incl added files)
  /\ Forall2 (fun file p => exists k, p = Some k /\ nth_error (created t') k = Some file)
             files ps.
Proof.
  revert t. induction files as [|file files IH]; intros t Hs.
  - cbn [renders]. split; [exact Hs|].
    split; [exists []; rewrite app_nil_r; split; [reflexivity | intros x []]|]. constructor.
  - cbn [renders].
    pose proof (imageUrlPromise_sound file Hs) as H1.
    destruct (imageUrlPromise true file t) as [t1 p].
    destruct H1 as (Hs1 & (e1 & Ec1 & Hi1) & (k & Ep & Hk)).
    specialize (IH t1 Hs1). destruct (renders true files t1) as [t2 ps].
    destruct IH as (Hs2 & (e2 & Ec2 & Hi2) & Hall).
    split; [exact Hs2|]. split.
    + exists (e1 ++ e2). rewrite Ec2, Ec1, app_assoc. split; [reflexivity|].
      intros x Hx. apply in_app_or in Hx. destruct Hx as [Hx|Hx].
      * apply Hi1 in Hx. destruct Hx as [<-|[]]. simpl. auto.
      * right. auto.
    + constructor; [|exact Hall]. exists k. split; [exact Ep|].
      rewrite Ec2. rewrite nth_error_app1; [exact Hk|].
      apply nth_error_Some. rewrite Hk. discriminate.
Qed.

(** X25. From an empty cache and with a resizer, whatever the renders:
    [createThumbnail] is called at most once for a file, and only for files
    that were rendered, and every render of a file gets the promise of the
    one call made for this file. *)
Theorem thumbnail_created_once (files : list File) :
  let '(t, ps) := renders true files {| cache := []; created := [] |} in
  NoDup (created t)
  /\ (forall file, In file (created t) <-> In file files)
  /\ Forall2 (fun file p => exists k, p = Some k /\ nth_error (created t) k = Some file)
             files ps.
Proof.
  assert (Hs : cacheSound {| cache := []; created := [] |}).
  { split; [constructor|]. split; [simpl; tauto|]. intros f p E. discriminate. }
  pose proof (renders_sound files Hs) as H.
  destruct (renders true files {| cache := []; created := [] |}) as [t ps].
  destruct H as ((Hnd & _ & _) & (added & Ec & Hi) & Hall).
  split; [exact Hnd|]. split; [|exact Hall].
  intros f. split.
  - intros Hin. rewrite Ec in Hin. simpl in Hin. auto.
  - intros Hin. clear - Hall Hin. induction Hall as [|f' p files ps (k & _ & Hk) _ IH];
      [contradiction|].
    destruct Hin as [<-|Hin]; [eapply nth_error_In; eauto | auto].
Qed.

(** *** The size of a thumbnail *)

(** X26. In exact arithmetic, for an image with positive sides: the
    thumbnail fits the square of side [maxSideLength], its longer side is
    exactly [maxSideLength], and its sides have the proportion of the sides
    of the image. *)
Theorem thumbnailSize_fits (width height maxSideLength : Q) :
  (0 < width)%Q -> (0 < height)%Q -> (0 < maxSideLength)%Q ->
  let '(newWidth, newHeight) := thumbnailSize width height maxSideLength in
  (0 < newWidth /\ newWidth <= maxSideLength)%Q
  /\ (0 < newHeight /\ newHeight <= maxSideLength)%Q
  /\ (if ltb height width then newWidth = maxSideLength else newHeight = maxSideLength)
  /\ (newWidth * height == newHeight * width)%Q.
Proof.
  intros Hw Hh Hm. unfold thumbnailSize. cbn [ltb div mul Q_Number].
  assert (Hr : (0 < width / height)%Q) by (apply Qlt_shift_div_l; lra).
  destruct (Qltb height width) eqn:E.
  - apply Qltb_lt in E.
    assert (H1 : (1 < width / height)%Q) by (apply Qlt_shift_div_l; lra).
    assert (E2 : (maxSideLength / (width / height) == maxSideLength * height / width)%Q)
      by (field; split; lra).
    split; [lra|]. split; [split|split; [reflexivity|]].
    + apply Qlt_shift_div_l; lra.
    + apply Qle_shift_div_r; [lra|]. nra.
    + rewrite E2. field. lra.
  - apply Qltb_ge in E.
    assert (H1 : (width / height <= 1)%Q) by (apply Qle_shift_div_r; lra).
    split; [split; nra|]. split; [lra|]. split; [reflexivity|].
    field. lra.
Qed.

Lemma thumbnailSize_fits_witness :
  (0 < 4000)%Q /\ (0 < 3000)%Q /\ (0 < 1024)%Q
  /\ (snd (thumbnailSize 4000 3000 1024) == 768)%Q.
Proof.
  assert (Hw : (0 < 4000)%Q) by reflexivity.
  assert (Hh : (0 < 3000)%Q) by reflexivity.
  assert (Hm : (0 < 1024)%Q) by reflexivity.
  split; [exact Hw|]. split; [exact Hh|]. split; [exact Hm|].
  pose proof (thumbnailSize_fits Hw Hh Hm) as H.
  destruct (thumbnailSize 4000 3000 1024)%Q as [newWidth newHeight] eqn:E.
  destruct H as (_ & _ & Hl & Hp). cbn [snd].
  assert (El : ltb (3000:Q) (4000:Q) = true) by reflexivity.
  rewrite El in Hl. subst newWidth. lra.
Defined.

End FilesFacts.

(** ** The counters of the embedding coordinator *)

Module ProgressFacts.

Import Forest Ranking Coordinator Page.

Import NumberFacts Spec Ranking Coordinator Page CoordinatorFacts PreferenceFacts
       GrownFacts PageForestFacts.

Section Counting.

Variable Emb : Type.

Lemma newestOf_replace (k : nat) (r' : Run Emb) (rs : list (Run Emb)) :
  k < length rs ->
  newestOf (replace k r' rs) = if k =? pred (length rs) then Some r' else newestOf rs.
Proof.
  intros Hk. unfold newestOf. rewrite length_replace.
  destruct (k =? pred (length rs)) eqn:E.
  - apply Nat.eqb_eq in E. rewrite <- E. now apply nth_error_replace_same.
  - apply Nat.eqb_neq in E. apply nth_error_replace_other. congruence.
Qed.

Lemma newestOf_restart (rs : list (Run Emb)) (r : Run Emb) :
  newestOf (abortLast rs ++ [r]) = Some r.
Proof.
  unfold newestOf. rewrite length_app. cbn [length]. rewrite Nat.add_1_r. cbn [pred].
  rewrite nth_error_app2 by lia. now rewrite Nat.sub_diag.
Qed.

Lemma existsb_eqb_In (i : nat) (l : list nat) : existsb (Nat.eqb i) l = true <-> In i l.
Proof.
  rewrite existsb_exists. split.
  - intros (x & Hx & E). apply Nat.eqb_eq in E. now subst.
  - intros Hin. exists i. split; [exact Hin | apply Nat.eqb_refl].
Qed.

Lemma remove_index_In (i j : nat) (l : list nat) :
  In j (remove_index i l) <-> In j l /\ j <> i.
Proof.
  unfold remove_index. rewrite filter_In, negb_true_iff, Nat.eqb_neq. tauto.
Qed.

Lemma remove_index_length (i : nat) (l : list nat) :
  length (remove_index i l) <= length l.
Proof. apply filter_length_le. Qed.

Lemma remove_index_NoDup (i : nat) (l : list nat) :
  NoDup l -> NoDup (remove_index i l).
Proof. apply NoDup_filter. Qed.

Lemma remove_index_length_in (i : nat) (l : list nat) :
  NoDup l -> In i l -> S (length (remove_index i l)) = length l.
Proof.
  unfold remove_index. induction l as [|x l IH]; intros Hnd Hin; [contradiction|].
  inversion Hnd as [|? ? Hnot Hnd']; subst. cbn [filter].
  destruct (x =? i) eqn:E; cbn [negb length].
  - apply Nat.eqb_eq in E. subst x. f_equal.
    fold (remove_index i l). clear - Hnot. unfold remove_index.
    induction l as [|y l IH]; [reflexivity|]. cbn [filter].
    destruct (y =? i) eqn:E; cbn [negb length].
    + apply Nat.eqb_eq in E. subst. exfalso. apply Hnot. simpl. auto.
    + f_equal. apply IH. intros Hin. apply Hnot. simpl. auto.
  - f_equal. apply IH; [exact Hnd'|]. destruct Hin as [->|Hin]; [|exact Hin].
    rewrite Nat.eqb_refl in E. discriminate.
Qed.

Lemma counted_initial : counted (@initial Emb).
Proof. intros r Hr. discriminate. Qed.

(** The newest run when an event of run [k] is possible. *)
Lemma newest_or_older (s : State Emb) (k : nat) (r : Run Emb) :
  Inv s -> nth_error (runs s) k = Some r ->
  k < length (runs s)
  /\ ((k =? pred (length (runs s))) = true /\ newestRun s = Some r
      \/ (k =? pred (length (runs s))) = false /\ aborted r = true).
Proof.
  intros [Ho _] Hk.
  assert (Hlt : k < length (runs s)) by (apply nth_error_Some; congruence).
  split; [exact Hlt|].
  destruct (k =? pred (length (runs s))) eqn:E.
  - left. split; [reflexivity|]. apply Nat.eqb_eq in E. unfold newestRun, newestOf.
    now rewrite <- E.
  - right. split; [reflexivity|]. apply Nat.eqb_neq in E. apply (Ho k r Hk). lia.
Qed.

Lemma counted_step (s s' : State Emb) (ev : Event Emb) :
  Inv s -> counted s -> step s ev = Some s' -> counted s'.
Proof.
  intros Hinv Hc Hs. destruct ev as [images e|k|k i e|k i|k]; unfold step in Hs.
  - inversion Hs; subst; clear Hs. intros r Hr. unfold newestRun in Hr. cbn [runs] in Hr.
    rewrite newestOf_restart in Hr. inversion Hr; subst; clear Hr.
    cbn [finished]. unfold runCounted, newRun. cbn.
    repeat split; try lia; try constructor; try (intros; contradiction); try discriminate.
  - destruct (nth_error (runs s) k) as [r|] eqn:Er; [|discriminate].
    destruct (nth_error (runImages r) (next r)) as [file|] eqn:Ef; [|discriminate].
    destruct (rejected r || (concurrency <=? length (inFlight r))) eqn:G; [discriminate|].
    inversion Hs; subst; clear Hs.
    assert (Hnext : next r < length (runImages r)) by (apply nth_error_Some; congruence).
    apply orb_false_iff in G. destruct G as [Grej _].
    destruct (newest_or_older k Hinv Er) as (Hlt & [[Ek En]|[Ek Ha]]);
      intros r0 Hr0; unfold newestRun in Hr0; cbn [runs finished] in *;
      rewrite (@newestOf_replace k _ (runs s) Hlt), Ek in Hr0.
    + inversion Hr0; subst r0; clear Hr0.
      destruct (Hc r En) as (Ha & Hn & Hf & Hnd & Hin & Hno & Hyes).
      rewrite Ha. cbn [orb].
      destruct (hasEmbedder r) eqn:He; cbn [negb];
        unfold runCounted; cbn [aborted next runImages inFlight results hasEmbedder rejected].
      * destruct (Hyes eq_refl Grej) as [Heq Hres].
        split; [reflexivity|]. split; [lia|]. split; [cbn [length]; lia|].
        split; [constructor; [|exact Hnd]; intros Hi; apply Hin in Hi; lia|].
        split; [intros j [<-|Hj]; [lia | apply Hin in Hj; lia]|].
        split; [intros E; congruence|].
        intros _ _. split; [cbn [length]; lia|].
        intros j Hj. destruct (Nat.eq_dec j (next r)) as [->|Hne]; [left; simpl; auto|].
        destruct (Hres j) as [Hj'|Hj']; [lia | left; simpl; auto | right; exact Hj'].
      * destruct (Hno eq_refl) as (Hnil & Hz & Hnone).
        split; [reflexivity|]. split; [lia|]. split; [lia|].
        split; [exact Hnd|]. split; [intros j Hj; apply Hin in Hj; lia|].
        split; [|intros E; congruence].
        intros _. split; [exact Hnil|]. split; [exact Hz|].
        intros j x [E|Hj]; [now inversion E | eauto].
    + apply Hc. exact Hr0.
  - destruct (nth_error (runs s) k) as [r|] eqn:Er; [|discriminate].
    destruct (nth_error (runImages r) i) as [file|] eqn:Ef; [|discriminate].
    destruct (negb (existsb (Nat.eqb i) (inFlight r))) eqn:G; [discriminate|].
    inversion Hs; subst; clear Hs.
    apply negb_false_iff, existsb_eqb_In in G.
    destruct (newest_or_older k Hinv Er) as (Hlt & [[Ek En]|[Ek Ha]]);
      intros r0 Hr0; unfold newestRun in Hr0; cbn [runs finished] in *;
      rewrite (@newestOf_replace k _ (runs s) Hlt), Ek in Hr0.
    + inversion Hr0; subst r0; clear Hr0.
      destruct (Hc r En) as (Ha & Hn & Hf & Hnd & Hin & Hno & Hyes).
      rewrite Ha.
      assert (He : hasEmbedder r = true).
      { destruct (hasEmbedder r) eqn:He; [reflexivity|].
        destruct (Hno eq_refl) as (Hnil & _). rewrite Hnil in G. contradiction. }
      pose proof (@remove_index_length_in i (inFlight r) Hnd G) as Hlen.
      unfold runCounted; cbn [aborted next runImages inFlight results hasEmbedder rejected].
      split; [reflexivity|]. split; [exact Hn|]. split; [lia|].
      split; [now apply remove_index_NoDup|].
      split; [intros j Hj; apply remove_index_In in Hj; apply Hin; tauto|].
      split; [intros E; congruence|].
      intros _ Hrej. destruct (Hyes He Hrej) as [Heq Hres].
      split; [lia|].
      intros j Hj. destruct (Nat.eq_dec j i) as [->|Hne].
      * right. exists file, e. split; [exact Ef|]. cbn [obj_get]. now rewrite Nat.eqb_refl.
      * destruct (Hres j Hj) as [Hj'|(f & e' & Hf' & Hg)].
        -- left. apply remove_index_In. tauto.
        -- right. exists f, e'. split; [exact Hf'|]. cbn [obj_get].
           apply Nat.eqb_neq in Hne. now rewrite Hne.
    + rewrite Ha. apply Hc. exact Hr0.
  - destruct (nth_error (runs s) k) as [r|] eqn:Er; [|discriminate].
    destruct (negb (existsb (Nat.eqb i) (inFlight r))) eqn:G; [discriminate|].
    inversion Hs; subst; clear Hs.
    apply negb_false_iff, existsb_eqb_In in G.
    destruct (newest_or_older k Hinv Er) as (Hlt & [[Ek En]|[Ek Ha]]);
      intros r0 Hr0; unfold newestRun in Hr0; cbn [runs finished] in *;
      rewrite (@newestOf_replace k _ (runs s) Hlt), Ek in Hr0.
    + inversion Hr0; subst r0; clear Hr0.
      destruct (Hc r En) as (Ha & Hn & Hf & Hnd & Hin & Hno & Hyes).
      pose proof (remove_index_length i (inFlight r)) as Hlen.
      unfold runCounted; cbn [aborted next runImages inFlight results hasEmbedder rejected].
      split; [exact Ha|]. split; [exact Hn|]. split; [lia|].
      split; [now apply remove_index_NoDup|].
      split; [intros j Hj; apply remove_index_In in Hj; apply Hin; tauto|].
      split; [|intros _ E; discriminate].
      intros He. destruct (Hno He) as (Hnil & _). rewrite Hnil in G. contradiction.
    + apply Hc. exact Hr0.
  - destruct (nth_error (runs s) k) as [r|] eqn:Er; [|discriminate].
    destruct (settled r || rejected r || negb (next r =? length (runImages r))
              || negb (length (inFlight r) =? 0)) eqn:G; [discriminate|].
    inversion Hs; subst; clear Hs.
    destruct (newest_or_older k Hinv Er) as (Hlt & [[Ek En]|[Ek Ha]]);
      intros r0 Hr0; unfold newestRun in Hr0; cbn [runs finished] in *;
      rewrite (@newestOf_replace k _ (runs s) Hlt), Ek in Hr0.
    + inversion Hr0; subst r0; clear Hr0. exact (Hc r En).
    + apply Hc. exact Hr0.
Qed.

Lemma counted_history (evs : list (Event Emb)) (s s' : State Emb) :
  Inv s -> counted s -> history s evs = Some s' -> Inv s' /\ counted s'.
Proof.
  revert s. induction evs as [|ev evs IH]; intros s Hi Hc Hh; cbn [history] in Hh.
  - inversion Hh; subst. auto.
  - destruct (step s ev) as [s1|] eqn:Es; [|discriminate].
    apply (IH s1); [eapply Inv_step; eauto | eapply counted_step; eauto | exact Hh].
Qed.

Lemma reachable_counted (evs : list (Event Emb)) (s : State Emb) :
  history initial evs = Some s -> Inv s /\ counted s.
Proof. apply counted_history; [apply Inv_initial | apply counted_initial]. Qed.

End Counting.

(** *** What the progress counter and a publication say *)

Lemma compact_all {Emb} (res : list (nat * option (File * Emb))) (imgs : list File)
    (start : nat) :
  (forall j file, nth_error imgs j = Some file ->
     exists e, obj_get (start + j) res = Some (Some (file, e))) ->
  map fst (flat_map (fun i => match obj_get i res with
                              | Some (Some entry) => [entry]
                              | _ => []
                              end)
                    (seq start (length imgs))) = imgs.
Proof.
  revert start. induction imgs as [|file imgs IH]; intros start Hall; [reflexivity|].
  cbn [length seq flat_map].
  destruct (Hall 0 file eq_refl) as (e & E). rewrite Nat.add_0_r in E. rewrite E.
  cbn [app map fst]. f_equal. apply IH.
  intros j f Hj. destruct (Hall (S j) f Hj) as (e' & E'). exists e'.
  now rewrite Nat.add_succ_comm.
Qed.

Lemma compact_none {Emb} (res : list (nat * option (File * Emb))) (l : list nat) :
  (forall i x, In (i, x) res -> x = None) ->
  flat_map (fun i => match obj_get i res with
                     | Some (Some entry) => [entry]
                     | _ => []
                     end) l = [].
Proof.
  intros Hnone. induction l as [|i l IH]; [reflexivity|]. cbn [flat_map]. rewrite IH.
  destruct (obj_get i res) as [[entry|]|] eqn:E; [|reflexivity|reflexivity].
  apply obj_get_in in E. apply Hnone in E. discriminate.
Qed.

Lemma mapOfEntries_distinct {V} (entries : list (File * V)) :
  NoDup (map fst entries) -> mapOfEntries entries = entries.
Proof.
  unfold mapOfEntries.
  assert (Hacc : forall (m : FileMap V),
             NoDup (map fst (m ++ entries)) ->
             fold_left (fun m e => map_set (fst e) (snd e) m) entries m = m ++ entries).
  { induction entries as [|[f v] entries IH]; intros m Hnd; cbn [fold_left].
    - now rewrite app_nil_r.
    - cbn [fst snd]. rewrite map_set_absent.
      + rewrite IH; rewrite <- app_assoc; [reflexivity | exact Hnd].
      + destruct (map_get f m) eqn:E; [|reflexivity].
        exfalso. rewrite map_app in Hnd. apply NoDup_remove_2 in Hnd. apply Hnd.
        apply in_or_app. left. apply (proj2 (map_get_keys f m)). congruence. }
  intros Hnd. apply (Hacc []). exact Hnd.
Qed.

(** The newest run, by its number. *)
Lemma newest_at {Emb} (s : State Emb) (r : Run Emb) :
  newestRun s = Some r -> nth_error (runs s) (pred (length (runs s))) = Some r.
Proof. auto. Qed.

(** X27. In every state that the coordinator reaches, the progress counter
    [finished] is at most the number of images of the run started last.
    The hook computes [progress] at a render from its argument [images]
    and the counter: it is [undefined] exactly for an empty [images], it is
    never negative and at most the number of images of the newest run over
    the number of [images]; so it is at most 1 once the effect of this
    [images] has run (the newest run is that of [images]), and it can
    exceed 1 at the render before, which still reads the counter of the
    run of a longer list. *)
Theorem progress_within_bounds {Emb} (evs : list (Event Emb)) (s : State Emb) (r : Run Emb)
    (images : list File) :
  history initial evs = Some s -> newestRun s = Some r ->
  finished s <= length (runImages r)
  /\ match progress (N:=Q) images (finished s) with
     | Some p =>
         images <> []
         /\ (0 <= p)%Q
         /\ (p <= ratio (length (runImages r)) (length images))%Q
         /\ (images = runImages r -> (p <= 1)%Q)
     | None => images = []
     end.
Proof.
  intros Hh Hr. destruct (reachable_counted _ Hh) as [_ Hc].
  destruct (Hc r Hr) as (_ & Hn & Hf & _).
  assert (Hle : finished s <= length (runImages r)) by lia.
  split; [exact Hle|]. unfold progress.
  destruct (length images =? 0) eqn:E.
  - apply Nat.eqb_eq in E. now destruct images.
  - apply Nat.eqb_neq in E.
    change (div (of_nat (finished s)) (of_nat (length images)))
      with (ratio (finished s) (length images)).
    split; [intros ->; now apply E|]. split; [apply ratio_nonneg|]. split.
    + unfold ratio. apply Qmult_le_compat_r.
      * rewrite <- Zle_Qle. lia.
      * apply Qinv_le_0_compat. rewrite <- (Zle_Qle 0). lia.
    + intros ->. now apply ratio_le_1.
Qed.

Lemma progress_within_bounds_witness :
  exists s r,
    history initial twoEmbedded = Some s /\ newestRun s = Some r
    /\ finished s = 2 /\ finished s <= length (runImages r)
    /\ progress (N:=Q) [1; 2] (finished s) = Some (2 / 2)%Q
    /\ progress (N:=Q) [3] (finished s) = Some (2 / 1)%Q.
Proof.
  eexists. eexists. split; [vm_compute; reflexivity|]. split; [vm_compute; reflexivity|].
  split; [reflexivity|]. split; [|split; reflexivity].
  match goal with
  | |- finished ?s <= length (runImages ?r) =>
      exact (proj1 (@progress_within_bounds nat twoEmbedded s r [1; 2]
                      ltac:(vm_compute; reflexivity) ltac:(vm_compute; reflexivity)))
  end.
Defined.

(** X28. When the newest run has an embedder and reaches the code after
    [await pMap]: the progress counter equals the number of images, and the
    published map is built from one entry per image of the run, in the order
    of the images (it is this list of entries when the images are distinct).
    *)
Theorem publish_covers_images {Emb} (evs : list (Event Emb)) (s s' : State Emb)
    (r : Run Emb) :
  history initial evs = Some s -> newestRun s = Some r -> hasEmbedder r = true ->
  step s (Publish (pred (length (runs s)))) = Some s' ->
  finished s' = length (runImages r)
  /\ exists entries,
       map fst entries = runImages r
       /\ imagesWithEmbeddings s' = mapOfEntries entries
       /\ (NoDup (runImages r) -> imagesWithEmbeddings s' = entries).
Proof.
  intros Hh Hr He Hs. destruct (reachable_counted _ Hh) as [_ Hc].
  destruct (Hc r Hr) as (Ha & Hn & Hf & Hnd & Hin & _ & Hyes).
  unfold step in Hs. rewrite (newest_at _ Hr) in Hs.
  destruct (settled r || rejected r || negb (next r =? length (runImages r))
            || negb (length (inFlight r) =? 0)) eqn:G; [discriminate|].
  inversion Hs; subst; clear Hs. cbn [finished imagesWithEmbeddings].
  apply orb_false_iff in G. destruct G as [G G4].
  apply orb_false_iff in G. destruct G as [G G3].
  apply orb_false_iff in G. destruct G as [_ G2].
  apply negb_false_iff, Nat.eqb_eq in G3, G4.
  destruct (Hyes He G2) as [Heq Hres].
  split; [lia|]. rewrite Ha.
  exists (compactResults r).
  assert (Hfst : map fst (compactResults r) = runImages r).
  { unfold compactResults. apply compact_all. intros j file Hj. cbn [Nat.add].
    assert (Hlt : j < next r).
    { rewrite G3. apply nth_error_Some. congruence. }
    destruct (Hres j Hlt) as [Hi|(f & e & Hf' & Hg)].
    - destruct (inFlight r); [contradiction | discriminate].
    - exists e. rewrite Hj in Hf'. inversion Hf'; subst. exact Hg. }
  split; [exact Hfst|]. split; [reflexivity|].
  intros Hd. apply mapOfEntries_distinct. now rewrite Hfst.
Qed.

Lemma publish_covers_images_witness :
  exists s s' r,
    history initial twoEmbedded = Some s /\ newestRun s = Some r
    /\ step s (Publish 0) = Some s'
    /\ finished s' = 2 /\ imagesWithEmbeddings s' = [(1, 11); (2, 22)].
Proof.
  eexists. eexists. eexists.
  split; [vm_compute; reflexivity|]. split; [vm_compute; reflexivity|].
  split; [vm_compute; reflexivity|].
  split; [|reflexivity].
  match goal with
  | |- finished ?s' = 2 =>
      exact (proj1 (@publish_covers_images nat twoEmbedded _ s' _
                      ltac:(vm_compute; reflexivity) ltac:(vm_compute; reflexivity)
                      ltac:(reflexivity) ltac:(vm_compute; reflexivity)))
  end.
Defined.

(** X29. A run that starts while there is no embedder makes no call of the
    provider (no answer of the provider can arrive for it), leaves the
    progress counter at 0, and, when it reaches the code after [await pMap],
    publishes an empty map. *)
Theorem no_embedder_publishes_empty {Emb} (evs : list (Event Emb)) (s : State Emb)
    (r : Run Emb) :
  history initial evs = Some s -> newestRun s = Some r -> hasEmbedder r = false ->
  finished s = 0
  /\ (forall i e, step s (Returns (pred (length (runs s))) i e) = None)
  /\ (forall i, step s (Throws (pred (length (runs s))) i) = None)
  /\ forall s', step s (Publish (pred (length (runs s)))) = Some s' ->
       imagesWithEmbeddings s' = [].
Proof.
  intros Hh Hr He. destruct (reachable_counted _ Hh) as [_ Hc].
  destruct (Hc r Hr) as (Ha & _ & _ & _ & _ & Hno & _).
  destruct (Hno He) as (Hnil & Hz & Hnone).
  split; [exact Hz|]. split; [|split].
  - intros i e. unfold step. rewrite (newest_at _ Hr), Hnil.
    destruct (nth_error (runImages r) i); reflexivity.
  - intros i. unfold step. rewrite (newest_at _ Hr), Hnil. reflexivity.
  - intros s' Hs. unfold step in Hs. rewrite (newest_at _ Hr) in Hs.
    destruct (settled r || rejected r || negb (next r =? length (runImages r))
              || negb (length (inFlight r) =? 0)); [discriminate|].
    inversion Hs; subst; clear Hs. cbn [imagesWithEmbeddings]. rewrite Ha.
    unfold compactResults. now rewrite (compact_none _ _ Hnone).
Qed.

Lemma no_embedder_publishes_empty_witness :
  exists s s' r,
    history initial noEmbedder = Some s /\ newestRun s = Some r
    /\ step s (Publish 0) = Some s'
    /\ finished s = 0 /\ imagesWithEmbeddings s' = [].
Proof.
  eexists. eexists. eexists.
  split; [vm_compute; reflexivity|]. split; [vm_compute; reflexivity|].
  split; [vm_compute; reflexivity|].
  split; [|reflexivity].
  match goal with
  | |- finished ?s = 0 =>
      exact (proj1 (@no_embedder_publishes_empty nat noEmbedder s _
                      ltac:(vm_compute; reflexivity) ltac:(vm_compute; reflexivity)
                      ltac:(reflexivity)))
  end.
Defined.

End ProgressFacts.

(** ** Cosine similarity *)

Module CosineFacts.

Import Forest Ranking Coordinator Page.

Import NumberFacts Spec Ranking ScorerFacts.

Lemma dot_swap (a b : list Q) (acc acc' : Q) :
  (acc == acc')%Q ->
  (fold_left (fun acc xy => add acc (mul (fst xy) (snd xy))) (combine a b) acc
   == fold_left (fun acc xy => add acc (mul (fst xy) (snd xy))) (combine b a) acc')%Q.
Proof.
  revert b acc acc'. induction a as [|x a IH]; intros [|y b] acc acc' E; simpl; try exact E.
  apply IH. cbn [add mul Q_Number]. rewrite E. ring.
Qed.

(** X30. [cosineSimilarity] throws exactly on vectors of two lengths, in
    either order of its arguments; on vectors of one length it returns, and
    in exact arithmetic (whatever [Math.sqrt] computes) the result does not
    depend on the order of the arguments. *)
Theorem cosineSimilarity_symmetric (sqrtQ : Sqrt Q) (vecA vecB : list Q) :
  match cosineSimilarity vecA vecB, cosineSimilarity vecB vecA with
  | Some x, Some y => length vecA = length vecB /\ (x == y)%Q
  | None, None => length vecA <> length vecB
  | _, _ => False
  end.
Proof.
  destruct (Nat.eq_dec (length vecA) (length vecB)) as [E|E].
  - rewrite (cosineSimilarity_cosineSim _ _ E).
    rewrite (cosineSimilarity_cosineSim _ _ (eq_sym E)).
    split; [exact E|]. unfold cosineSim, dot. cbn [div mul Q_Number].
    rewrite (dot_swap vecA vecB (acc:=of_nat 0) (acc':=of_nat 0)) by reflexivity.
    unfold Qdiv. rewrite (Qmult_comm (norm vecA) (norm vecB)). reflexivity.
  - rewrite (cosineSimilarity_throws _ _ E).
    rewrite (cosineSimilarity_throws _ _ (fun E' => E (eq_sym E'))). exact E.
Qed.

End CosineFacts.
